(** * liblsdj: save container, stream codec and song image

    A shallow embedding of the block codec ([compression.c]), the table
    accessors ([table.c]), the save reader ([sav.c]) and the song image
    reader and writer ([song.c]), with the properties their specification
    states about them.

    Bytes are integers in [0, 256); streams are byte buffers with a cursor;
    fallible functions return an outcome carrying the error message the C
    code would have created, or tell that an assertion stopped them. *)

From Stdlib Require Import String Ascii ZArith List Bool Lia Arith.
Import ListNotations.

Local Open Scope Z_scope.

(** ** Outcomes of fallible, possibly long-running code *)

(** [Aborted]: an [assert] of the C code failed and the program was
    stopped there.  [Timeout]: the bound on the turns of a loop was
    reached. *)
Inductive outcome (A : Type) : Type :=
| Ok (a : A)
| Err (msg : string)
| Aborted
| Timeout.

Arguments Ok {A} a.
Arguments Err {A} msg.
Arguments Aborted {A}.
Arguments Timeout {A}.

Definition bind {A B : Type} (m : outcome A) (k : A -> outcome B) : outcome B :=
  match m with
  | Ok a => k a
  | Err msg => Err msg
  | Aborted => Aborted
  | Timeout => Timeout
  end.

(** [require o msg] turns a failed stream operation into the error the
    caller reports for it. *)
Definition require {A : Type} (o : option A) (msg : string) : outcome A :=
  match o with
  | Some a => Ok a
  | None => Err msg
  end.

Declare Scope outcome_scope.
Delimit Scope outcome_scope with outcome.
Notation "x <- m ;; k" := (bind m (fun x => k))
  (at level 61, m at next level, right associativity) : outcome_scope.
Notation "' p <- m ;; k" := (bind m (fun x => match x with p => k end))
  (at level 61, p pattern, m at next level, right associativity) : outcome_scope.

(** [unsigned char] and [unsigned int] conversions. *)
Definition u8 (x : Z) : Z := x mod 256.
Definition u32 (x : Z) : Z := x mod 4294967296.

(** ** Byte streams

    Modelled from the spec: the ByteStream of section 4.1 (vio.c is not
    part of the sources), in its in-memory implementation: a buffer of
    fixed size and a cursor.  An operation fails when it would leave the
    buffer. *)

Module Vio.

Record t : Type := mk { buf : list Z; pos : Z }.

Definition size (v : t) : Z := Z.of_nat (length (buf v)).

Definition wf (v : t) : Prop := 0 <= pos v <= size v.

(** [lsdj_vio_tell] *)
Definition tell (v : t) : Z := pos v.

(** [lsdj_vio_seek(vio, off, SEEK_SET)] *)
Definition seek (v : t) (off : Z) : option t :=
  if (0 <=? off) && (off <=? size v) then Some (mk (buf v) off) else None.

(** [lsdj_vio_read_byte] *)
Definition read_byte (v : t) : option (Z * t) :=
  if 0 <=? pos v then
    match nth_error (buf v) (Z.to_nat (pos v)) with
    | Some b => Some (b, mk (buf v) (pos v + 1))
    | None => None
    end
  else None.

(** [lsdj_vio_write]: the bytes [l] replace what the buffer holds from
    the cursor on, when they fit. *)
Definition write (v : t) (l : list Z) : option t :=
  match l with
  | [] => Some v
  | _ :: _ =>
      let n := Z.of_nat (length l) in
      if (0 <=? pos v) && (pos v + n <=? size v) then
        let p := Z.to_nat (pos v) in
        Some (mk (firstn p (buf v) ++ l ++ skipn (p + length l) (buf v)) (pos v + n))
      else None
  end.

(** [lsdj_vio_write_byte] *)
Definition write_byte (v : t) (b : Z) : option t := write v [b].

(** [lsdj_vio_write_repeat]: [count] copies of [pat]. *)
Definition write_repeat (v : t) (pat : list Z) (count : nat) : option t :=
  write v (concat (repeat pat count)).

End Vio.

(** ** compression.c *)

Module Compression.

Definition RUN_LENGTH_ENCODING_BYTE : Z := 0xC0.
Definition SPECIAL_ACTION_BYTE : Z := 0xE0.
Definition LSDJ_DEFAULT_WAVE_BYTE : Z := 0xF0.
Definition LSDJ_DEFAULT_WAVE_LENGTH : Z := 16.
Definition LSDJ_DEFAULT_WAVE : list Z :=
  [0x8E; 0xCD; 0xCC; 0xBB; 0xAA; 0xA9; 0x99; 0x88;
   0x87; 0x76; 0x66; 0x55; 0x54; 0x43; 0x32; 0x31].
Definition LSDJ_DEFAULT_INSTRUMENT_BYTE : Z := 0xF1.
Definition LSDJ_DEFAULT_INSTRUMENT_LENGTH : Z := 0x10.
Definition LSDJ_DEFAULT_INSTRUMENT : list Z :=
  [0xA8; 0x00; 0x00; 0xFF; 0x00; 0x00; 0x03; 0x00;
   0x00; 0xD0; 0x00; 0x00; 0x00; 0xF3; 0x00; 0x00].

(** Modelled from the spec: the block geometry (sav.h is not part of the
    sources): blocks of 512 bytes, 191 of them, and the 32 KiB song. *)
Definition LSDJ_BLOCK_SIZE : Z := 512.
Definition LSDJ_BLOCK_COUNT : Z := 191.
Definition LSDJ_SONG_BYTE_COUNT : Z := 0x8000.

(** Modelled from the spec: the end-of-stream value that follows a
    special-action byte (compression.h is not part of the sources). *)
Definition LSDJ_END_OF_FILE_BLOCK_INDEX : Z := 0xFF.

(** The state the decompression functions thread: the two streams and
    the two optional byte counters. *)
Record dstate : Type := mkD {
  rvio : Vio.t;
  readCounter : Z;
  wvio : Vio.t;
  writeCounter : Z
}.

(** [lsdj_vio_read_byte(rvio, &byte, counter)]; [counted] is false where
    the code passes NULL for the counter. *)
Definition read_byte (st : dstate) (counted : bool) : option (Z * dstate) :=
  match Vio.read_byte (rvio st) with
  | Some (b, r) =>
      Some (b, mkD r (if counted then readCounter st + 1 else readCounter st)
                     (wvio st) (writeCounter st))
  | None => None
  end.

(** [lsdj_vio_write_byte(wvio, byte, writeCounter)] *)
Definition write_byte (st : dstate) (b : Z) : option dstate :=
  match Vio.write_byte (wvio st) b with
  | Some w => Some (mkD (rvio st) (readCounter st) w (writeCounter st + 1))
  | None => None
  end.

(** [lsdj_vio_write_repeat(wvio, pat, sizeof pat, count, writeCounter)] *)
Definition write_repeat (st : dstate) (pat : list Z) (count : Z) : option dstate :=
  match Vio.write_repeat (wvio st) pat (Z.to_nat count) with
  | Some w =>
      Some (mkD (rvio st) (readCounter st) w
                (writeCounter st + Z.of_nat (length pat) * Z.of_nat (Z.to_nat count)))
  | None => None
  end.

Definition seek_read (st : dstate) (off : Z) : option dstate :=
  match Vio.seek (rvio st) off with
  | Some r => Some (mkD r (readCounter st) (wvio st) (writeCounter st))
  | None => None
  end.

Section Decompression.

(** The value of [*nextBlockIndex] that stands for "no jump seen"; the
    macro lives in compression.h, which is not part of the sources. *)
Variable LSDJ_NO_NEXT_BLOCK_INDEX : Z.

Local Open Scope outcome_scope.

Definition decompress_rle_byte (st : dstate) : outcome dstate :=
  '(byte, st1) <- require (read_byte st true) "could not read RLE byte" ;;
  if byte =? RUN_LENGTH_ENCODING_BYTE then
    require (write_byte st1 byte) "could not write RLE byte"
  else
    '(count, st2) <- require (read_byte st1 true) "could not read RLE count byte" ;;
    require (write_repeat st2 [byte] count) "could not write byte for RLE expansion".

Definition decompress_default_wave_byte (st : dstate) : outcome dstate :=
  '(count, st1) <- require (read_byte st false) "could not read default wave count byte" ;;
  require (write_repeat st1 LSDJ_DEFAULT_WAVE count) "could not write default wave byte".

Definition decompress_default_instrument_byte (st : dstate) : outcome dstate :=
  '(count, st1) <- require (read_byte st false) "could not read default instrument count byte" ;;
  require (write_repeat st1 LSDJ_DEFAULT_INSTRUMENT count)
          "could not write default instrument byte".

(** The second component of the result is [*nextBlockIndex]. *)
Definition decompress_sa_byte (st : dstate) : outcome (dstate * Z) :=
  '(byte, st1) <- require (read_byte st true) "could not read SA byte" ;;
  if byte =? SPECIAL_ACTION_BYTE then
    st2 <- require (write_byte st1 byte) "could not write SA byte" ;;
    Ok (st2, LSDJ_NO_NEXT_BLOCK_INDEX)
  else if byte =? LSDJ_DEFAULT_WAVE_BYTE then
    st2 <- decompress_default_wave_byte st1 ;;
    Ok (st2, LSDJ_NO_NEXT_BLOCK_INDEX)
  else if byte =? LSDJ_DEFAULT_INSTRUMENT_BYTE then
    st2 <- decompress_default_instrument_byte st1 ;;
    Ok (st2, LSDJ_NO_NEXT_BLOCK_INDEX)
  else Ok (st1, byte).

Definition lsdj_decompress_step (st : dstate) : outcome (dstate * Z) :=
  '(byte, st1) <- require (read_byte st true)
                          "could not read byte for decompression step" ;;
  if byte =? RUN_LENGTH_ENCODING_BYTE then
    st2 <- decompress_rle_byte st1 ;;
    Ok (st2, LSDJ_NO_NEXT_BLOCK_INDEX)
  else if byte =? SPECIAL_ACTION_BYTE then
    decompress_sa_byte st1
  else
    st2 <- require (write_byte st1 byte) "could not write decompression byte" ;;
    Ok (st2, LSDJ_NO_NEXT_BLOCK_INDEX).

(** The do-while loop of [lsdj_decompress_block]. *)
Fixpoint block_loop (fuel : nat) (st : dstate) : outcome (dstate * Z) :=
  match fuel with
  | O => Timeout
  | S f =>
      '(st1, next) <- lsdj_decompress_step st ;;
      if next =? LSDJ_NO_NEXT_BLOCK_INDEX then block_loop f st1
      else Ok (st1, next)
  end.

(** What [lsdj_decompress_block] does once [start] is recorded. *)
Definition block_from (fuel : nat) (start : Z) (st : dstate) : outcome (dstate * Z) :=
  '(st1, next) <- block_loop fuel st ;;
  st2 <- require (seek_read st1 (start + LSDJ_BLOCK_SIZE))
                 "could not seek to the end of a block" ;;
  Ok (st2, next).

Definition lsdj_decompress_block (fuel : nat) (st : dstate) : outcome (dstate * Z) :=
  let start := Vio.tell (rvio st) in
  block_from fuel start st.

(** What the loop of [lsdj_decompress] does with the block index a block
    ended on: [None] when the loop is left. *)
Definition after_block (firstBlockPosition : Z) (followBlockJumps : bool)
           (st : dstate) (next : Z) : outcome (option dstate) :=
  if next =? LSDJ_END_OF_FILE_BLOCK_INDEX then Ok None
  else if followBlockJumps then
    let index := u8 (u8 next - 1) in
    st1 <- require (seek_read st (firstBlockPosition + index * LSDJ_BLOCK_SIZE))
                   "could not move to next block" ;;
    Ok (Some st1)
  else Ok (Some st).

(** The do-while loop of [lsdj_decompress], with the assertion
    [nextBlockIndex != LSDJ_NO_NEXT_BLOCK_INDEX] that follows the block. *)
Fixpoint decompress_loop (fuel : nat) (firstBlockPosition : Z) (followBlockJumps : bool)
         (st : dstate) : outcome dstate :=
  match fuel with
  | O => Timeout
  | S f =>
      '(st1, next) <- lsdj_decompress_block f st ;;
      if next =? LSDJ_NO_NEXT_BLOCK_INDEX then Aborted
      else
        o <- after_block firstBlockPosition followBlockJumps st1 next ;;
        match o with
        | None => Ok st1
        | Some st2 => decompress_loop f firstBlockPosition followBlockJumps st2
        end
  end.

(** [assert((lsdj_vio_tell(rvio) - firstBlockPosition) % LSDJ_BLOCK_SIZE == 0)],
    between the loop and the size check; [%] is the remainder of C. *)
Definition on_block_boundary (firstBlockPosition : Z) (st : dstate) : bool :=
  Z.rem (Vio.tell (rvio st) - firstBlockPosition) LSDJ_BLOCK_SIZE =? 0.

Definition hex_digit (d : Z) : ascii :=
  nth (Z.to_nat d)
      ["0"; "1"; "2"; "3"; "4"; "5"; "6"; "7";
       "8"; "9"; "a"; "b"; "c"; "d"; "e"; "f"]%char "0"%char.

Fixpoint hex_digits (fuel : nat) (n : Z) (acc : string) : string :=
  match fuel with
  | O => acc
  | S f =>
      let acc' := String (hex_digit (n mod 16)) acc in
      if n / 16 =? 0 then acc' else hex_digits f (n / 16) acc'
  end.

(** [%lx] of a [long]. *)
Definition to_hex (n : Z) : string :=
  hex_digits 16 (n mod 18446744073709551616) EmptyString.

Definition size_mismatch (readSize : Z) : string :=
  ("decompressed size does not line up with 0x8000 bytes (but 0x"
     ++ to_hex readSize ++ ")")%string.

(** The check [lsdj_decompress] makes after its loop. *)
Definition check_size (writeStart : Z) (st : dstate) : outcome dstate :=
  let writeEnd := Vio.tell (wvio st) in
  if writeEnd =? -1 then Err "could not tell compression end"
  else
    let readSize := writeEnd - writeStart in
    if negb (readSize =? LSDJ_SONG_BYTE_COUNT) then Err (size_mismatch readSize)
    else Ok st.

Definition lsdj_decompress (fuel : nat) (st : dstate)
           (firstBlockPosition : Z) (followBlockJumps : bool) : outcome dstate :=
  let writeStart := Vio.tell (wvio st) in
  st1 <- decompress_loop fuel firstBlockPosition followBlockJumps st ;;
  if on_block_boundary firstBlockPosition st1 then check_size writeStart st1
  else Aborted.

End Decompression.

(** *** Compression *)

(** [memcmp(read, pat, 16) == 0], with [read] the start of [rest]. *)
Definition starts_with (pat rest : list Z) : bool :=
  if list_eq_dec Z.eq_dec (firstn (length pat) rest) pat then true else false.

(** The loops that count back-to-back copies of a 16-byte constant:
    [while (read + 16 < end && memcmp(read, pat, 16) == 0 && count != 0xFF)].
    [rest] is the input from [read] to [end]; the loop runs at most 255
    times, which is what [fuel] is given. *)
Fixpoint count_default (pat : list Z) (fuel : nat) (rest : list Z) (count : Z)
  : list Z * Z :=
  match fuel with
  | O => (rest, count)
  | S f =>
      if (16 <? Z.of_nat (length rest)) && starts_with pat rest && negb (count =? 0xFF)
      then count_default pat f (skipn 16 rest) (count + 1)
      else (rest, count)
  end.

(** [while (read < end && *read == c && count != 0xFF) { ++count; ++read; }] *)
Fixpoint count_run (c : Z) (rest : list Z) (count : Z) : list Z * Z :=
  match rest with
  | [] => ([], count)
  | x :: tl =>
      if (x =? c) && negb (count =? 0xFF) then count_run c tl (count + 1)
      else (rest, count)
  end.

(** [*(read + i) == c] *)
Definition at_is (rest : list Z) (i : nat) (c : Z) : bool :=
  match nth_error rest i with
  | Some x => x =? c
  | None => false
  end.

(** The first half of the loop body of [lsdj_compress]: the event chosen
    at the read position (the first [eventSize] bytes of [nextEvent]) and
    the input that is left after it. *)
Definition next_event (rest : list Z) : list Z * list Z :=
  let '(rest1, defaultWaveLengthCount) := count_default LSDJ_DEFAULT_WAVE 255 rest 0 in
  if 0 <? defaultWaveLengthCount then
    ([SPECIAL_ACTION_BYTE; LSDJ_DEFAULT_WAVE_BYTE; defaultWaveLengthCount], rest1)
  else
    let '(rest2, defaultInstrumentLengthCount) :=
      count_default LSDJ_DEFAULT_INSTRUMENT 255 rest1 0 in
    if 0 <? defaultInstrumentLengthCount then
      ([SPECIAL_ACTION_BYTE; LSDJ_DEFAULT_INSTRUMENT_BYTE; defaultInstrumentLengthCount],
       rest2)
    else
      match rest2 with
      | [] => ([], [])
      | c :: tl =>
          if c =? RUN_LENGTH_ENCODING_BYTE then
            ([RUN_LENGTH_ENCODING_BYTE; RUN_LENGTH_ENCODING_BYTE], tl)
          else if c =? SPECIAL_ACTION_BYTE then
            ([SPECIAL_ACTION_BYTE; SPECIAL_ACTION_BYTE], tl)
          else if (3 <? Z.of_nat (length rest2))
                    && at_is rest2 1 c && at_is rest2 2 c && at_is rest2 3 c then
            let '(rest3, count) := count_run c rest2 0 in
            ([RUN_LENGTH_ENCODING_BYTE; c; count], rest3)
          else ([c], tl)
      end.

Inductive compress_result : Type :=
| Compressed (w : Vio.t) (writeCounter : Z)    (* returns true *)
| RolledBack (w : Vio.t) (writeCounter : Z)    (* block budget exhausted *)
| Refused                                      (* blockOffset == 192 *)
| CompressError (msg : string)
| CompressTimeout.

(** Writes of the compressor count into [writeCounter]. *)
Definition cwrite (w : Vio.t) (wc : Z) (l : list Z) : option (Vio.t * Z) :=
  match Vio.write w l with
  | Some w' => Some (w', wc + Z.of_nat (length l))
  | None => None
  end.

Definition zeros (n : Z) : list Z := repeat 0 (Z.to_nat n).

(** The roll back once [currentBlock] reaches [LSDJ_BLOCK_COUNT + 1]. *)
Definition roll_back (w : Vio.t) (wc : Z) (writeStart : Z) : compress_result :=
  let pos := Vio.tell w in
  match Vio.seek w writeStart with
  | None => CompressError
              "could not roll back after reaching max block count for compression"
  | Some w1 =>
      match cwrite w1 wc (zeros (pos - writeStart)) with
      | None => CompressError "could not fill rolled back data with 0 for compression"
      | Some (w2, wc2) =>
          match Vio.seek w2 writeStart with
          | None => CompressError
                      "could not fill roll back to start for compression roll back"
          | Some w3 => RolledBack w3 wc2
          end
      end
  end.

(** The end of [lsdj_compress], after its loop. *)
Definition finish (currentBlockSize : Z) (w : Vio.t) (wc : Z) : compress_result :=
  match cwrite w wc [SPECIAL_ACTION_BYTE] with
  | None => CompressError "could not write SA for EOF for compression"
  | Some (w1, wc1) =>
      match cwrite w1 wc1 [LSDJ_END_OF_FILE_BLOCK_INDEX] with
      | None => CompressError "could not write EOF for compression"
      | Some (w2, wc2) =>
          if 0 <? currentBlockSize then
            match cwrite w2 wc2 (zeros (LSDJ_BLOCK_SIZE - (currentBlockSize + 2))) with
            | None => CompressError "could not write 0 for block padding"
            | Some (w3, wc3) => Compressed w3 wc3
            end
          else Compressed w2 wc2
      end
  end.

(** The loop of [lsdj_compress]: [rest] is the input from [read] to
    [end].  Every turn consumes input, so [fuel] is the input length. *)
Fixpoint compress_loop (fuel : nat) (writeStart : Z) (rest : list Z)
         (currentBlock currentBlockSize : Z) (w : Vio.t) (wc : Z) : compress_result :=
  match rest with
  | [] => finish currentBlockSize w wc
  | _ :: _ =>
      match fuel with
      | O => CompressTimeout
      | S f =>
          let '(nextEvent, rest') := next_event rest in
          let eventSize := Z.of_nat (length nextEvent) in
          let write_event currentBlock currentBlockSize w wc :=
            match cwrite w wc nextEvent with
            | None => CompressError "could not write event for compression"
            | Some (w', wc') =>
                compress_loop f writeStart rest' currentBlock
                              (currentBlockSize + eventSize) w' wc'
            end in
          if LSDJ_BLOCK_SIZE <=? currentBlockSize + eventSize + 2 then
            match cwrite w wc [SPECIAL_ACTION_BYTE] with
            | None => CompressError "could not write SA byte for next block command"
            | Some (w1, wc1) =>
                match cwrite w1 wc1 [u8 (u32 (currentBlock + 1))] with
                | None => CompressError "could not write next block byte for compression"
                | Some (w2, wc2) =>
                    let size2 := currentBlockSize + 2 in
                    match cwrite w2 wc2 (zeros (LSDJ_BLOCK_SIZE - size2)) with
                    | None => CompressError "could not write 0 for block padding"
                    | Some (w3, wc3) =>
                        if negb (Z.max size2 LSDJ_BLOCK_SIZE =? LSDJ_BLOCK_SIZE) then
                          CompressError "block wasn't completely filled upon compression"
                        else
                          let currentBlock' := u32 (currentBlock + 1) in
                          if currentBlock' =? LSDJ_BLOCK_COUNT + 1 then
                            roll_back w3 wc3 writeStart
                          else write_event currentBlock' 0 w3 wc3
                    end
                end
            end
          else write_event currentBlock currentBlockSize w wc
      end
  end.

Definition lsdj_compress (data : list Z) (w : Vio.t) (blockOffset : Z) (wc : Z)
  : compress_result :=
  if blockOffset =? LSDJ_BLOCK_COUNT + 1 then Refused
  else
    let writeStart := Vio.tell w in
    if writeStart =? -1 then
      CompressError "could not tell write position on compression"
    else compress_loop (length data) writeStart data blockOffset 0 w wc.

(** *** Vocabulary of the statements *)

(** The [n] bytes at the cursor of a stream. *)
Definition peek (v : Vio.t) (n : nat) : list Z :=
  firstn n (skipn (Z.to_nat (Vio.pos v)) (Vio.buf v)).

(** The input stream holds the bytes [l] at its cursor. *)
Definition ahead (st : dstate) (l : list Z) : Prop :=
  0 <= Vio.pos (rvio st) /\ peek (rvio st) (length l) = l.

(** The state after [n] input bytes were read, [counted] of them into
    the read counter, and the output became [w], [written] bytes
    longer. *)
Definition consumed (st : dstate) (n counted : Z) (w : Vio.t) (written : Z) : dstate :=
  mkD (Vio.mk (Vio.buf (rvio st)) (Vio.pos (rvio st) + n)) (readCounter st + counted)
      w (writeCounter st + written).

(** The state with the input cursor moved to [off]. *)
Definition moved (st : dstate) (off : Z) : dstate :=
  mkD (Vio.mk (Vio.buf (rvio st)) off) (readCounter st) (wvio st) (writeCounter st).

(** The output cursor moves forward by exactly the bytes counted. *)
Definition grows (st st' : dstate) : Prop :=
  Vio.pos (wvio st) <= Vio.pos (wvio st')
  /\ Vio.pos (wvio st') - Vio.pos (wvio st) = writeCounter st' - writeCounter st.

(** The loop of [lsdj_decompress] entered in the middle of a block that
    began at [start]; [fi] bounds the steps left in this block, [fo] the
    turns of the loop after it. *)
Definition loop_from (NO : Z) (fi fo : nat) (firstBlockPosition : Z)
           (followBlockJumps : bool) (start : Z) (st : dstate) : outcome dstate :=
  bind (block_from NO fi start st) (fun r =>
    let '(st1, next) := r in
    if next =? NO then Aborted
    else
      bind (after_block firstBlockPosition followBlockJumps st1 next) (fun o =>
        match o with
        | None => Ok st1
        | Some st2 => decompress_loop NO fo firstBlockPosition followBlockJumps st2
        end)).

(** What a stream holds before its cursor. *)
Definition prefix (v : Vio.t) : list Z :=
  firstn (Z.to_nat (Vio.pos v)) (Vio.buf v).

(** [encodes ev used]: the event bytes [ev] stand for the input bytes
    [used]. *)
Inductive encodes : list Z -> list Z -> Prop :=
| enc_wave (n : Z) :
    1 <= n <= 255 ->
    encodes [0xE0; 0xF0; n] (concat (repeat LSDJ_DEFAULT_WAVE (Z.to_nat n)))
| enc_instrument (n : Z) :
    1 <= n <= 255 ->
    encodes [0xE0; 0xF1; n] (concat (repeat LSDJ_DEFAULT_INSTRUMENT (Z.to_nat n)))
| enc_rle_byte : encodes [0xC0; 0xC0] [0xC0]
| enc_sa_byte : encodes [0xE0; 0xE0] [0xE0]
| enc_run (c n : Z) :
    c <> 0xC0 -> c <> 0xE0 -> 1 <= n <= 255 ->
    encodes [0xC0; c; n] (repeat c (Z.to_nat n))
| enc_literal (c : Z) :
    c <> 0xC0 -> c <> 0xE0 -> encodes [c] [c].

(** [stream rest block size out]: [out] is a compressed stream for the
    input [rest], laid out from offset [size] of block number [block]:
    events, block jumps padded to the block boundary, and the
    end-of-stream marker padded likewise. *)
Inductive stream : list Z -> Z -> Z -> list Z -> Prop :=
| stream_end (block size : Z) :
    0 < size <= 510 ->
    stream [] block size ([0xE0; 0xFF] ++ zeros (LSDJ_BLOCK_SIZE - (size + 2)))
| stream_event (ev used rest : list Z) (block size : Z) (out : list Z) :
    encodes ev used ->
    0 <= size ->
    size + Z.of_nat (length ev) + 2 < LSDJ_BLOCK_SIZE ->
    stream rest block (size + Z.of_nat (length ev)) out ->
    stream (used ++ rest) block size (ev ++ out)
| stream_jump (rest : list Z) (block size : Z) (out : list Z) :
    0 <= size <= 510 ->
    0 <= block -> block + 1 <= LSDJ_BLOCK_COUNT ->
    stream rest (block + 1) 0 out ->
    stream rest block size
           ([0xE0; block + 1] ++ zeros (LSDJ_BLOCK_SIZE - (size + 2)) ++ out).


End Compression.

(** ** Errors

    Modelled from the spec: errors are values handed back through the
    [lsdj_error_t**] argument (error.c is not part of the sources).  The
    caller passes either no slot (NULL) or a slot, which holds no error
    until one is created in it. *)

Module Error.

Definition slot : Type := option (option string).

(** [lsdj_create_error(error, message)] *)
Definition lsdj_create_error (error : slot) (message : string) : slot :=
match error with
| None => None
| Some _ => Some (Some message)
end.

(** [error != NULL] *)
Definition given (error : slot) : bool :=
match error with
| None => false
| Some _ => true
end.

(** [error && *error] *)
Definition raised (error : slot) : bool :=
match error with
| Some (Some _) => true
| _ => false
end.

End Error.

(** ** table.c *)

Module Table.

Definition ALLOCATION_TABLE_OFFSET : Z := 0x2020.
Definition ALLOCATION_TABLE_LENGTH : Z := 0x32.
Definition ENVELOPES_OFFSET : Z := 0x1690.
Definition TRANSPOSITION_OFFSET : Z := 0x3480.
Definition COMMAND1_OFFSET : Z := 0x3680.
Definition COMMAND1_VALUE_OFFSET : Z := 0x3880.
Definition COMMAND2_OFFSET : Z := 0x3a80.
Definition COMMAND2_VALUE_OFFSET : Z := 0x3c80.
Definition CONTENT_LENGTH : Z := 512.

(** Modelled from the spec: a table has 16 steps (table.h is not part of
    the sources). *)
Definition LSDJ_TABLE_LENGTH : Z := 16.

(** The song these accessors work on is the raw 32 KiB image
    (song_buffer.h). *)
Record lsdj_song_t : Type := mkSong { bytes : list Z }.

(** [song->bytes[i]] *)
Definition load (song : lsdj_song_t) (i : Z) : Z :=
nth (Z.to_nat i) (bytes song) 0.

(** [song->bytes[i] = v]; nothing is stored outside the image. *)
Definition store (song : lsdj_song_t) (i : Z) (v : Z) : lsdj_song_t :=
if (0 <=? i) && (i <? Z.of_nat (length (bytes song))) then
  mkSong (firstn (Z.to_nat i) (bytes song) ++ v :: skipn (S (Z.to_nat i)) (bytes song))
else song.

(** Modelled from the spec: the format version is the byte at the final
    offset 0x7FFF of the image (the accessor for this representation of
    a song is not part of the sources). *)
Definition lsdj_song_get_format_version (song : lsdj_song_t) : Z :=
load song 0x7FFF.

(** [table] and [step] are [uint8_t]. *)
Definition table_index (table step : Z) : Z := table * LSDJ_TABLE_LENGTH + step.

(** [TABLE_SETTER] and [TABLE_GETTER]; [None] stands for the assertion
    [index <= LENGTH] that fails.  [VALUE] is a [uint8_t]. *)
Definition TABLE_SETTER (OFFSET LENGTH : Z) (song : lsdj_song_t) (table step VALUE : Z)
  : option lsdj_song_t :=
  let index := table_index table step in
  if index <=? LENGTH then Some (store song (OFFSET + index) VALUE) else None.

Definition TABLE_GETTER (OFFSET LENGTH : Z) (song : lsdj_song_t) (table step : Z)
  : option Z :=
  let index := table_index table step in
  if index <=? LENGTH then Some (load song (OFFSET + index)) else None.

Section Commands.

(** The ordinal of command B in the [lsdj_command] enumeration
    (command.h is not part of the sources). *)
Variable LSDJ_COMMAND_B : Z.

(** The command setters: [None] stands for the assertion
    [index <= CONTENT_LENGTH] that fails, in the branch of format version
    8 and later before the store and in the older branch inside
    [TABLE_SETTER]; a refused command B returns before it.

    The command getters: their assertions compare the index with an
    offset (0x3680 or 0x3a80), which no [uint8_t] table and step reach
    (the index is at most 255 * 16 + 255), so that they return a value
    for every table and step. *)
Definition lsdj_table_set_command1 (song : lsdj_song_t) (table step command : Z)
  : option (bool * lsdj_song_t) :=
if 8 <=? lsdj_song_get_format_version song then
  let byte :=
    if command =? LSDJ_COMMAND_B then 1
    else if 1 <? command then u8 (u8 command + 1)
    else u8 command in
  let index := table_index table step in
  if index <=? CONTENT_LENGTH
  then Some (true, store song (COMMAND1_OFFSET + index) byte)
  else None
else
  if command =? LSDJ_COMMAND_B then Some (false, song)
  else
    match TABLE_SETTER COMMAND1_OFFSET CONTENT_LENGTH song table step (u8 command) with
    | Some song' => Some (true, song')
    | None => None
    end.

Definition lsdj_table_get_command1 (song : lsdj_song_t) (table step : Z) : Z :=
if 8 <=? lsdj_song_get_format_version song then
  let index := table_index table step in
  let byte := load song (COMMAND2_OFFSET + index) in
  if 1 <? byte then byte - 1
  else if byte =? 1 then LSDJ_COMMAND_B
  else byte
else
  let index := table_index table step in
  load song (COMMAND1_OFFSET + index).

Definition lsdj_table_set_command2 (song : lsdj_song_t) (table step command : Z)
  : option (bool * lsdj_song_t) :=
if 8 <=? lsdj_song_get_format_version song then
  let byte :=
    if command =? LSDJ_COMMAND_B then 1
    else if 1 <? command then u8 (u8 command + 1)
    else u8 command in
  let index := table_index table step in
  if index <=? CONTENT_LENGTH
  then Some (true, store song (COMMAND2_OFFSET + index) byte)
  else None
else
  if command =? LSDJ_COMMAND_B then Some (false, song)
  else
    match TABLE_SETTER COMMAND2_OFFSET CONTENT_LENGTH song table step (u8 command) with
    | Some song' => Some (true, song')
    | None => None
    end.

Definition lsdj_table_get_command2 (song : lsdj_song_t) (table step : Z) : Z :=
if 8 <=? lsdj_song_get_format_version song then
  let index := table_index table step in
  let byte := load song (COMMAND2_OFFSET + index) in
  if 1 <? byte then byte - 1
  else if byte =? 1 then LSDJ_COMMAND_B
  else byte
else
  let index := table_index table step in
  load song (COMMAND2_OFFSET + index).

End Commands.

(** An image of zeros with the given format version. *)
Definition blank_song (version : Z) : lsdj_song_t :=
mkSong (repeat 0 (Z.to_nat 0x7FFF) ++ [version]).

(** *** The plain columns

    The accessors of the envelope, transposition and command value
    columns expand to [TABLE_SETTER] and [TABLE_GETTER]; [table], [step]
    and [value] are [uint8_t]. *)
Definition lsdj_table_is_allocated (song : lsdj_song_t) (table : Z) : option bool :=
  let index := ALLOCATION_TABLE_OFFSET + table in
  if index <=? ALLOCATION_TABLE_OFFSET + ALLOCATION_TABLE_LENGTH
  then Some (negb (load song index =? 0))
  else None.

Definition lsdj_table_set_envelope (song : lsdj_song_t) (table step value : Z)
  : option lsdj_song_t :=
  TABLE_SETTER ENVELOPES_OFFSET CONTENT_LENGTH song table step value.

Definition lsdj_table_get_envelope (song : lsdj_song_t) (table step : Z) : option Z :=
  TABLE_GETTER ENVELOPES_OFFSET CONTENT_LENGTH song table step.

Definition lsdj_table_set_transposition (song : lsdj_song_t) (table step value : Z)
  : option lsdj_song_t :=
  TABLE_SETTER TRANSPOSITION_OFFSET CONTENT_LENGTH song table step value.

Definition lsdj_table_get_transposition (song : lsdj_song_t) (table step : Z) : option Z :=
  TABLE_GETTER TRANSPOSITION_OFFSET CONTENT_LENGTH song table step.

Definition lsdj_table_set_command1_value (song : lsdj_song_t) (table step value : Z)
  : option lsdj_song_t :=
  TABLE_SETTER COMMAND1_VALUE_OFFSET CONTENT_LENGTH song table step value.

Definition lsdj_table_get_command1_value (song : lsdj_song_t) (table step : Z) : option Z :=
  TABLE_GETTER COMMAND1_VALUE_OFFSET CONTENT_LENGTH song table step.

Definition lsdj_table_set_command2_value (song : lsdj_song_t) (table step value : Z)
  : option lsdj_song_t :=
  TABLE_SETTER COMMAND2_VALUE_OFFSET CONTENT_LENGTH song table step value.

Definition lsdj_table_get_command2_value (song : lsdj_song_t) (table step : Z) : option Z :=
  TABLE_GETTER COMMAND2_VALUE_OFFSET CONTENT_LENGTH song table step.

(** The four plain columns, to speak of their accessors at once. *)
Inductive column : Type := Envelope | Transposition | Command1Value | Command2Value.

Definition column_eqb (c c' : column) : bool :=
  match c, c' with
  | Envelope, Envelope | Transposition, Transposition
  | Command1Value, Command1Value | Command2Value, Command2Value => true
  | _, _ => false
  end.

Definition offset_of (c : column) : Z :=
  match c with
  | Envelope => ENVELOPES_OFFSET
  | Transposition => TRANSPOSITION_OFFSET
  | Command1Value => COMMAND1_VALUE_OFFSET
  | Command2Value => COMMAND2_VALUE_OFFSET
  end.

Definition set_cell (c : column) : lsdj_song_t -> Z -> Z -> Z -> option lsdj_song_t :=
  match c with
  | Envelope => lsdj_table_set_envelope
  | Transposition => lsdj_table_set_transposition
  | Command1Value => lsdj_table_set_command1_value
  | Command2Value => lsdj_table_set_command2_value
  end.

Definition get_cell (c : column) : lsdj_song_t -> Z -> Z -> option Z :=
  match c with
  | Envelope => lsdj_table_get_envelope
  | Transposition => lsdj_table_get_transposition
  | Command1Value => lsdj_table_get_command1_value
  | Command2Value => lsdj_table_get_command2_value
  end.

End Table.

(** ** Undefined behaviour

    A C function that indexes an array outside its bounds has no defined
    result; the embedding says so instead of inventing one. *)

Inductive run (A : Type) : Type :=
| Returned (a : A)
| Undefined.

Arguments Returned {A} a.
Arguments Undefined {A}.

(** ** Memory streams of the callback interface

    [lsdj_memory_data_t] with [lsdj_mread] and [lsdj_mseek] of sav.c; the
    cursor is kept as an offset from [begin].  [lsdj_mread] copies with a
    [memcpy] that checks no bound: in C a read past the end of the data
    has no defined result.  The embedding hands back the bytes there are;
    what is proved of these functions keeps every read inside the data,
    or is about a result that the read has given. *)

Module Mem.

Inductive whence : Type := SEEK_SET | SEEK_CUR | SEEK_END.

Record t : Type := mk { data : list Z; cur : Z }.

(** The bytes from the cursor on. *)
Definition rest (m : t) : list Z := skipn (Z.to_nat (cur m)) (data m).

Definition lsdj_mread (m : t) (count : Z) : list Z * t :=
(firstn (Z.to_nat count) (rest m), mk (data m) (cur m + count)).

Definition lsdj_mseek (offset : Z) (w : whence) (m : t) : t :=
match w with
| SEEK_SET => mk (data m) offset
| SEEK_CUR => mk (data m) (cur m + offset)
| SEEK_END => mk (data m) (Z.of_nat (length (data m)) + offset)
end.

(** Modelled from the spec: tell gives the current position
    ([lsdj_mtell] is not part of the sources). *)
Definition lsdj_mtell (m : t) : Z := cur m.

(** The memory that holds [pre] and then [rest], with the cursor between
    the two. *)
Definition at_ (pre rest : list Z) : t := mk (pre ++ rest) (Z.of_nat (length pre)).

End Mem.

(** ** sav.c *)

Module Sav.

Import Mem.

(** Modelled from the spec: a decompressed song takes 32 KiB and a save
    has 32 project slots (sav.h is not part of the sources). *)
Definition SONG_DECOMPRESSED_SIZE : Z := 0x8000.
Definition SAV_PROJECT_COUNT : Z := 32.

Definition HEADER_START : Z := SONG_DECOMPRESSED_SIZE.
Definition BLOCK_COUNT : Z := 191.
Definition BLOCK_SIZE : Z := 0x200.

(** [header_t]: arrays of [char], so the fields lie back to back. *)
Record header_t : Type := mkHeader {
  project_names : list Z;     (* SAV_PROJECT_COUNT * 8 *)
  versions : list Z;          (* SAV_PROJECT_COUNT * 1 *)
  empty : list Z;             (* 30 *)
  init : list Z;              (* 2 *)
  h_active_project : Z
}.

Definition sizeof_header : Z := SAV_PROJECT_COUNT * 8 + SAV_PROJECT_COUNT * 1 + 30 + 2 + 1.

(** The bytes [from, from + n) of [l]. *)
Definition slice (l : list Z) (from n : Z) : list Z :=
firstn (Z.to_nat n) (skipn (Z.to_nat from) l).

(** The header a [read(&header, sizeof(header), user_data)] fills from the
    bytes it got. *)
Definition header_of_bytes (b : list Z) : header_t :=
mkHeader (slice b 0 (SAV_PROJECT_COUNT * 8))
         (slice b (SAV_PROJECT_COUNT * 8) SAV_PROJECT_COUNT)
         (slice b (SAV_PROJECT_COUNT * 9) 30)
         (slice b (SAV_PROJECT_COUNT * 9 + 30) 2)
         (nth (Z.to_nat (SAV_PROJECT_COUNT * 9 + 32)) b 0).

Section Reading.

(** The parsed song, and the two functions of the library this file
    calls with the signatures it calls them with (their definitions for
    these signatures are not part of the sources). *)
Variable lsdj_song_t : Type.
Variable lsdj_decompress : list Z -> Z -> Z -> list Z.
Variable lsdj_read_song_from_memory : list Z -> Error.slot -> lsdj_song_t * Error.slot.

(** The stream is whatever the callbacks make of [user_data]. *)
Variable U : Type.
Definition lsdj_vio_read_t : Type := U -> Z -> list Z * U.
Definition lsdj_vio_seek_t : Type := Z -> whence -> U -> U.

Record lsdj_project_t : Type := mkProject {
  name : list Z;
  version : Z;
  song : option lsdj_song_t
}.

Record lsdj_sav_t : Type := mkSav {
  projects : list lsdj_project_t;
  active_project : Z;
  working_song : option lsdj_song_t
}.

Definition set_song (p : lsdj_project_t) (s : lsdj_song_t) : lsdj_project_t :=
mkProject (name p) (version p) (Some s).

(** [projects[i] = p] for [i] inside the array. *)
Definition set_project (ps : list lsdj_project_t) (i : nat) (p : lsdj_project_t)
  : list lsdj_project_t :=
firstn i ps ++ p :: skipn (S i) ps.

(** The loop of [read_compressed_blocks], [n] turns from block [i] on. *)
Fixpoint blocks_loop (n : nat) (i : Z) (blocks_alloc_table blocks : list Z)
         (ps : list lsdj_project_t) (error : Error.slot)
  : run (list lsdj_project_t * Error.slot) :=
match n with
| O => Returned (ps, error)
| S n' =>
    let project := nth (Z.to_nat i) blocks_alloc_table 0 in
    match nth_error ps (Z.to_nat project) with
    | None => Undefined
    | Some p =>
        match song p with
        | Some _ => blocks_loop n' (i + 1) blocks_alloc_table blocks ps error
        | None =>
            let data := lsdj_decompress blocks i BLOCK_SIZE in
            let '(s, error') := lsdj_read_song_from_memory data error in
            let ps' := set_project ps (Z.to_nat project) (set_song p s) in
            if Error.given error then Returned (ps', error')
            else blocks_loop n' (i + 1) blocks_alloc_table blocks ps' error'
        end
    end
end.

Definition read_compressed_blocks (read : lsdj_vio_read_t) (seek : lsdj_vio_seek_t)
           (user_data : U) (ps : list lsdj_project_t) (error : Error.slot)
  : run (U * list lsdj_project_t * Error.slot) :=
let '(blocks_alloc_table, u1) := read user_data BLOCK_COUNT in
let '(blocks, u2) := read u1 (BLOCK_COUNT * BLOCK_SIZE) in
match blocks_loop (Z.to_nat BLOCK_COUNT) 0 blocks_alloc_table blocks ps error with
| Returned (ps', error') => Returned (u2, ps', error')
| Undefined => Undefined
end.

(** The loop of [lsdj_read_sav] that stores names and versions. *)
Fixpoint store_names (h : header_t) (i : Z) (ps : list lsdj_project_t)
  : list lsdj_project_t :=
match ps with
| [] => []
| p :: tl =>
    mkProject (slice (project_names h) (i * 8) 8) (nth (Z.to_nat i) (versions h) 0) (song p)
    :: store_names h (i + 1) tl
end.

(** [lsdj_read_sav] once the initialization check has passed. *)
Definition read_projects_and_song (read : lsdj_vio_read_t) (seek : lsdj_vio_seek_t)
           (user_data : U) (h : header_t) (sav : lsdj_sav_t) (error : Error.slot)
  : run (option lsdj_sav_t * Error.slot) :=
let ps := store_names h 0 (projects sav) in
let active := h_active_project h in
match read_compressed_blocks read seek user_data ps error with
| Undefined => Undefined
| Returned (u1, ps', error') =>
    if Error.given error then
      Returned (Some (mkSav ps' active (working_song sav)), error')
    else
      let u2 := seek 0 SEEK_SET u1 in
      let '(song_data, u3) := read u2 SONG_DECOMPRESSED_SIZE in
      let '(s, error'') := lsdj_read_song_from_memory song_data error' in
      Returned (Some (mkSav ps' active (Some s)), error'')
end.

Definition init_ok (h : header_t) : bool :=
(nth 0 (init h) 0 =? 106) && (nth 1 (init h) 0 =? 107).   (* 'j', 'k' *)

Definition lsdj_read_sav (read : option lsdj_vio_read_t) (seek : option lsdj_vio_seek_t)
           (user_data : U) (sav : option lsdj_sav_t) (error : Error.slot)
  : run (option lsdj_sav_t * Error.slot) :=
match read with
| None => Returned (sav, Error.lsdj_create_error error "read is NULL")
| Some rd =>
    match seek with
    | None => Returned (sav, Error.lsdj_create_error error "seek is NULL")
    | Some sk =>
        match sav with
        | None => Returned (sav, Error.lsdj_create_error error "sav is NULL")
        | Some sv =>
            let u1 := sk HEADER_START SEEK_SET user_data in
            let '(bytes, u2) := rd u1 sizeof_header in
            let header := header_of_bytes bytes in
            if negb (init_ok header) then
              Returned (sav, Error.lsdj_create_error
                               error "SRAM initialization check wasn't 'jk'")
            else read_projects_and_song rd sk u2 header sv error
        end
    end
end.

End Reading.

Section FromMemory.

Variable lsdj_song_t : Type.
Variable lsdj_decompress : list Z -> Z -> Z -> list Z.
Variable lsdj_read_song_from_memory : list Z -> Error.slot -> lsdj_song_t * Error.slot.

Definition lsdj_read_sav_from_memory (data : option (list Z))
           (sav : option (lsdj_sav_t lsdj_song_t)) (error : Error.slot)
  : run (option (lsdj_sav_t lsdj_song_t) * Error.slot) :=
match data with
| None => Returned (sav, Error.lsdj_create_error error "data is NULL")
| Some d =>
    lsdj_read_sav lsdj_song_t lsdj_decompress lsdj_read_song_from_memory Mem.t
                  (Some lsdj_mread) (Some lsdj_mseek) (Mem.mk d 0) sav error
end.

End FromMemory.

End Sav.

(** ** song.c *)

Module Song.

Import Mem.

Definition INSTR_ALLOC_TABLE_SIZE : nat := 64.
Definition TABLE_ALLOC_TABLE_SIZE : nat := 32.
Definition CHAIN_ALLOC_TABLE_SIZE : nat := 16.
Definition PHRASE_ALLOC_TABLE_SIZE : nat := 32.

(** Modelled from the spec: the counts and lengths of song.h and of the
    headers of the sub-records, none of which is part of the sources, as
    the data model (section 3) and the bank layout (section 4.5) give
    them: 128 chains, 64 instruments, 32 tables, 16 synths, 42 words;
    chains, phrases and tables of 16 steps; waves of 16 bytes; instrument
    names of 5 bytes; 64 bytes of bookmarks, 32 grooves of 16 bytes, 42
    word names of 4 bytes. *)
Definition CHAIN_COUNT : nat := 128.
Definition INSTRUMENT_COUNT : nat := 64.
Definition TABLE_COUNT : nat := 32.
Definition SYNTH_COUNT : nat := 16.
Definition WORD_COUNT : nat := 42.
Definition CHAIN_LENGTH : Z := 16.
Definition PHRASE_LENGTH : Z := 16.
Definition TABLE_LENGTH : Z := 16.
Definition WAVE_LENGTH : Z := 16.
Definition INSTRUMENT_NAME_LENGTH : Z := 5.
Definition sizeof_bookmarks : Z := 64.
Definition sizeof_grooves : Z := 512.
Definition sizeof_wordNames : Z := 168.

Definition TABLE_LENGTH_ZERO : list Z := repeat 0 16.
Definition CHAIN_LENGTH_ZERO : list Z := repeat 0 16.
Definition CHAIN_LENGTH_FF : list Z := repeat 0xFF 16.
Definition PHRASE_LENGTH_ZERO : list Z := repeat 0 16.
Definition PHRASE_LENGTH_FF : list Z := repeat 0xFF 16.
Definition EMPTY_INSTRUMENT_NAME : list Z := repeat 0 5.

(** Modelled from the spec: the 16-byte default instrument
    ([DEFAULT_INSTRUMENT] is declared outside song.c). *)
Definition DEFAULT_INSTRUMENT : list Z :=
  [0xA8; 0x00; 0x00; 0xFF; 0x00; 0x00; 0x03; 0x00;
   0x00; 0xD0; 0x00; 0x00; 0x00; 0xF3; 0x00; 0x00].

(** The string "rb". *)
Definition rb : list Z := [114; 98].

(** *** The records *)

Record lsdj_command_t : Type := mkCommand { command : Z; value : Z }.

Record lsdj_chain_t : Type := mkChain {
  chain_phrases : list Z;
  chain_transpositions : list Z
}.

Record lsdj_phrase_t : Type := mkPhrase {
  notes : list Z;
  phrase_instruments : list Z;
  commands : list lsdj_command_t
}.

Record lsdj_table_t : Type := mkTable {
  volumes : list Z;
  table_transpositions : list Z;
  commands1 : list lsdj_command_t;
  commands2 : list lsdj_command_t
}.

(** [overwritten] is used as a truth value only. *)
Record lsdj_synth_t : Type := mkSynth {
  waveform : Z; filter : Z; resonance : Z; distortion : Z; phase : Z;
  volumeStart : Z; cutOffStart : Z; phaseStart : Z; vshiftStart : Z;
  volumeEnd : Z; cutOffEnd : Z; phaseEnd : Z; vshiftEnd : Z;
  synth_reserved : list Z;
  overwritten : bool
}.

Record lsdj_wave_t : Type := mkWave { wave_data : list Z }.

Record lsdj_word_t : Type := mkWord { allophones : list Z; lengths : list Z }.

Record meta_t : Type := mkMeta {
  keyDelay : Z; keyRepeat : Z; font : Z; sync : Z; colorSet : Z; clone : Z;
  fileChangedFlag : Z; powerSave : Z; preListen : Z;
  totalTime_days : Z; totalTime_hours : Z; totalTime_minutes : Z;
  workTime_hours : Z; workTime_minutes : Z
}.

Section WithInstruments.

(** The fields of [lsdj_instrument_t] other than the name; instrument.h
    is not part of the sources. *)
Variable instrument_params : Type.

Record lsdj_instrument_t : Type := mkInstrument {
  instrument_name : list Z;
  params : instrument_params
}.

Record lsdj_song_t : Type := mkSong {
  formatVersion : Z;
  tempo : Z;
  transposition : Z;
  rows : list Z;                               (* the bytes of the row array *)
  chains : list (option lsdj_chain_t);
  phrases : list (option lsdj_phrase_t);
  instruments : list (option lsdj_instrument_t);
  synths : list lsdj_synth_t;
  waves : list lsdj_wave_t;
  tables : list (option lsdj_table_t);
  grooves : list Z;                            (* the bytes of the groove array *)
  words : list lsdj_word_t;
  wordNames : list Z;
  bookmarks : list Z;
  meta : meta_t;
  reserved1030 : list Z;
  reserved1fba : list Z;
  reserved2000 : list Z;
  reserved3fbf : Z;
  reserved3fb9 : Z;
  reserved3fc6 : list Z;
  reserved5fe0 : list Z;
  reserved7ff2 : list Z
}.

(** *** Field updates *)

Definition set_notes (p : lsdj_phrase_t) (b : list Z) : lsdj_phrase_t :=
  mkPhrase b (phrase_instruments p) (commands p).
Definition set_phrase_instruments (p : lsdj_phrase_t) (b : list Z) : lsdj_phrase_t :=
  mkPhrase (notes p) b (commands p).
Definition set_chain_phrases (c : lsdj_chain_t) (b : list Z) : lsdj_chain_t :=
  mkChain b (chain_transpositions c).
Definition set_chain_transpositions (c : lsdj_chain_t) (b : list Z) : lsdj_chain_t :=
  mkChain (chain_phrases c) b.

Definition set_volumes (t : lsdj_table_t) (b : list Z) : lsdj_table_t :=
  mkTable b (table_transpositions t) (commands1 t) (commands2 t).
Definition set_table_transpositions (t : lsdj_table_t) (b : list Z) : lsdj_table_t :=
  mkTable (volumes t) b (commands1 t) (commands2 t).
Definition set_instrument_name (i : lsdj_instrument_t) (b : list Z) : lsdj_instrument_t :=
  mkInstrument b (params i).

Definition set_overwritten (s : lsdj_synth_t) (b : bool) : lsdj_synth_t :=
  mkSynth (waveform s) (filter s) (resonance s) (distortion s) (phase s)
          (volumeStart s) (cutOffStart s) (phaseStart s) (vshiftStart s)
          (volumeEnd s) (cutOffEnd s) (phaseEnd s) (vshiftEnd s)
          (synth_reserved s) b.

(** *** Reading *)

(** The counts and sizes that the sources leave to song.h and for which
    the spec's figures do not add up to the offsets hard-coded in
    [lsdj_read_song]: they are parameters, tied to those offsets where a
    property needs it. *)
Variable PHRASE_COUNT : nat.
Variable WAVE_COUNT : nat.
Variable sizeof_rows : Z.        (* sizeof(song->rows) *)
Variable WORD_LENGTH : Z.

(** The stream is what the callbacks of [lsdj_vio_t] make of
    [user_data]. *)
Variable U : Type.

Record lsdj_vio_t : Type := mkVio {
  read : option (U -> Z -> list Z * U);
  tell : option (U -> Z);
  seek : option (Z -> whence -> U -> U);
  user_data : U
}.

(** What [malloc] hands out for the parameters of an instrument, and the
    two functions of instrument.c, which is not part of the sources: the
    reader takes the stream and the instrument to fill, the writer gives
    the bytes it writes. *)
Variable fresh_params : instrument_params.
Variable lsdj_read_instrument :
  U -> Z -> lsdj_instrument_t -> Error.slot -> lsdj_instrument_t * U * Error.slot.
Variable lsdj_write_instrument :
  lsdj_instrument_t -> Z -> Error.slot -> list Z * Error.slot.

Definition zeros (n : Z) : list Z := repeat 0 (Z.to_nat n).

(** The content of a record that was just allocated is indeterminate;
    zeros stand for it.  Every field is read before the song is
    returned. *)
Definition fresh_commands : list lsdj_command_t := repeat (mkCommand 0 0) 16.
Definition fresh_chain : lsdj_chain_t := mkChain (zeros 16) (zeros 16).
Definition fresh_phrase : lsdj_phrase_t := mkPhrase (zeros 16) (zeros 16) fresh_commands.
Definition fresh_table : lsdj_table_t :=
  mkTable (zeros 16) (zeros 16) fresh_commands fresh_commands.
Definition fresh_instrument : lsdj_instrument_t := mkInstrument (zeros 5) fresh_params.

Definition zero_synth : lsdj_synth_t :=
  mkSynth 0 0 0 0 0 0 0 0 0 0 0 0 0 (zeros 3) false.

(** [alloc_song]: [calloc] gives a song of zeros and null pointers. *)
Definition alloc_song : lsdj_song_t :=
  mkSong 0 0 0 (zeros sizeof_rows)
         (repeat None CHAIN_COUNT) (repeat None PHRASE_COUNT) (repeat None INSTRUMENT_COUNT)
         (repeat zero_synth SYNTH_COUNT) (repeat (mkWave (zeros 16)) WAVE_COUNT)
         (repeat None TABLE_COUNT) (zeros sizeof_grooves)
         (repeat (mkWord (zeros WORD_LENGTH) (zeros WORD_LENGTH)) WORD_COUNT)
         (zeros sizeof_wordNames) (zeros sizeof_bookmarks)
         (mkMeta 0 0 0 0 0 0 0 0 0 0 0 0 0 0)
         (zeros 96) (zeros 70) (zeros 32) 0 0 (zeros 58) (zeros 32) (zeros 13).

Section Banks.

Variable rd : U -> Z -> list Z * U.          (* vio->read *)
Variable sk : Z -> whence -> U -> U.         (* vio->seek *)

(** [vio->read(&x, 1, vio->user_data)] *)
Definition read1 (u : U) : Z * U :=
  let '(b, u1) := rd u 1 in (hd 0 b, u1).

(** [for (i ...) if (p[i]) <read p[i]> else vio->seek(len, SEEK_CUR, ...)] *)
Fixpoint read_each_by {E : Type} (rdE : E -> U -> E * U) (len : Z)
         (es : list (option E)) (u : U) : list (option E) * U :=
  match es with
  | [] => ([], u)
  | Some e :: tl =>
      let '(e', u1) := rdE e u in
      let '(tl', u2) := read_each_by rdE len tl u1 in
      (Some e' :: tl', u2)
  | None :: tl =>
      let u1 := sk len SEEK_CUR u in
      let '(tl', u2) := read_each_by rdE len tl u1 in
      (None :: tl', u2)
  end.

(** ... with [vio->read(p[i]->field, len, ...)] for the read. *)
Definition read_each {E : Type} (set : E -> list Z -> E) (len : Z)
           (es : list (option E)) (u : U) : list (option E) * U :=
  read_each_by (fun e u => let '(b, u1) := rd u len in (set e b, u1)) len es u.

(** [for (j ...) vio->read(&c[j].command, 1, ...)] *)
Fixpoint read_codes (cs : list lsdj_command_t) (u : U) : list lsdj_command_t * U :=
  match cs with
  | [] => ([], u)
  | c :: tl =>
      let '(b, u1) := read1 u in
      let '(tl', u2) := read_codes tl u1 in
      (mkCommand b (value c) :: tl', u2)
  end.

(** [for (j ...) vio->read(&c[j].value, 1, ...)] *)
Fixpoint read_values (cs : list lsdj_command_t) (u : U) : list lsdj_command_t * U :=
  match cs with
  | [] => ([], u)
  | c :: tl =>
      let '(b, u1) := read1 u in
      let '(tl', u2) := read_values tl u1 in
      (mkCommand (command c) b :: tl', u2)
  end.

(** [for (i ...) vio->read(a[i].field, len, ...)] *)
Fixpoint read_all {E : Type} (rdE : E -> U -> E * U) (es : list E) (u : U) : list E * U :=
  match es with
  | [] => ([], u)
  | e :: tl =>
      let '(e', u1) := rdE e u in
      let '(tl', u2) := read_all rdE tl u1 in
      (e' :: tl', u2)
  end.

Definition read_word (w : lsdj_word_t) (u : U) : lsdj_word_t * U :=
  let '(a, u1) := rd u WORD_LENGTH in
  let '(l, u2) := rd u1 WORD_LENGTH in
  (mkWord a l, u2).

Definition read_wave (w : lsdj_wave_t) (u : U) : lsdj_wave_t * U :=
  let '(d, u1) := rd u WAVE_LENGTH in (mkWave d, u1).

Definition read_bank0 (song : lsdj_song_t) (u : U) : lsdj_song_t * U :=
  let '(phrases', u) := read_each set_notes PHRASE_LENGTH (phrases song) u in
  let '(bookmarks', u) := rd u sizeof_bookmarks in
  let '(reserved1030', u) := rd u 96 in
  let '(grooves', u) := rd u sizeof_grooves in
  let '(rows', u) := rd u sizeof_rows in
  let '(tables', u) := read_each set_volumes TABLE_LENGTH (tables song) u in
  let '(words', u) := read_all read_word (words song) u in
  let '(wordNames', u) := rd u sizeof_wordNames in
  let u := sk 2 SEEK_CUR u in
  let '(instruments', u) :=
    read_each set_instrument_name INSTRUMENT_NAME_LENGTH (instruments song) u in
  let '(reserved1fba', u) := rd u 70 in
  (mkSong (formatVersion song) (tempo song) (transposition song) rows' (chains song)
          phrases' instruments' (synths song) (waves song) tables' grooves' words'
          wordNames' bookmarks' (meta song) reserved1030' reserved1fba'
          (reserved2000 song) (reserved3fbf song) (reserved3fb9 song)
          (reserved3fc6 song) (reserved5fe0 song) (reserved7ff2 song), u).

Definition read_soft_synth_parameters (synth : lsdj_synth_t) (u : U) : lsdj_synth_t * U :=
  let '(waveform', u) := read1 u in
  let '(filter', u) := read1 u in
  let '(resonance', u) := read1 u in
  let '(distortion', u) := read1 u in
  let '(phase', u) := read1 u in
  let '(volumeStart', u) := read1 u in
  let '(cutOffStart', u) := read1 u in
  let '(phaseStart', u) := read1 u in
  let '(vshiftStart', u) := read1 u in
  let '(volumeEnd', u) := read1 u in
  let '(cutOffEnd', u) := read1 u in
  let '(phaseEnd', u) := read1 u in
  let '(vshiftEnd', u) := read1 u in
  let '(reserved', u) := rd u 3 in
  (mkSynth waveform' filter' resonance' distortion' phase' volumeStart' cutOffStart'
           phaseStart' vshiftStart' volumeEnd' cutOffEnd' phaseEnd' vshiftEnd'
           reserved' (overwritten synth), u).

(** The loop over the instruments in [read_bank1]; the flag tells that
    it returned on an error. *)
Fixpoint read_instruments (version : Z) (ins : list (option lsdj_instrument_t)) (u : U)
         (error : Error.slot)
  : list (option lsdj_instrument_t) * U * Error.slot * bool :=
  match ins with
  | [] => ([], u, error, false)
  | o :: tl =>
      let '(o', u1, e1) :=
        match o with
        | Some i =>
            let '(i', u', e') := lsdj_read_instrument u version i error in (Some i', u', e')
        | None => (None, sk 16 SEEK_CUR u, error)
        end in
      if Error.raised e1 then (o' :: tl, u1, e1, true)
      else
        let '(tl', u2, e2, r) := read_instruments version tl u1 e1 in
        (o' :: tl', u2, e2, r)
  end.

(** [(waveSynthOverwriteLocks[1 - (i / 8)] >> (i % 8)) & 1] *)
Definition lock_bit (locks : list Z) (i : nat) : bool :=
  negb (Z.land (Z.shiftr (nth (1 - i / 8) locks 0) (Z.of_nat (i mod 8))) 1 =? 0).

Fixpoint read_locks (locks : list Z) (i : nat) (ss : list lsdj_synth_t) : list lsdj_synth_t :=
  match ss with
  | [] => []
  | s :: tl => set_overwritten s (lock_bit locks i) :: read_locks locks (S i) tl
  end.

Definition read_bank1 (song : lsdj_song_t) (u : U) (error : Error.slot)
  : lsdj_song_t * U * Error.slot :=
  let '(reserved2000', u) := rd u 32 in
  let u := sk (Z.of_nat TABLE_ALLOC_TABLE_SIZE + Z.of_nat INSTR_ALLOC_TABLE_SIZE) SEEK_CUR u in
  let '(chains', u) := read_each set_chain_phrases CHAIN_LENGTH (chains song) u in
  let '(chains', u) := read_each set_chain_transpositions CHAIN_LENGTH chains' u in
  let '(instruments', u, error, returned) :=
    read_instruments (formatVersion song) (instruments song) u error in
  let song1 :=
    mkSong (formatVersion song) (tempo song) (transposition song) (rows song) chains'
           (phrases song) instruments' (synths song) (waves song) (tables song)
           (grooves song) (words song) (wordNames song) (bookmarks song) (meta song)
           (reserved1030 song) (reserved1fba song) reserved2000' (reserved3fbf song)
           (reserved3fb9 song) (reserved3fc6 song) (reserved5fe0 song)
           (reserved7ff2 song) in
  if returned then (song1, u, error)
  else
    let '(tables', u) := read_each set_table_transpositions TABLE_LENGTH (tables song) u in
    let '(tables', u) :=
      read_each_by (fun t u => let '(c, u1) := read_codes (commands1 t) u in
                               (mkTable (volumes t) (table_transpositions t) c (commands2 t),
                                u1)) TABLE_LENGTH tables' u in
    let '(tables', u) :=
      read_each_by (fun t u => let '(c, u1) := read_values (commands1 t) u in
                               (mkTable (volumes t) (table_transpositions t) c (commands2 t),
                                u1)) TABLE_LENGTH tables' u in
    let '(tables', u) :=
      read_each_by (fun t u => let '(c, u1) := read_codes (commands2 t) u in
                               (mkTable (volumes t) (table_transpositions t) (commands1 t) c,
                                u1)) TABLE_LENGTH tables' u in
    let '(tables', u) :=
      read_each_by (fun t u => let '(c, u1) := read_values (commands2 t) u in
                               (mkTable (volumes t) (table_transpositions t) (commands1 t) c,
                                u1)) TABLE_LENGTH tables' u in
    let u := sk 2 SEEK_CUR u in
    let u := sk (Z.of_nat PHRASE_ALLOC_TABLE_SIZE + Z.of_nat CHAIN_ALLOC_TABLE_SIZE)
                SEEK_CUR u in
    let '(synths', u) := read_all read_soft_synth_parameters (synths song) u in
    let '(workTime', u) := rd u 2 in
    let '(tempo', u) := read1 u in
    let '(transposition', u) := read1 u in
    let '(totalTime', u) := rd u 3 in
    let '(reserved3fb9', u) := read1 u in
    let '(keyDelay', u) := read1 u in
    let '(keyRepeat', u) := read1 u in
    let '(font', u) := read1 u in
    let '(sync', u) := read1 u in
    let '(colorSet', u) := read1 u in
    let '(reserved3fbf', u) := read1 u in
    let '(clone', u) := read1 u in
    let '(fileChangedFlag', u) := read1 u in
    let '(powerSave', u) := read1 u in
    let '(preListen', u) := read1 u in
    let '(waveSynthOverwriteLocks, u) := rd u 2 in
    let synths' := read_locks waveSynthOverwriteLocks 0 synths' in
    let '(reserved3fc6', u) := rd u 58 in
    (mkSong (formatVersion song) tempo' transposition' (rows song) chains'
            (phrases song) instruments' synths' (waves song) tables'
            (grooves song) (words song) (wordNames song) (bookmarks song)
            (mkMeta keyDelay' keyRepeat' font' sync' colorSet' clone' fileChangedFlag'
                    powerSave' preListen'
                    (nth 0 totalTime' 0) (nth 1 totalTime' 0) (nth 2 totalTime' 0)
                    (nth 0 workTime' 0) (nth 1 workTime' 0))
            (reserved1030 song) (reserved1fba song) reserved2000' reserved3fbf'
            reserved3fb9' reserved3fc6' (reserved5fe0 song) (reserved7ff2 song),
     u, error).

Definition read_bank2 (song : lsdj_song_t) (u : U) : lsdj_song_t * U :=
  let '(phrases', u) :=
    read_each_by (fun p u => let '(c, u1) := read_codes (commands p) u in
                             (mkPhrase (notes p) (phrase_instruments p) c, u1))
                 PHRASE_LENGTH (phrases song) u in
  let '(phrases', u) :=
    read_each_by (fun p u => let '(c, u1) := read_values (commands p) u in
                             (mkPhrase (notes p) (phrase_instruments p) c, u1))
                 PHRASE_LENGTH phrases' u in
  let '(reserved5fe0', u) := rd u 32 in
  (mkSong (formatVersion song) (tempo song) (transposition song) (rows song) (chains song)
          phrases' (instruments song) (synths song) (waves song) (tables song)
          (grooves song) (words song) (wordNames song) (bookmarks song) (meta song)
          (reserved1030 song) (reserved1fba song) (reserved2000 song) (reserved3fbf song)
          (reserved3fb9 song) (reserved3fc6 song) reserved5fe0' (reserved7ff2 song), u).

Definition read_bank3 (song : lsdj_song_t) (u : U) : lsdj_song_t * U :=
  let '(waves', u) := read_all read_wave (waves song) u in
  let '(phrases', u) :=
    read_each set_phrase_instruments PHRASE_LENGTH (phrases song) u in
  let u := sk 2 SEEK_CUR u in
  let '(reserved7ff2', u) := rd u 13 in
  let u := sk 1 SEEK_CUR u in
  (mkSong (formatVersion song) (tempo song) (transposition song) (rows song) (chains song)
          phrases' (instruments song) (synths song) waves' (tables song)
          (grooves song) (words song) (wordNames song) (bookmarks song) (meta song)
          (reserved1030 song) (reserved1fba song) (reserved2000 song) (reserved3fbf song)
          (reserved3fb9 song) (reserved3fc6 song) (reserved5fe0 song) reserved7ff2', u).

(** [check_rb]: true stands for the result 0. *)
Definition check_rb (u : U) (position : Z) : bool * U :=
  let u := sk position SEEK_SET u in
  let '(data, u) := rd u 2 in
  ((nth 0 data 0 =? 114) && (nth 1 data 0 =? 98), u).

(** The loops that allocate what the allocation tables mark as present. *)
Definition alloc_by_bytes {E : Type} (fresh : E) (table : list Z) (count : nat)
  : list (option E) :=
  map (fun i => if nth i table 0 =? 0 then None else Some fresh) (seq 0 count).

Definition alloc_bit (table : list Z) (i : nat) : bool :=
  negb (Z.land (Z.shiftr (nth (i / 8) table 0) (Z.of_nat (i mod 8))) 1 =? 0).

Definition alloc_by_bits {E : Type} (fresh : E) (table : list Z) (count : nat)
  : list (option E) :=
  map (fun i => if alloc_bit table i then Some fresh else None) (seq 0 count).

(** [lsdj_read_song] from "We passed the 'rb' check" on. *)
Definition parse_song (begin : Z) (u : U) (error : Error.slot)
  : option lsdj_song_t * Error.slot :=
  let song := alloc_song in
  if Error.raised error then (None, error)
  else
  let u := sk (begin + 0x7FFF) SEEK_SET u in
  let '(formatVersion', u) := read1 u in
  let u := sk (begin + 0x2020) SEEK_SET u in
  let '(tableAllocTable, u) := rd u (Z.of_nat TABLE_ALLOC_TABLE_SIZE) in
  let '(instrAllocTable, u) := rd u (Z.of_nat INSTR_ALLOC_TABLE_SIZE) in
  let u := sk (begin + 0x3E82) SEEK_SET u in
  let '(phraseAllocTable, u) := rd u (Z.of_nat PHRASE_ALLOC_TABLE_SIZE) in
  let '(chainAllocTable, u) := rd u (Z.of_nat CHAIN_ALLOC_TABLE_SIZE) in
  let song :=
    mkSong formatVersion' (tempo song) (transposition song) (rows song)
           (alloc_by_bits fresh_chain chainAllocTable CHAIN_COUNT)
           (alloc_by_bits fresh_phrase phraseAllocTable PHRASE_COUNT)
           (alloc_by_bytes fresh_instrument instrAllocTable INSTRUMENT_COUNT)
           (synths song) (waves song)
           (alloc_by_bytes fresh_table tableAllocTable TABLE_ALLOC_TABLE_SIZE)
           (grooves song) (words song) (wordNames song) (bookmarks song) (meta song)
           (reserved1030 song) (reserved1fba song) (reserved2000 song)
           (reserved3fbf song) (reserved3fb9 song) (reserved3fc6 song)
           (reserved5fe0 song) (reserved7ff2 song) in
  let u := sk begin SEEK_SET u in
  let '(song, u) := read_bank0 song u in
  let '(song, u, error) := read_bank1 song u error in
  if Error.raised error then (None, error)
  else
  let '(song, u) := read_bank2 song u in
  let '(song, u) := read_bank3 song u in
  (Some song, error).

(** [lsdj_read_song] once the stream is known to have its callbacks. *)
Definition read_song_with (tl : U -> Z) (u : U) (error : Error.slot)
  : option lsdj_song_t * Error.slot :=
  let begin := tl u in
  let '(ok, u) := check_rb u (begin + 0x1E78) in
  if negb ok then
    (None, Error.lsdj_create_error error "memory flag 'rb' not found at 0x1E78")
  else
  let '(ok, u) := check_rb u (begin + 0x3E80) in
  if negb ok then
    (None, Error.lsdj_create_error error "memory flag 'rb' not found at 0x3E80")
  else
  let '(ok, u) := check_rb u (begin + 0x7FF0) in
  if negb ok then
    (None, Error.lsdj_create_error error "memory flag 'rb' not found at 0x7FF0")
  else parse_song begin u error.

End Banks.

Definition lsdj_read_song (vio : lsdj_vio_t) (error : Error.slot)
  : option lsdj_song_t * Error.slot :=
  match read vio with
  | None => (None, Error.lsdj_create_error error "read is NULL")
  | Some rd =>
      match tell vio with
      | None => (None, Error.lsdj_create_error error "tell is NULL")
      | Some tl =>
          match seek vio with
          | None => (None, Error.lsdj_create_error error "seek is NULL")
          | Some sk => read_song_with rd sk tl (user_data vio) error
          end
      end
  end.

(** *** Writing

    The writer only ever calls [vio->write], one call after the other:
    what it does to the stream is the sequence of bytes it hands over. *)

(** [for (i ...) if (p[i]) vio->write(p[i]->field, len, ...) else
    vio->write(FILL, len, ...)] *)
Definition write_each {E : Type} (get : E -> list Z) (fill : list Z)
           (es : list (option E)) : list Z :=
  concat (map (fun o => match o with Some e => get e | None => fill end) es).

Definition codes (cs : list lsdj_command_t) : list Z := map command cs.
Definition values (cs : list lsdj_command_t) : list Z := map value cs.

Definition write_word (w : lsdj_word_t) : list Z := allophones w ++ lengths w.

Definition write_bank0 (song : lsdj_song_t) : list Z :=
  write_each notes PHRASE_LENGTH_ZERO (phrases song)
  ++ bookmarks song
  ++ reserved1030 song
  ++ grooves song
  ++ rows song
  ++ write_each volumes TABLE_LENGTH_ZERO (tables song)
  ++ concat (map write_word (words song))
  ++ wordNames song
  ++ rb
  ++ write_each instrument_name EMPTY_INSTRUMENT_NAME (instruments song)
  ++ reserved1fba song.

Definition write_soft_synth_parameters (synth : lsdj_synth_t) : list Z :=
  [waveform synth; filter synth; resonance synth; distortion synth; phase synth;
   volumeStart synth; cutOffStart synth; phaseStart synth; vshiftStart synth;
   volumeEnd synth; cutOffEnd synth; phaseEnd synth; vshiftEnd synth]
  ++ synth_reserved synth.

Definition present {E : Type} (o : option E) : bool :=
  match o with
  | Some _ => true
  | None => false
  end.

(** [memset(table, 0, size); for (i ...) table[i] = (p[i] == NULL) ? 0 : 1] *)
Definition alloc_bytes {E : Type} (size : nat) (es : list (option E)) : list Z :=
  firstn size (map (fun o => if present o then 1 else 0) es ++ repeat 0 size).

(** [table[byte] |= (1 << bit)] *)
Definition set_bit (table : list Z) (byte bit : nat) : list Z :=
  if (byte <? length table)%nat then
    firstn byte table
    ++ Z.lor (nth byte table 0) (Z.shiftl 1 (Z.of_nat bit)) :: skipn (S byte) table
  else table.

(** [for (i ...) if (flag[i]) table[byte_of i] |= (1 << (i % 8))], from
    index [i] on. *)
Fixpoint pack_bits (byte_of : nat -> nat) (i : nat) (flags : list bool) (table : list Z)
  : list Z :=
  match flags with
  | [] => table
  | f :: tl =>
      pack_bits byte_of (S i) tl (if f then set_bit table (byte_of i) (i mod 8) else table)
  end.

Definition alloc_bits {E : Type} (size : nat) (es : list (option E)) : list Z :=
  pack_bits (fun i => i / 8)%nat 0 (map present es) (repeat 0 size).

(** The loop over the instruments in [write_bank1]; the flag tells that
    it returned on an error. *)
Fixpoint write_instruments (version : Z) (ins : list (option lsdj_instrument_t))
         (error : Error.slot) : list Z * Error.slot * bool :=
  match ins with
  | [] => ([], error, false)
  | o :: tl =>
      let '(b, e1) :=
        match o with
        | Some i => lsdj_write_instrument i version error
        | None => (DEFAULT_INSTRUMENT, error)
        end in
      if Error.raised e1 then (b, e1, true)
      else
        let '(bs, e2, r) := write_instruments version tl e1 in
        (b ++ bs, e2, r)
  end.

Definition write_bank1 (song : lsdj_song_t) (error : Error.slot) : list Z * Error.slot :=
  let instrAllocTable := alloc_bytes INSTR_ALLOC_TABLE_SIZE (instruments song) in
  let tableAllocTable := alloc_bytes TABLE_ALLOC_TABLE_SIZE (tables song) in
  let chainAllocTable := alloc_bits CHAIN_ALLOC_TABLE_SIZE (chains song) in
  let phraseAllocTable := alloc_bits PHRASE_ALLOC_TABLE_SIZE (phrases song) in
  let '(payloads, error, returned) :=
    write_instruments (formatVersion song) (instruments song) error in
  let head :=
    reserved2000 song
    ++ tableAllocTable
    ++ instrAllocTable
    ++ write_each chain_phrases CHAIN_LENGTH_FF (chains song)
    ++ write_each chain_transpositions CHAIN_LENGTH_ZERO (chains song)
    ++ payloads in
  if returned then (head, error)
  else
    let waveSynthOverwriteLocks :=
      pack_bits (fun i => 1 - i / 8)%nat 0 (map overwritten (synths song)) (repeat 0 2) in
    (head
     ++ write_each table_transpositions TABLE_LENGTH_ZERO (tables song)
     ++ write_each (fun t => codes (commands1 t)) TABLE_LENGTH_ZERO (tables song)
     ++ write_each (fun t => values (commands1 t)) TABLE_LENGTH_ZERO (tables song)
     ++ write_each (fun t => codes (commands2 t)) TABLE_LENGTH_ZERO (tables song)
     ++ write_each (fun t => values (commands2 t)) TABLE_LENGTH_ZERO (tables song)
     ++ rb
     ++ phraseAllocTable
     ++ chainAllocTable
     ++ concat (map write_soft_synth_parameters (synths song))
     ++ [workTime_hours (meta song); workTime_minutes (meta song)]
     ++ [tempo song]
     ++ [transposition song]
     ++ [totalTime_days (meta song); totalTime_hours (meta song);
         totalTime_minutes (meta song)]
     ++ [reserved3fb9 song]
     ++ [keyDelay (meta song)]
     ++ [keyRepeat (meta song)]
     ++ [font (meta song)]
     ++ [sync (meta song)]
     ++ [colorSet (meta song)]
     ++ [reserved3fbf song]
     ++ [clone (meta song)]
     ++ [fileChangedFlag (meta song)]
     ++ [powerSave (meta song)]
     ++ [preListen (meta song)]
     ++ waveSynthOverwriteLocks
     ++ reserved3fc6 song,
     error).

Definition write_bank2 (song : lsdj_song_t) : list Z :=
  write_each (fun p => codes (commands p)) PHRASE_LENGTH_ZERO (phrases song)
  ++ write_each (fun p => values (commands p)) PHRASE_LENGTH_ZERO (phrases song)
  ++ reserved5fe0 song.

Definition write_bank3 (song : lsdj_song_t) : list Z :=
  concat (map wave_data (waves song))
  ++ write_each phrase_instruments PHRASE_LENGTH_FF (phrases song)
  ++ rb
  ++ reserved7ff2 song
  ++ [formatVersion song].

Definition lsdj_write_song (song : lsdj_song_t) (error : Error.slot)
  : list Z * Error.slot :=
  let '(bank1, error') := write_bank1 song error in
  (write_bank0 song ++ bank1 ++ write_bank2 song ++ write_bank3 song, error').

(** *** Well-formed songs

    The arrays of the C structures have their declared lengths. *)

Definition each {E : Type} (ok : E -> Prop) (o : option E) : Prop :=
  match o with
  | Some e => ok e
  | None => True
  end.

Definition chain_ok (c : lsdj_chain_t) : Prop :=
  Z.of_nat (length (chain_phrases c)) = CHAIN_LENGTH
  /\ Z.of_nat (length (chain_transpositions c)) = CHAIN_LENGTH.

Definition phrase_ok (p : lsdj_phrase_t) : Prop :=
  Z.of_nat (length (notes p)) = PHRASE_LENGTH
  /\ Z.of_nat (length (phrase_instruments p)) = PHRASE_LENGTH
  /\ length (commands p) = 16%nat.

Definition table_ok (t : lsdj_table_t) : Prop :=
  Z.of_nat (length (volumes t)) = TABLE_LENGTH
  /\ Z.of_nat (length (table_transpositions t)) = TABLE_LENGTH
  /\ length (commands1 t) = 16%nat
  /\ length (commands2 t) = 16%nat.

Definition instrument_ok (i : lsdj_instrument_t) : Prop :=
  Z.of_nat (length (instrument_name i)) = INSTRUMENT_NAME_LENGTH.

Definition synth_ok (s : lsdj_synth_t) : Prop :=
  Z.of_nat (length (synth_reserved s)) = 3.

Definition wave_ok (w : lsdj_wave_t) : Prop :=
  Z.of_nat (length (wave_data w)) = WAVE_LENGTH.

Definition word_ok (w : lsdj_word_t) : Prop :=
  Z.of_nat (length (allophones w)) = WORD_LENGTH
  /\ Z.of_nat (length (lengths w)) = WORD_LENGTH.

Record song_ok (song : lsdj_song_t) : Prop := mkSongOk {
  ok_rows : Z.of_nat (length (rows song)) = sizeof_rows;
  ok_chain_count : length (chains song) = CHAIN_COUNT;
  ok_chains : Forall (each chain_ok) (chains song);
  ok_phrase_count : length (phrases song) = PHRASE_COUNT;
  ok_phrases : Forall (each phrase_ok) (phrases song);
  ok_instrument_count : length (instruments song) = INSTRUMENT_COUNT;
  ok_instruments : Forall (each instrument_ok) (instruments song);
  ok_synth_count : length (synths song) = SYNTH_COUNT;
  ok_synths : Forall synth_ok (synths song);
  ok_wave_count : length (waves song) = WAVE_COUNT;
  ok_waves : Forall wave_ok (waves song);
  ok_table_count : length (tables song) = TABLE_COUNT;
  ok_tables : Forall (each table_ok) (tables song);
  ok_grooves : Z.of_nat (length (grooves song)) = sizeof_grooves;
  ok_word_count : length (words song) = WORD_COUNT;
  ok_words : Forall word_ok (words song);
  ok_wordNames : Z.of_nat (length (wordNames song)) = sizeof_wordNames;
  ok_bookmarks : Z.of_nat (length (bookmarks song)) = sizeof_bookmarks;
  ok_reserved1030 : Z.of_nat (length (reserved1030 song)) = 96;
  ok_reserved1fba : Z.of_nat (length (reserved1fba song)) = 70;
  ok_reserved2000 : Z.of_nat (length (reserved2000 song)) = 32;
  ok_reserved3fc6 : Z.of_nat (length (reserved3fc6 song)) = 58;
  ok_reserved5fe0 : Z.of_nat (length (reserved5fe0 song)) = 32;
  ok_reserved7ff2 : Z.of_nat (length (reserved7ff2 song)) = 13
}.

End WithInstruments.

(** The two bytes of [data] at [position] are 'r' and 'b'. *)
Definition rb_at (data : list Z) (position : Z) : bool :=
  (nth (Z.to_nat position) data 0 =? 114) && (nth (Z.to_nat (position + 1)) data 0 =? 98).

(** The [n] bytes of [data] from [position] on. *)
Definition bytes_at (data : list Z) (position : Z) (n : nat) : list Z :=
  firstn n (skipn (Z.to_nat position) data).

(** The bit [bit] of the byte [byte] of a table. *)
Definition get_bit (table : list Z) (byte bit : nat) : bool :=
  Z.testbit (nth byte table 0) (Z.of_nat bit).

(** The chunk [c] lies in [img] at [pos]. *)
Definition found_at (img : list Z) (pos : Z) (c : list Z) : Prop :=
  exists pre r, img = pre ++ c ++ r /\ Z.of_nat (length pre) = pos.

(** A record whose commands have the codes of [o] and the values that
    [g o] had. *)
Definition with_codes {E : Type} (get : E -> list lsdj_command_t)
           (put : E -> list lsdj_command_t -> E) (g : E -> E) (o : E) : E :=
  put (g o) (map (fun p => mkCommand (command (snd p)) (value (fst p)))
                 (combine (get (g o)) (get o))).

(** Which chains, phrases, instruments and tables a song has, and its
    format version. *)
Definition allocation {instrument_params : Type} (song : lsdj_song_t instrument_params)
  : Z * list bool * list bool * list bool * list bool :=
  (formatVersion instrument_params song,
   map present (chains instrument_params song),
   map present (phrases instrument_params song),
   map present (instruments instrument_params song),
   map present (tables instrument_params song)).

(** [lsdj_read_song_from_memory]: the stream is the memory itself. *)
Definition lsdj_read_song_from_memory
           (instrument_params : Type) (PHRASE_COUNT WAVE_COUNT : nat)
           (sizeof_rows WORD_LENGTH : Z) (fresh_params : instrument_params)
           (lsdj_read_instrument :
              Mem.t -> Z -> lsdj_instrument_t instrument_params -> Error.slot ->
              lsdj_instrument_t instrument_params * Mem.t * Error.slot)
           (data : option (list Z)) (error : Error.slot)
  : option (lsdj_song_t instrument_params) * Error.slot :=
  match data with
  | None => (None, Error.lsdj_create_error error "data is NULL")
  | Some d =>
      lsdj_read_song instrument_params PHRASE_COUNT WAVE_COUNT sizeof_rows WORD_LENGTH
                     Mem.t fresh_params lsdj_read_instrument
                     (mkVio Mem.t (Some lsdj_mread) (Some lsdj_mtell) (Some lsdj_mseek)
                            (Mem.mk d 0))
                     error
  end.

End Song.

(** * Examples

    The inputs on which the properties below are shown at work. *)

Module Examples.

Import Compression.

(** A song that needs two blocks: two hundred bytes that do not compress,
    then zeros. *)
Definition two_block_song : list Z :=
  concat (repeat [1; 2] 100) ++ repeat 0 (Z.to_nat 32568).

Definition two_block_result : compress_result :=
  Eval vm_compute in
    lsdj_compress two_block_song (Vio.mk (repeat 0 (Z.to_nat 2048)) 512) 2 0.

Definition two_block_stream : Vio.t :=
  match two_block_result with
  | Compressed w _ => w
  | _ => Vio.mk [] 0
  end.

(** A block that holds a run, then a jump to block 3; an empty output. *)
Definition run_then_jump : dstate :=
  mkD (Vio.mk ([0xC0; 7; 4; 0xE0; 3] ++ zeros 1531) 0) 0 (Vio.mk (zeros 8) 0) 0.

(** A stream that ends at once: nothing is written. *)
Definition empty_stream : dstate :=
  mkD (Vio.mk ([0xE0; 0xFF] ++ zeros 510) 0) 0 (Vio.mk (zeros 8) 0) 0.

(** The same stream three bytes into a block. *)
Definition off_boundary_stream : dstate :=
  mkD (Vio.mk ([0; 0; 0; 0xE0; 0xFF] ++ zeros 510) 3) 0 (Vio.mk (zeros 8) 0) 0.

(** A buffer of zeros closed by the default wave. *)
Definition wave_at_end : list Z :=
  repeat 0 (Z.to_nat 32752) ++ LSDJ_DEFAULT_WAVE.

(** What the compressor wrote from offset [from] on, [n] bytes of it. *)
Definition written_at (r : compress_result) (from n : nat) : option (list Z) :=
  match r with
  | Compressed w _ => Some (firstn n (skipn from (Vio.buf w)))
  | _ => None
  end.

(** A save with nothing in it but zeros: the marker is missing. *)
Definition zero_save : list Z := repeat 0 (Z.to_nat 131072).

(** Thirty-two empty project slots; songs are represented by the index of
    the block they were decompressed from. *)
Definition empty_projects : list (Sav.lsdj_project_t Z) :=
  repeat (Sav.mkProject Z [] 0 None) 32.

Definition song_of_block (blocks : list Z) (i size : Z) : list Z := [i].

Definition song_from (data : list Z) (error : Error.slot) : Z * Error.slot :=
  (hd 0 data, error).

(** The songs the first [n] projects hold once the scan has returned. *)
Definition songs_after (r : run (Mem.t * list (Sav.lsdj_project_t Z) * Error.slot))
           (n : nat) : option (list (option Z)) :=
  match r with
  | Returned (_, ps, _) => Some (map (Sav.song Z) (firstn n ps))
  | Undefined => None
  end.

(** A song with one chain, one phrase and one instrument, all at index
    0, and no table; the instrument is its type byte and fifteen zeros. *)
Definition demo_write_instrument (i : Song.lsdj_instrument_t Z) (v : Z) (e : Error.slot)
  : list Z * Error.slot :=
  (Song.params Z i :: repeat 0 15, e).

Definition demo_read_instrument (m : Mem.t) (v : Z) (i : Song.lsdj_instrument_t Z)
           (e : Error.slot) : Song.lsdj_instrument_t Z * Mem.t * Error.slot :=
  let '(b, m') := Mem.lsdj_mread m 16 in
  (Song.mkInstrument Z (Song.instrument_name Z i) (hd 0 b), m', e).

Definition demo_song : Song.lsdj_song_t Z :=
  Song.mkSong Z 4 128 0 (Song.zeros 1024)
    (Some (Song.mkChain (repeat 1 16) (repeat 0 16)) :: repeat None 127)
    (Some (Song.mkPhrase (repeat 60 16) (repeat 0 16) (repeat (Song.mkCommand 0 0) 16))
          :: repeat None 254)
    (Some (Song.mkInstrument Z [76; 69; 65; 68; 0] 1) :: repeat None 63)
    (repeat Song.zero_synth 16) (repeat (Song.mkWave (repeat 0x8E 16)) 256)
    (repeat None 32) (Song.zeros 512)
    (repeat (Song.mkWord (Song.zeros 16) (Song.zeros 16)) 42)
    (Song.zeros 168) (Song.zeros 64)
    (Song.mkMeta 7 2 0 0 0 0 0 0 0 0 1 30 1 30)
    (Song.zeros 96) (Song.zeros 70) (Song.zeros 32) 0 0 (Song.zeros 58) (Song.zeros 32)
    (Song.zeros 13).

(** A song that does not compress, sent to the last block. *)
Definition incompressible_song : list Z := concat (repeat [1; 2] (Z.to_nat 16384)).

Definition rolled_back_result : compress_result :=
  Eval vm_compute in
    lsdj_compress incompressible_song (Vio.mk (repeat 7 1024) 256) 191 0.

Definition rolled_back_stream : Vio.t :=
  match rolled_back_result with
  | RolledBack w _ => w
  | _ => Vio.mk [] 0
  end.

(** A block that begins with a jump to itself. *)
Definition self_jump : dstate :=
  mkD (Vio.mk ([0xE0; 1] ++ zeros 510) 0) 0 (Vio.mk (zeros 8) 0) 0.

(** A save with the marker in place, 5 for the active project, and every
    block owned by project 0; thirty-two projects that hold a song
    already. *)
Definition labelled_save : list Z :=
  repeat 0 (Z.to_nat 0x8000) ++ [76; 83; 68; 74] ++ repeat 0 314 ++ [106; 107; 5]
  ++ repeat 0 (Z.to_nat (191 + 191 * 512)).

Definition full_projects : list (Sav.lsdj_project_t unit) :=
  repeat (Sav.mkProject unit [] 9 (Some tt)) 32.

(** The same projects with the names and versions of [labelled_save]. *)
Definition labelled_projects : list (Sav.lsdj_project_t unit) :=
  Sav.mkProject unit [76; 83; 68; 74; 0; 0; 0; 0] 0 (Some tt)
  :: repeat (Sav.mkProject unit (repeat 0 8) 0 (Some tt)) 31.

(** Thirty-two projects without a song, and what reading [labelled_save]
    into them with an error slot leaves: the labels of the header, and a
    song in project 0 alone. *)
Definition vacant_projects : list (Sav.lsdj_project_t unit) :=
  repeat (Sav.mkProject unit [] 9 None) 32.

Definition first_project_read : list (Sav.lsdj_project_t unit) :=
  Sav.mkProject unit [76; 83; 68; 74; 0; 0; 0; 0] 0 (Some tt)
  :: repeat (Sav.mkProject unit (repeat 0 8) 0 None) 31.

(** [demo_song] with a table at index 2. *)
Definition demo_table : Song.lsdj_table_t :=
  Song.mkTable (repeat 9 16) (repeat 3 16)
               (repeat (Song.mkCommand 5 7) 16) (repeat (Song.mkCommand 6 8) 16).

Definition table_song : Song.lsdj_song_t Z :=
  Song.mkSong Z 4 128 0 (Song.zeros 1024)
    (Some (Song.mkChain (repeat 1 16) (repeat 0 16)) :: repeat None 127)
    (Some (Song.mkPhrase (repeat 60 16) (repeat 0 16) (repeat (Song.mkCommand 0 0) 16))
          :: repeat None 254)
    (Some (Song.mkInstrument Z [76; 69; 65; 68; 0] 1) :: repeat None 63)
    (repeat Song.zero_synth 16) (repeat (Song.mkWave (repeat 0x8E 16)) 256)
    (None :: None :: Some demo_table :: repeat None 29) (Song.zeros 512)
    (repeat (Song.mkWord (Song.zeros 16) (Song.zeros 16)) 42)
    (Song.zeros 168) (Song.zeros 64)
    (Song.mkMeta 7 2 0 0 0 0 0 0 0 0 1 30 1 30)
    (Song.zeros 96) (Song.zeros 70) (Song.zeros 32) 0 0 (Song.zeros 58) (Song.zeros 32)
    (Song.zeros 13).

End Examples.

(** * Properties *)

(** ** Streams *)

Module VioFacts.

Import Vio.

Lemma write_inv (l : list Z) (v v' : t) :
  write v l = Some v' ->
  pos v' = pos v + Z.of_nat (length l) /\ size v' = size v
  /\ (l <> [] -> 0 <= pos v /\ pos v' <= size v)
  /\ (0 <= pos v ->
      firstn (Z.to_nat (pos v')) (buf v') = firstn (Z.to_nat (pos v)) (buf v) ++ l).
Proof.
  unfold write. destruct l as [|b l].
  - intros H; inversion H; subst. cbn [length].
    split; [lia|]. split; [reflexivity|]. split; [congruence|].
    intros _. rewrite app_nil_r. reflexivity.
  - remember (b :: l) as bl eqn:Ebl.
    destruct (Z.leb_spec 0 (pos v)) as [H0|]; [|discriminate].
    destruct (Z.leb_spec (pos v + Z.of_nat (length bl)) (size v)) as [H1|];
      [|discriminate].
    cbn [andb]. intros H; inversion H; subst v'; clear H.
    unfold size in *. cbn [pos buf].
    assert (length (firstn (Z.to_nat (pos v)) (buf v)) = Z.to_nat (pos v)) as Hf
        by (apply firstn_length_le; lia).
    split; [reflexivity|]. split.
    { rewrite !length_app, Hf, length_skipn. lia. }
    split; [intros _; lia|].
    intros _.
    replace (Z.to_nat (pos v + Z.of_nat (length bl)))
      with (length (firstn (Z.to_nat (pos v)) (buf v) ++ bl))
      by (rewrite length_app, Hf; lia).
    rewrite app_assoc. rewrite firstn_app, firstn_all, Nat.sub_diag.
    cbn [firstn]. apply app_nil_r.
Qed.

Lemma write_byte_inv (v v' : t) (b : Z) :
  write_byte v b = Some v' ->
  0 <= pos v < size v /\ pos v' = pos v + 1 /\ size v' = size v.
Proof.
  unfold write_byte. intros H. apply write_inv in H.
  destruct H as (Hp & Hs & Hne & _). cbn [length] in Hp.
  assert ([b] <> []) as Hb by discriminate. specialize (Hne Hb). lia.
Qed.

Lemma write_repeat_inv (pat : list Z) (n : nat) (v v' : t) :
  write_repeat v pat n = Some v' ->
  pos v' = pos v + Z.of_nat (length pat) * Z.of_nat n /\ size v' = size v.
Proof.
  unfold write_repeat. intros H. apply write_inv in H.
  destruct H as (Hp & Hs & _). split; [|exact Hs].
  rewrite Hp. f_equal. clear. induction n as [|n IH]; cbn [repeat concat length].
  - lia.
  - rewrite length_app. lia.
Qed.

Lemma write_app (a b : list Z) (v : t) :
  write v (a ++ b) =
    match write v a with
    | Some v' => write v' b
    | None => None
    end.
Proof.
  destruct a as [|x a]; [reflexivity|].
  destruct b as [|y b]; [rewrite app_nil_r; destruct (write v (x :: a)); reflexivity|].
  remember (x :: a) as xa eqn:Exa. remember (y :: b) as yb eqn:Eyb.
  assert (write v (xa ++ yb) =
          if (0 <=? pos v) && (pos v + Z.of_nat (length (xa ++ yb)) <=? size v) then
            Some (mk (firstn (Z.to_nat (pos v)) (buf v) ++ (xa ++ yb)
                        ++ skipn (Z.to_nat (pos v) + length (xa ++ yb)) (buf v))
                     (pos v + Z.of_nat (length (xa ++ yb))))
          else None) as E1 by (subst xa; reflexivity).
  assert (write v xa =
          if (0 <=? pos v) && (pos v + Z.of_nat (length xa) <=? size v) then
            Some (mk (firstn (Z.to_nat (pos v)) (buf v) ++ xa
                        ++ skipn (Z.to_nat (pos v) + length xa) (buf v))
                     (pos v + Z.of_nat (length xa)))
          else None) as E2 by (subst xa; reflexivity).
  assert (forall u, write u yb =
          if (0 <=? pos u) && (pos u + Z.of_nat (length yb) <=? size u) then
            Some (mk (firstn (Z.to_nat (pos u)) (buf u) ++ yb
                        ++ skipn (Z.to_nat (pos u) + length yb) (buf u))
                     (pos u + Z.of_nat (length yb)))
          else None) as E3 by (intros u; subst yb; reflexivity).
  rewrite E1, E2. clear E1 E2 Exa Eyb x a y b.
  rewrite length_app, Nat2Z.inj_add.
  destruct (Z.leb_spec 0 (pos v)) as [H0|]; [|reflexivity]. cbn [andb].
  destruct (Z.leb_spec (pos v + Z.of_nat (length xa)) (size v)) as [H1|H1].
  - rewrite E3. clear E3. unfold size in *. cbn [pos buf].
    assert (length (firstn (Z.to_nat (pos v)) (buf v)) = Z.to_nat (pos v)) as Hf
        by (apply firstn_length_le; lia).
    rewrite !length_app, Hf, length_skipn.
    destruct (Z.leb_spec 0 (pos v + Z.of_nat (length xa))) as [_|]; [|lia].
    cbn [andb].
    replace (Z.of_nat (Z.to_nat (pos v)
                       + (length xa + (length (buf v) - (Z.to_nat (pos v) + length xa)))))
      with (Z.of_nat (length (buf v))) by lia.
    destruct (Z.leb_spec (pos v + (Z.of_nat (length xa) + Z.of_nat (length yb)))
                         (Z.of_nat (length (buf v))));
      destruct (Z.leb_spec (pos v + Z.of_nat (length xa) + Z.of_nat (length yb))
                           (Z.of_nat (length (buf v)))); try lia; [|reflexivity].
    f_equal. f_equal; [|lia].
    replace (Z.to_nat (pos v + Z.of_nat (length xa)))
      with (length (firstn (Z.to_nat (pos v)) (buf v) ++ xa))
      by (rewrite length_app, Hf; lia).
    rewrite (app_assoc _ xa).
    rewrite firstn_app, firstn_all, Nat.sub_diag. cbn [firstn]. rewrite app_nil_r.
    rewrite skipn_app.
    rewrite (skipn_all2 (firstn (Z.to_nat (pos v)) (buf v) ++ xa)) by lia.
    cbn [app].
    replace (length (firstn (Z.to_nat (pos v)) (buf v) ++ xa) + length yb
             - length (firstn (Z.to_nat (pos v)) (buf v) ++ xa))%nat
      with (length yb) by lia.
    rewrite skipn_skipn, <- !app_assoc.
    do 3 (apply f_equal). f_equal. lia.
  - destruct (Z.leb_spec (pos v + (Z.of_nat (length xa) + Z.of_nat (length yb))) (size v));
      [lia|reflexivity].
Qed.

Lemma write_repeat_concat (pat : list Z) (n : nat) (v : t) :
  write_repeat v pat n = write v (concat (repeat pat n)).
Proof. reflexivity. Qed.

Lemma concat_repeat_single (x : Z) (n : nat) :
  concat (repeat [x] n) = repeat x n.
Proof. induction n as [|n IH]; cbn; congruence. Qed.

End VioFacts.

(** ** The decompressor *)

Module DecompressFacts.

Import Compression.

(** Unfolds one layer of the outcome monad in a hypothesis. *)
Ltac bind_inv H :=
  match type of H with
  | bind (require ?o _) _ = Ok _ =>
      let E := fresh "E" in
      destruct o as [[? ?]|] eqn:E; cbn [bind require] in H; [|discriminate H]
  | bind (require ?o _) _ = Ok _ =>
      let E := fresh "E" in
      destruct o as [?|] eqn:E; cbn [bind require] in H; [|discriminate H]
  | require ?o _ = Ok _ =>
      let E := fresh "E" in
      destruct o as [?|] eqn:E; cbn [require] in H; [|discriminate H]
  | bind ?m _ = Ok _ =>
      let E := fresh "E" in
      destruct m as [?| | |] eqn:E; cbn [bind] in H;
        [|discriminate H|discriminate H|discriminate H]
  | (if ?c then _ else _) = Ok _ =>
      let E := fresh "E" in destruct c eqn:E
  | Ok _ = Ok _ => inversion H; subst; clear H
  end.

Lemma grows_refl (st : dstate) : grows st st.
Proof. unfold grows; lia. Qed.

Lemma grows_trans (a b c : dstate) : grows a b -> grows b c -> grows a c.
Proof. unfold grows; lia. Qed.

Lemma read_byte_grows (st st' : dstate) (k : bool) (b : Z) :
  read_byte st k = Some (b, st') -> grows st st'.
Proof.
  unfold read_byte. destruct (Vio.read_byte (rvio st)) as [[x r]|]; try discriminate.
  intros H; inversion H; subst. unfold grows; cbn; lia.
Qed.

Lemma write_byte_grows (st st' : dstate) (b : Z) :
  write_byte st b = Some st' -> grows st st'.
Proof.
  unfold write_byte. destruct (Vio.write_byte (wvio st) b) as [w|] eqn:E; try discriminate.
  intros H; inversion H; subst. apply VioFacts.write_byte_inv in E.
  unfold grows; cbn; lia.
Qed.

Lemma write_repeat_grows (st st' : dstate) (pat : list Z) (n : Z) :
  write_repeat st pat n = Some st' -> grows st st'.
Proof.
  unfold write_repeat.
  destruct (Vio.write_repeat (wvio st) pat (Z.to_nat n)) as [w|] eqn:E; try discriminate.
  intros H; inversion H; subst. apply VioFacts.write_repeat_inv in E.
  unfold grows; cbn; nia.
Qed.

Lemma seek_read_grows (st st' : dstate) (off : Z) :
  seek_read st off = Some st' -> grows st st'.
Proof.
  unfold seek_read. destruct (Vio.seek (rvio st) off) as [r|]; try discriminate.
  intros H; inversion H; subst. unfold grows; cbn; lia.
Qed.

Create HintDb grows.
#[local] Hint Resolve grows_refl read_byte_grows write_byte_grows
  write_repeat_grows seek_read_grows : grows.

Section WithSentinel.

Variable NO : Z.

Lemma step_grows (st st' : dstate) (next : Z) :
  lsdj_decompress_step NO st = Ok (st', next) -> grows st st'.
Proof.
  unfold lsdj_decompress_step, decompress_sa_byte, decompress_rle_byte,
    decompress_default_wave_byte, decompress_default_instrument_byte.
  intros H. repeat bind_inv H;
    repeat match goal with
      | E : bind _ _ = Ok _ |- _ => repeat bind_inv E
      | E : require _ _ = Ok _ |- _ => bind_inv E
      | E : (if _ then _ else _) = Ok _ |- _ => bind_inv E
      | E : Ok _ = Ok _ |- _ => bind_inv E
      end;
    eauto 8 using grows_trans with grows.
Qed.

Lemma block_loop_grows (fuel : nat) : forall (st st' : dstate) (next : Z),
  block_loop NO fuel st = Ok (st', next) -> grows st st'.
Proof.
  induction fuel as [|f IH]; intros st st' next H; cbn [block_loop] in H.
  - discriminate.
  - destruct (lsdj_decompress_step NO st) as [[st1 n1]| | |] eqn:E;
      cbn [bind] in H; try discriminate.
    apply step_grows in E.
    destruct (n1 =? NO).
    + eapply grows_trans; eauto.
    + inversion H; subst. assumption.
Qed.

Lemma block_grows (fuel : nat) (st st' : dstate) (next : Z) :
  lsdj_decompress_block NO fuel st = Ok (st', next) -> grows st st'.
Proof.
  unfold lsdj_decompress_block, block_from. intros H.
  destruct (block_loop NO fuel st) as [[st1 n1]| | |] eqn:E; cbn [bind] in H;
    try discriminate.
  apply block_loop_grows in E.
  bind_inv H. inversion H; subst.
  eapply grows_trans; eauto with grows.
Qed.

Lemma after_block_grows (fbp : Z) (follow : bool) (st st' : dstate) (next : Z) :
  after_block fbp follow st next = Ok (Some st') -> grows st st'.
Proof.
  unfold after_block. intros H.
  destruct (next =? LSDJ_END_OF_FILE_BLOCK_INDEX); try discriminate.
  destruct follow.
  - bind_inv H. inversion H; subst. eauto with grows.
  - inversion H; subst. apply grows_refl.
Qed.

Lemma decompress_loop_grows (fuel : nat) (fbp : Z) (follow : bool) :
  forall (st st' : dstate),
    decompress_loop NO fuel fbp follow st = Ok st' -> grows st st'.
Proof.
  induction fuel as [|f IH]; intros st st' H; cbn [decompress_loop] in H.
  - discriminate.
  - destruct (lsdj_decompress_block NO f st) as [[st1 n1]| | |] eqn:E;
      cbn [bind] in H; try discriminate.
    apply block_grows in E.
    destruct (n1 =? NO); [discriminate H|].
    destruct (after_block fbp follow st1 n1) as [[st2|]| | |] eqn:E2;
      cbn [bind] in H; try discriminate.
    + apply after_block_grows in E2. apply IH in H.
      eauto using grows_trans.
    + inversion H; subst. assumption.
Qed.

(** The loop of [lsdj_decompress] is left only on the end-of-stream
    value: a jump makes another turn. *)
Lemma after_block_none (fbp : Z) (follow : bool) (st : dstate) (next : Z) :
  after_block fbp follow st next = Ok None <-> next = LSDJ_END_OF_FILE_BLOCK_INDEX.
Proof.
  unfold after_block. destruct (Z.eqb_spec next LSDJ_END_OF_FILE_BLOCK_INDEX) as [e|n].
  - tauto.
  - split; [|tauto]. destruct follow.
    + destruct (seek_read _ _); cbn; discriminate.
    + discriminate.
Qed.

End WithSentinel.

End DecompressFacts.

(** ** The block boundaries of the decompressor *)

Module AlignFacts.

Import Compression.

Lemma seek_read_tell (st st' : dstate) (off : Z) :
  seek_read st off = Some st' -> Vio.tell (rvio st') = off.
Proof.
  unfold seek_read, Vio.seek.
  destruct ((0 <=? off) && (off <=? Vio.size (rvio st))); [|discriminate].
  intros H. injection H as <-. reflexivity.
Qed.

Lemma block_loop_next (NO : Z) (fuel : nat) :
  forall (st st' : dstate) (next : Z),
    block_loop NO fuel st = Ok (st', next) -> next <> NO.
Proof.
  induction fuel as [|f IH]; intros st st' next H; cbn [block_loop] in H.
  - discriminate H.
  - destruct (lsdj_decompress_step NO st) as [[st1 n1]| | |]; cbn [bind] in H;
      try discriminate H.
    destruct (Z.eqb_spec n1 NO) as [_|Hne].
    + exact (IH _ _ _ H).
    + injection H as _ <-. exact Hne.
Qed.

Lemma block_tell (NO : Z) (fuel : nat) (st st' : dstate) (next : Z) :
  lsdj_decompress_block NO fuel st = Ok (st', next) ->
  next <> NO /\ Vio.tell (rvio st') = Vio.tell (rvio st) + LSDJ_BLOCK_SIZE.
Proof.
  unfold lsdj_decompress_block, block_from. intros H.
  destruct (block_loop NO fuel st) as [[st1 n1]| | |] eqn:E; cbn [bind] in H;
    try discriminate H.
  apply block_loop_next in E.
  destruct (seek_read st1 (Vio.tell (rvio st) + LSDJ_BLOCK_SIZE)) as [st2|] eqn:E2;
    cbn [require bind] in H; [|discriminate H].
  injection H as <- <-. split; [exact E|exact (seek_read_tell _ _ _ E2)].
Qed.

Lemma rem_next_block (a : Z) :
  Z.rem (a + LSDJ_BLOCK_SIZE) LSDJ_BLOCK_SIZE = 0 <-> Z.rem a LSDJ_BLOCK_SIZE = 0.
Proof.
  unfold LSDJ_BLOCK_SIZE. rewrite !Z.rem_divide by lia.
  split; intros [k Hk]; [exists (k - 1)|exists (k + 1)]; lia.
Qed.

Lemma rem_block_start (index : Z) : Z.rem (index * LSDJ_BLOCK_SIZE) LSDJ_BLOCK_SIZE = 0.
Proof. unfold LSDJ_BLOCK_SIZE. apply Z.rem_divide; [lia|]. exists index. reflexivity. Qed.


(** The input is on a block boundary after the loop when it was before
    it, and, when jumps are not followed, only then. *)
Lemma loop_boundary (LSDJ_NO_NEXT_BLOCK_INDEX : Z) (firstBlockPosition : Z)
      (followBlockJumps : bool) (fuel : nat) (st st' : dstate) :
  decompress_loop LSDJ_NO_NEXT_BLOCK_INDEX fuel firstBlockPosition followBlockJumps st
  = Ok st' ->
  (Z.rem (Vio.tell (rvio st) - firstBlockPosition) LSDJ_BLOCK_SIZE = 0 ->
   Z.rem (Vio.tell (rvio st') - firstBlockPosition) LSDJ_BLOCK_SIZE = 0)
  /\ (followBlockJumps = false ->
      Z.rem (Vio.tell (rvio st') - firstBlockPosition) LSDJ_BLOCK_SIZE = 0 ->
      Z.rem (Vio.tell (rvio st) - firstBlockPosition) LSDJ_BLOCK_SIZE = 0).
Proof.
  revert st st'. induction fuel as [|f IH]; intros st st' H; cbn [decompress_loop] in H.
  - discriminate H.
  - destruct (lsdj_decompress_block LSDJ_NO_NEXT_BLOCK_INDEX f st) as [[st1 next]| | |] eqn:E;
      cbn [bind] in H; try discriminate H.
    apply block_tell in E. destruct E as [Hnext Htell].
    destruct (Z.eqb_spec next LSDJ_NO_NEXT_BLOCK_INDEX) as [e|_]; [contradiction|].
    assert (Z.rem (Vio.tell (rvio st1) - firstBlockPosition) LSDJ_BLOCK_SIZE = 0
            <-> Z.rem (Vio.tell (rvio st) - firstBlockPosition) LSDJ_BLOCK_SIZE = 0)
      as Hblock.
    { rewrite Htell.
      replace (Vio.tell (rvio st) + LSDJ_BLOCK_SIZE - firstBlockPosition)
        with (Vio.tell (rvio st) - firstBlockPosition + LSDJ_BLOCK_SIZE) by lia.
      apply rem_next_block. }
    unfold after_block in H.
    destruct (next =? LSDJ_END_OF_FILE_BLOCK_INDEX).
    + cbn [bind] in H. injection H as <-. split; [|intros _]; apply Hblock.
    + destruct followBlockJumps.
      * destruct (seek_read st1 _) as [st2|] eqn:E2; cbn [require bind] in H;
          [|discriminate H].
        apply seek_read_tell in E2.
        destruct (IH _ _ H) as [Hto _]. split; [|discriminate].
        intros _. apply Hto. rewrite E2.
        replace (firstBlockPosition + u8 (u8 next - 1) * LSDJ_BLOCK_SIZE - firstBlockPosition)
          with (u8 (u8 next - 1) * LSDJ_BLOCK_SIZE) by lia.
        apply rem_block_start.
      * cbn [bind] in H. destruct (IH _ _ H) as [Hto Hfrom]. split.
        -- intros Ha. apply Hto, Hblock, Ha.
        -- intros _ Ha. apply Hblock, Hfrom; [reflexivity|exact Ha].
Qed.

Lemma on_block_boundary_true (firstBlockPosition : Z) (st : dstate) :
  on_block_boundary firstBlockPosition st = true
  <-> Z.rem (Vio.tell (rvio st) - firstBlockPosition) LSDJ_BLOCK_SIZE = 0.
Proof. unfold on_block_boundary. apply Z.eqb_eq. Qed.

End AlignFacts.

Module StepFacts.

Import Compression DecompressFacts.

Lemma peek_cons (v : Vio.t) (n : nat) (b : Z) (l : list Z) :
  0 <= Vio.pos v ->
  peek v (S n) = b :: l ->
  Vio.read_byte v = Some (b, Vio.mk (Vio.buf v) (Vio.pos v + 1))
  /\ peek (Vio.mk (Vio.buf v) (Vio.pos v + 1)) n = l.
Proof.
  unfold peek, Vio.read_byte. intros Hp H.
  destruct (Z.leb_spec 0 (Vio.pos v)) as [_|]; [|lia].
  cbn [Vio.pos Vio.buf].
  replace (Z.to_nat (Vio.pos v + 1)) with (S (Z.to_nat (Vio.pos v))) by lia.
  remember (Z.to_nat (Vio.pos v)) as p eqn:Ep. clear Ep Hp.
  rewrite <- (firstn_skipn p (Vio.buf v)) at 1.
  destruct (skipn p (Vio.buf v)) as [|x tl] eqn:Es; cbn in H; [discriminate|].
  inversion H; subst x. clear H.
  assert (skipn (S p) (Vio.buf v) = tl) as Hs.
  { replace (S p) with (1 + p)%nat by lia. rewrite <- skipn_skipn, Es. reflexivity. }
  rewrite Hs. split; [|reflexivity].
  assert (length (firstn p (Vio.buf v)) = p) as Hl.
  { apply firstn_length_le.
    assert (length (skipn p (Vio.buf v)) = length (b :: tl)) as Hlen by congruence.
    rewrite length_skipn in Hlen. cbn in Hlen. lia. }
  rewrite nth_error_app2 by lia. rewrite Hl, Nat.sub_diag. reflexivity.
Qed.

Lemma ahead_cons (st : dstate) (b : Z) (l : list Z) (k : bool) :
  ahead st (b :: l) ->
  let st' := mkD (Vio.mk (Vio.buf (rvio st)) (Vio.pos (rvio st) + 1))
                 (if k then readCounter st + 1 else readCounter st)
                 (wvio st) (writeCounter st) in
  read_byte st k = Some (b, st') /\ ahead st' l.
Proof.
  intros [Hp H]. cbn [length] in H.
  destruct (peek_cons _ _ _ _ Hp H) as [Hr Hk].
  unfold read_byte. rewrite Hr. split; [reflexivity|].
  split; cbn; [lia | exact Hk].
Qed.

Lemma write_single (v w : Vio.t) (b : Z) :
  Vio.write v [b] = Some w -> Vio.write_byte v b = Some w.
Proof. intros H. exact H. Qed.

Lemma out_eq (A : Type) (b : list Z) (p p' rc rc' wc wc' : Z) (w : Vio.t) (n : A) :
  p = p' -> rc = rc' -> wc = wc' ->
  @Ok (dstate * A) (mkD (Vio.mk b p) rc w wc, n) = Ok (mkD (Vio.mk b p') rc' w wc', n).
Proof. intros; subst; reflexivity. Qed.

Ltac state_eq :=
  cbn [require bind length]; unfold consumed;
  cbn [Vio.buf Vio.pos rvio wvio readCounter writeCounter];
  apply out_eq; cbn [length LSDJ_DEFAULT_WAVE LSDJ_DEFAULT_INSTRUMENT]; lia.

(** Reads the next byte known to be ahead, in the goal. *)
Ltac read_next H k :=
  let Hr := fresh "Hr" in
  let H' := fresh "H" in
  destruct (ahead_cons _ _ _ k H) as [Hr H'];
  rewrite Hr; cbn [require bind]; clear Hr H; rename H' into H.

Ltac decide_byte :=
  match goal with
  | |- context [?a =? ?b] =>
      destruct (Z.eqb_spec a b);
      [ try (exfalso; unfold RUN_LENGTH_ENCODING_BYTE, SPECIAL_ACTION_BYTE,
               LSDJ_DEFAULT_WAVE_BYTE, LSDJ_DEFAULT_INSTRUMENT_BYTE in *; lia)
      | try (exfalso; unfold RUN_LENGTH_ENCODING_BYTE, SPECIAL_ACTION_BYTE,
               LSDJ_DEFAULT_WAVE_BYTE, LSDJ_DEFAULT_INSTRUMENT_BYTE in *; lia) ]
  end.

Section WithSentinel.

Variable NO : Z.

Lemma step_literal (st : dstate) (b : Z) (w : Vio.t) :
  ahead st [b] -> b <> 0xC0 -> b <> 0xE0 ->
  Vio.write (wvio st) [b] = Some w ->
  lsdj_decompress_step NO st = Ok (consumed st 1 1 w 1, NO).
Proof.
  intros H H1 H2 Hw. apply write_single in Hw.
  unfold lsdj_decompress_step. read_next H true.
  do 2 decide_byte.
  unfold write_byte; cbn [wvio rvio readCounter writeCounter]. rewrite Hw.
  state_eq.
Qed.

Lemma step_rle_escape (st : dstate) (w : Vio.t) :
  ahead st [0xC0; 0xC0] ->
  Vio.write (wvio st) [0xC0] = Some w ->
  lsdj_decompress_step NO st = Ok (consumed st 2 2 w 1, NO).
Proof.
  intros H Hw. apply write_single in Hw.
  unfold lsdj_decompress_step. read_next H true.
  decide_byte.
  unfold decompress_rle_byte. read_next H true.
  decide_byte.
  unfold write_byte; cbn [wvio rvio readCounter writeCounter]. rewrite Hw.
  state_eq.
Qed.

Lemma step_rle_run (st : dstate) (x n : Z) (w : Vio.t) :
  ahead st [0xC0; x; n] -> x <> 0xC0 ->
  Vio.write (wvio st) (repeat x (Z.to_nat n)) = Some w ->
  lsdj_decompress_step NO st =
    Ok (consumed st 3 3 w (Z.of_nat (Z.to_nat n)), NO).
Proof.
  intros H Hx Hw.
  unfold lsdj_decompress_step. read_next H true.
  decide_byte.
  unfold decompress_rle_byte. read_next H true.
  decide_byte. read_next H true.
  unfold write_repeat; cbn [wvio rvio readCounter writeCounter].
  rewrite VioFacts.write_repeat_concat, VioFacts.concat_repeat_single, Hw.
  state_eq.
Qed.

Lemma step_sa_escape (st : dstate) (w : Vio.t) :
  ahead st [0xE0; 0xE0] ->
  Vio.write (wvio st) [0xE0] = Some w ->
  lsdj_decompress_step NO st = Ok (consumed st 2 2 w 1, NO).
Proof.
  intros H Hw. apply write_single in Hw.
  unfold lsdj_decompress_step. read_next H true.
  do 2 decide_byte.
  unfold decompress_sa_byte. read_next H true.
  decide_byte.
  unfold write_byte; cbn [wvio rvio readCounter writeCounter]. rewrite Hw.
  state_eq.
Qed.

Lemma step_default_wave (st : dstate) (n : Z) (w : Vio.t) :
  ahead st [0xE0; 0xF0; n] ->
  Vio.write (wvio st) (concat (repeat LSDJ_DEFAULT_WAVE (Z.to_nat n))) = Some w ->
  lsdj_decompress_step NO st =
    Ok (consumed st 3 2 w (16 * Z.of_nat (Z.to_nat n)), NO).
Proof.
  intros H Hw.
  unfold lsdj_decompress_step. read_next H true.
  do 2 decide_byte.
  unfold decompress_sa_byte. read_next H true.
  do 2 decide_byte.
  unfold decompress_default_wave_byte. read_next H false.
  unfold write_repeat; cbn [wvio rvio readCounter writeCounter].
  rewrite VioFacts.write_repeat_concat, Hw.
  state_eq.
Qed.

Lemma step_default_instrument (st : dstate) (n : Z) (w : Vio.t) :
  ahead st [0xE0; 0xF1; n] ->
  Vio.write (wvio st) (concat (repeat LSDJ_DEFAULT_INSTRUMENT (Z.to_nat n))) = Some w ->
  lsdj_decompress_step NO st =
    Ok (consumed st 3 2 w (16 * Z.of_nat (Z.to_nat n)), NO).
Proof.
  intros H Hw.
  unfold lsdj_decompress_step. read_next H true.
  do 2 decide_byte.
  unfold decompress_sa_byte. read_next H true.
  do 3 decide_byte.
  unfold decompress_default_instrument_byte. read_next H false.
  unfold write_repeat; cbn [wvio rvio readCounter writeCounter].
  rewrite VioFacts.write_repeat_concat, Hw.
  state_eq.
Qed.

(** A special-action byte followed by anything but 0xE0, 0xF0 and 0xF1
    writes nothing and reports the value as the next block index. *)
Lemma step_block_index (st : dstate) (v : Z) :
  ahead st [0xE0; v] -> v <> 0xE0 -> v <> 0xF0 -> v <> 0xF1 ->
  lsdj_decompress_step NO st = Ok (consumed st 2 2 (wvio st) 0, v).
Proof.
  intros H H1 H2 H3.
  unfold lsdj_decompress_step. read_next H true.
  do 2 decide_byte.
  unfold decompress_sa_byte. read_next H true.
  do 3 decide_byte.
  state_eq.
Qed.

End WithSentinel.

End StepFacts.

(** ** The compressor *)

Module CompressFacts.

Import Compression.

Lemma starts_with_true (pat rest : list Z) :
  starts_with pat rest = true -> rest = pat ++ skipn (length pat) rest.
Proof.
  unfold starts_with.
  destruct (list_eq_dec Z.eq_dec (firstn (length pat) rest) pat) as [e|]; [|discriminate].
  intros _. rewrite <- e at 1. symmetry. apply firstn_skipn.
Qed.

Lemma count_default_spec (pat : list Z) (fuel : nat) :
  length pat = 16%nat ->
  forall (rest rest' : list Z) (count count' : Z),
    count_default pat fuel rest count = (rest', count') ->
    0 <= count -> count + Z.of_nat fuel <= 255 ->
    exists k : nat,
      count' = count + Z.of_nat k /\ count' <= 255
      /\ rest = concat (repeat pat k) ++ rest'.
Proof.
  intros Hpat. induction fuel as [|f IH]; intros rest rest' count count' H H0 Hb;
    cbn [count_default] in H.
  - inversion H; subst. exists 0%nat. cbn. split; [lia|]. split; [lia|reflexivity].
  - destruct ((16 <? Z.of_nat (length rest)) && starts_with pat rest
              && negb (count =? 0xFF)) eqn:E.
    + apply andb_prop in E. destruct E as [E _].
      apply andb_prop in E. destruct E as [_ E].
      apply starts_with_true in E. rewrite Hpat in E.
      apply IH in H; try lia.
      destruct H as (k & Hc & Hle & Hr).
      exists (S k). split; [lia|]. split; [lia|].
      cbn [repeat concat]. rewrite <- app_assoc, <- Hr. exact E.
    + inversion H; subst. exists 0%nat. cbn. split; [lia|]. split; [lia|reflexivity].
Qed.

Lemma count_run_spec (c : Z) : forall (rest rest' : list Z) (count count' : Z),
  count_run c rest count = (rest', count') ->
  0 <= count <= 255 ->
  exists k : nat,
    count' = count + Z.of_nat k /\ count' <= 255 /\ rest = repeat c k ++ rest'.
Proof.
  induction rest as [|x tl IH]; intros rest' count count' H Hb; cbn [count_run] in H.
  - inversion H; subst. exists 0%nat. cbn. split; [lia|]. split; [lia|reflexivity].
  - destruct ((x =? c) && negb (count =? 0xFF)) eqn:E.
    + apply andb_prop in E. destruct E as [E1 E2].
      apply Z.eqb_eq in E1. apply negb_true_iff in E2. apply Z.eqb_neq in E2.
      apply IH in H; [|lia].
      destruct H as (k & Hc & Hle & Hr).
      exists (S k). split; [lia|]. split; [lia|].
      cbn [repeat app]. subst x. f_equal. exact Hr.
    + inversion H; subst. exists 0%nat. cbn. split; [lia|]. split; [lia|reflexivity].
Qed.

(** The event chosen at a read position stands for a non-empty prefix
    of the input that is left. *)
Lemma next_event_encodes (rest rest' ev : list Z) :
  rest <> [] ->
  next_event rest = (ev, rest') ->
  exists used, rest = used ++ rest' /\ used <> [] /\ encodes ev used
               /\ (1 <= length ev <= 3)%nat.
Proof.
  intros Hne. unfold next_event.
  destruct (count_default LSDJ_DEFAULT_WAVE 255 rest 0) as [rest1 wn] eqn:Ew.
  apply count_default_spec in Ew; [|reflexivity|lia|lia].
  destruct Ew as (kw & Hw1 & Hw2 & Hw3).
  destruct (Z.ltb_spec 0 wn) as [Hpos|Hzero].
  - intros H; inversion H; subst ev rest'; clear H.
    exists (concat (repeat LSDJ_DEFAULT_WAVE kw)).
    split; [exact Hw3|]. split.
    + destruct kw; [lia|]. cbn. discriminate.
    + split; [|cbn; lia].
      replace kw with (Z.to_nat wn) by lia. apply enc_wave. lia.
  - assert (kw = 0%nat) by lia. subst kw. cbn in Hw3. subst rest1.
    destruct (count_default LSDJ_DEFAULT_INSTRUMENT 255 rest 0) as [rest2 n] eqn:Ei.
    apply count_default_spec in Ei; [|reflexivity|lia|lia].
    destruct Ei as (ki & Hi1 & Hi2 & Hi3).
    destruct (Z.ltb_spec 0 n) as [Hpos|Hzero'].
    + intros H; inversion H; subst ev rest'; clear H.
      exists (concat (repeat LSDJ_DEFAULT_INSTRUMENT ki)).
      split; [exact Hi3|]. split.
      * destruct ki; [lia|]. cbn. discriminate.
      * split; [|cbn; lia].
        replace ki with (Z.to_nat n) by lia. apply enc_instrument. lia.
    + assert (ki = 0%nat) by lia. subst ki. cbn in Hi3. subst rest2.
      destruct rest as [|c tl]; [congruence|].
      destruct (Z.eqb_spec c RUN_LENGTH_ENCODING_BYTE) as [e|Hc0].
      { intros H; inversion H; subst. exists [RUN_LENGTH_ENCODING_BYTE].
        split; [reflexivity|]. split; [discriminate|]. split; [apply enc_rle_byte|cbn; lia]. }
      destruct (Z.eqb_spec c SPECIAL_ACTION_BYTE) as [e|He0].
      { intros H; inversion H; subst. exists [SPECIAL_ACTION_BYTE].
        split; [reflexivity|]. split; [discriminate|]. split; [apply enc_sa_byte|cbn; lia]. }
      destruct ((3 <? Z.of_nat (length (c :: tl)))
                && at_is (c :: tl) 1 c && at_is (c :: tl) 2 c && at_is (c :: tl) 3 c).
      * destruct (count_run c (c :: tl) 0) as [rest3 cnt] eqn:Er.
        pose proof Er as Er'. cbn [count_run] in Er'. rewrite Z.eqb_refl in Er'.
        cbn in Er'. apply count_run_spec in Er'; [|lia].
        destruct Er' as (k & Hk1 & Hk2 & Hk3).
        intros H; inversion H; subst ev rest'; clear H.
        exists (repeat c (S k)). split; [cbn; f_equal; exact Hk3|].
        split; [discriminate|]. split; [|cbn; lia].
        replace (S k) with (Z.to_nat cnt) by lia.
        apply enc_run; [exact Hc0 | exact He0 | lia].
      * intros H; inversion H; subst. exists [c].
        split; [reflexivity|]. split; [discriminate|].
        split; [apply enc_literal; assumption|cbn; lia].
Qed.

Lemma write_prefix (l : list Z) (v v' : Vio.t) :
  Vio.write v l = Some v' -> 0 <= Vio.pos v -> prefix v' = prefix v ++ l.
Proof.
  intros H Hp. apply VioFacts.write_inv in H. destruct H as (_ & _ & _ & H).
  apply H. exact Hp.
Qed.

Lemma cwrite_inv (w w1 : Vio.t) (wc wc1 : Z) (l : list Z) :
  cwrite w wc l = Some (w1, wc1) ->
  wc1 = wc + Z.of_nat (length l)
  /\ Vio.pos w1 = Vio.pos w + Z.of_nat (length l)
  /\ Vio.size w1 = Vio.size w
  /\ (0 <= Vio.pos w -> prefix w1 = prefix w ++ l)
  /\ (l <> [] -> 0 <= Vio.pos w /\ Vio.pos w1 <= Vio.size w).
Proof.
  unfold cwrite. destruct (Vio.write w l) as [w'|] eqn:E; [|discriminate].
  intros H; inversion H; subst; clear H.
  pose proof (VioFacts.write_inv _ _ _ E) as (Hp & Hs & Hne & _).
  repeat split; try assumption; try (apply Hne; assumption).
  intros H0. apply write_prefix; assumption.
Qed.

Lemma roll_back_fails (w w' : Vio.t) (wc wc' ws : Z) :
  roll_back w wc ws <> Compressed w' wc'.
Proof.
  unfold roll_back. destruct (Vio.seek w ws); [|discriminate].
  destruct (cwrite _ _ _) as [[? ?]|]; [|discriminate].
  destruct (Vio.seek _ _); discriminate.
Qed.

Lemma length_zeros (n : Z) : Z.of_nat (length (zeros n)) = Z.max 0 n.
Proof. unfold zeros. rewrite repeat_length. lia. Qed.

Ltac use_cwrite E :=
  let Hc := fresh "Hc" in
  let Hp := fresh "Hp" in
  let Hs := fresh "Hs" in
  let Hx := fresh "Hx" in
  let Hn := fresh "Hn" in
  apply cwrite_inv in E; destruct E as (Hc & Hp & Hs & Hx & Hn).

Lemma finish_stream (cb cbs : Z) (w : Vio.t) (wc : Z) (w' : Vio.t) (wc' : Z) :
  finish cbs w wc = Compressed w' wc' ->
  0 < cbs <= 509 ->
  exists out,
    prefix w' = prefix w ++ out
    /\ Vio.size w' = Vio.size w
    /\ 0 <= Vio.pos w
    /\ Vio.pos w' = Vio.pos w + Z.of_nat (length out)
    /\ Vio.pos w' <= Vio.size w'
    /\ wc' = wc + Z.of_nat (length out)
    /\ stream [] cb cbs out.
Proof.
  unfold finish. intros H Hcbs.
  destruct (cwrite w wc [SPECIAL_ACTION_BYTE]) as [[w1 wc1]|] eqn:E1; [|discriminate].
  destruct (cwrite w1 wc1 [LSDJ_END_OF_FILE_BLOCK_INDEX]) as [[w2 wc2]|] eqn:E2;
    [|discriminate].
  destruct (Z.ltb_spec 0 cbs) as [_|]; [|lia].
  destruct (cwrite w2 wc2 (zeros (LSDJ_BLOCK_SIZE - (cbs + 2)))) as [[w3 wc3]|] eqn:E3;
    [|discriminate].
  inversion H; subst w3 wc3; clear H.
  use_cwrite E1. use_cwrite E2. use_cwrite E3.
  assert (0 <= Vio.pos w) as Hw0 by (apply Hn; discriminate).
  assert (zeros (LSDJ_BLOCK_SIZE - (cbs + 2)) <> []) as Hz.
  { intros C. pose proof (length_zeros (LSDJ_BLOCK_SIZE - (cbs + 2))) as L.
    rewrite C in L. cbn [length] in L. unfold LSDJ_BLOCK_SIZE in L. lia. }
  exists ([0xE0; 0xFF] ++ zeros (LSDJ_BLOCK_SIZE - (cbs + 2))).
  pose proof (length_zeros (LSDJ_BLOCK_SIZE - (cbs + 2))) as L.
  split.
  { rewrite Hx1, Hx0, Hx by lia. rewrite <- !app_assoc. reflexivity. }
  rewrite length_app. cbn [length] in *.
  repeat split; try lia.
  - apply Hn1 in Hz. lia.
  - apply stream_end. lia.
Qed.

(** A successful run of the loop appends a well-formed stream for the
    input it was given. *)
Lemma compress_loop_stream (fuel : nat) (ws : Z) :
  forall (rest : list Z) (cb cbs : Z) (w : Vio.t) (wc : Z) (w' : Vio.t) (wc' : Z),
    compress_loop fuel ws rest cb cbs w wc = Compressed w' wc' ->
    0 <= cbs <= 509 -> 0 <= cb <= 191 -> (rest = [] -> 0 < cbs) ->
    exists out,
      prefix w' = prefix w ++ out
      /\ Vio.size w' = Vio.size w
      /\ 0 <= Vio.pos w
      /\ Vio.pos w' = Vio.pos w + Z.of_nat (length out)
      /\ Vio.pos w' <= Vio.size w'
      /\ wc' = wc + Z.of_nat (length out)
      /\ stream rest cb cbs out.
Proof.
  induction fuel as [|f IH]; intros rest cb cbs w wc w' wc' H Hcbs Hcb Hend.
  - destruct rest as [|x tl]; cbn [compress_loop] in H; [|discriminate].
    apply finish_stream; [assumption|]. specialize (Hend eq_refl). lia.
  - destruct rest as [|x tl]; cbn [compress_loop] in H.
    { apply finish_stream; [assumption|]. specialize (Hend eq_refl). lia. }
    clear Hend.
    destruct (next_event (x :: tl)) as [ev rest'] eqn:Ev.
    apply next_event_encodes in Ev; [|discriminate].
    destruct Ev as (used & Hsplit & Hused & Henc & Hlen).
    rewrite Hsplit.
    destruct (Z.leb_spec LSDJ_BLOCK_SIZE (cbs + Z.of_nat (length ev) + 2)) as [Hjump|Hfit].
    + destruct (cwrite w wc [SPECIAL_ACTION_BYTE]) as [[w1 wc1]|] eqn:E1; [|discriminate].
      destruct (cwrite w1 wc1 [u8 (u32 (cb + 1))]) as [[w2 wc2]|] eqn:E2; [|discriminate].
      destruct (cwrite w2 wc2 (zeros (LSDJ_BLOCK_SIZE - (cbs + 2)))) as [[w3 wc3]|] eqn:E3;
        [|discriminate].
      destruct (negb (Z.max (cbs + 2) LSDJ_BLOCK_SIZE =? LSDJ_BLOCK_SIZE)); [discriminate|].
      assert (u32 (cb + 1) = cb + 1) as Hu32 by (unfold u32; apply Z.mod_small; lia).
      assert (u8 (cb + 1) = cb + 1) as Hu8 by (unfold u8; apply Z.mod_small; lia).
      rewrite Hu32 in *. rewrite Hu8 in *.
      destruct (Z.eqb_spec (cb + 1) (LSDJ_BLOCK_COUNT + 1)) as [Hfull|Hroom].
      { exfalso. eapply roll_back_fails; eassumption. }
      unfold LSDJ_BLOCK_COUNT in Hroom.
      destruct (cwrite w3 wc3 ev) as [[w4 wc4]|] eqn:E4; [|discriminate].
      apply IH in H; [|lia|lia|lia].
      destruct H as (out & Hpre & Hsize & Hpos0 & Hpos & Hwf & Hwc & Hstream).
      use_cwrite E1. use_cwrite E2. use_cwrite E3. use_cwrite E4.
      assert (0 <= Vio.pos w) as Hw0 by (apply Hn; discriminate).
      pose proof (length_zeros (LSDJ_BLOCK_SIZE - (cbs + 2))) as L.
      unfold LSDJ_BLOCK_SIZE in L, Hjump.
      exists ([0xE0; cb + 1] ++ zeros (LSDJ_BLOCK_SIZE - (cbs + 2)) ++ ev ++ out).
      split.
      { rewrite Hpre, Hx2, Hx1, Hx0, Hx by lia. rewrite <- !app_assoc. reflexivity. }
      rewrite !length_app. cbn [length] in *.
      repeat split; try lia.
      apply stream_jump; [lia|lia|unfold LSDJ_BLOCK_COUNT; lia|].
      apply stream_event; [assumption|lia|unfold LSDJ_BLOCK_SIZE; lia|].
      exact Hstream.
    + unfold LSDJ_BLOCK_SIZE in Hfit.
      destruct (cwrite w wc ev) as [[w1 wc1]|] eqn:E1; [|discriminate].
      apply IH in H; [|lia|lia|lia].
      destruct H as (out & Hpre & Hsize & Hpos0 & Hpos & Hwf & Hwc & Hstream).
      use_cwrite E1.
      assert (0 <= Vio.pos w) as Hw0.
      { apply Hn. destruct ev; [cbn in Hlen; lia|discriminate]. }
      exists (ev ++ out).
      split.
      { rewrite Hpre, Hx by lia. rewrite <- !app_assoc. reflexivity. }
      rewrite !length_app.
      repeat split; try lia.
      apply stream_event; [assumption|lia|unfold LSDJ_BLOCK_SIZE; lia|].
      exact Hstream.
Qed.

End CompressFacts.

(** ** Decoding what the compressor wrote *)

Module RoundTrip.

Import Compression DecompressFacts StepFacts CompressFacts.

Lemma length_concat_repeat (pat : list Z) (k : nat) :
  length (concat (repeat pat k)) = (k * length pat)%nat.
Proof.
  induction k as [|k IH]; cbn [repeat concat]; [reflexivity|].
  rewrite length_app, IH. lia.
Qed.

Lemma ahead_of_buf (st : dstate) (pre l post : list Z) :
  Vio.buf (rvio st) = pre ++ l ++ post ->
  Vio.pos (rvio st) = Z.of_nat (length pre) ->
  ahead st l.
Proof.
  intros Hb Hp. unfold ahead, peek. rewrite Hb, Hp. split; [lia|].
  rewrite Nat2Z.id, skipn_app, skipn_all, Nat.sub_diag. cbn [skipn app].
  rewrite firstn_app, Nat.sub_diag, firstn_all. cbn. apply app_nil_r.
Qed.

Lemma seek_read_ok (st : dstate) (off : Z) :
  0 <= off <= Vio.size (rvio st) ->
  seek_read st off = Some (moved st off).
Proof.
  intros H. unfold seek_read, Vio.seek.
  destruct (Z.leb_spec 0 off); [|lia].
  destruct (Z.leb_spec off (Vio.size (rvio st))); [|lia].
  reflexivity.
Qed.

Section WithSentinel.

Variable NO : Z.

Lemma decompress_loop_S (f : nat) (fbp : Z) (follow : bool) (st : dstate) :
  decompress_loop NO (S f) fbp follow st
  = loop_from NO f f fbp follow (Vio.tell (rvio st)) st.
Proof.
  cbn [decompress_loop]. unfold loop_from, lsdj_decompress_block.
  destruct (block_from NO f (Vio.tell (rvio st)) st) as [[st1 n]| | |]; reflexivity.
Qed.

Lemma loop_from_step (fi fo : nat) (fbp : Z) (follow : bool) (start : Z)
      (st st1 : dstate) :
  lsdj_decompress_step NO st = Ok (st1, NO) ->
  loop_from NO (S fi) fo fbp follow start st = loop_from NO fi fo fbp follow start st1.
Proof.
  intros H. unfold loop_from, block_from. cbn [block_loop].
  rewrite H. cbn [bind]. rewrite Z.eqb_refl. reflexivity.
Qed.

Lemma loop_from_index (fi fo : nat) (fbp : Z) (follow : bool) (start : Z)
      (st st1 : dstate) (v : Z) :
  lsdj_decompress_step NO st = Ok (st1, v) -> v <> NO ->
  0 <= start + LSDJ_BLOCK_SIZE <= Vio.size (rvio st1) ->
  loop_from NO (S fi) fo fbp follow start st =
    bind (after_block fbp follow (moved st1 (start + LSDJ_BLOCK_SIZE)) v) (fun o =>
      match o with
      | None => Ok (moved st1 (start + LSDJ_BLOCK_SIZE))
      | Some st2 => decompress_loop NO fo fbp follow st2
      end).
Proof.
  intros H Hv Hs. unfold loop_from, block_from. cbn [block_loop].
  rewrite H. cbn [bind].
  destruct (Z.eqb_spec v NO); [contradiction|]. cbn [bind].
  rewrite seek_read_ok by assumption. cbn [require bind].
  destruct (Z.eqb_spec v NO); [contradiction|]. reflexivity.
Qed.

Lemma step_encodes (st : dstate) (ev used : list Z) (w : Vio.t) :
  encodes ev used -> ahead st ev ->
  Vio.write (wvio st) used = Some w ->
  exists c,
    lsdj_decompress_step NO st
    = Ok (consumed st (Z.of_nat (length ev)) c w (Z.of_nat (length used)), NO).
Proof.
  intros He Ha Hw. destruct He.
  - exists 2. rewrite (step_default_wave NO st n w Ha Hw).
    rewrite length_concat_repeat. cbn [length LSDJ_DEFAULT_WAVE].
    apply out_eq; lia.
  - exists 2. rewrite (step_default_instrument NO st n w Ha Hw).
    rewrite length_concat_repeat. cbn [length LSDJ_DEFAULT_INSTRUMENT].
    apply out_eq; lia.
  - exists 2. apply (step_rle_escape NO st w Ha Hw).
  - exists 2. apply (step_sa_escape NO st w Ha Hw).
  - exists 3. rewrite (step_rle_run NO st c n w Ha H Hw).
    rewrite repeat_length. reflexivity.
  - exists 1. apply (step_literal NO st c w Ha H H0 Hw).
Qed.

Hypothesis NO_not_block : ~ (1 <= NO <= 191).
Hypothesis NO_not_eof : NO <> 255.

(** Reading a well-formed stream from where it lies in the input
    writes the bytes it stands for, and ends the loop. *)
Lemma decode_stream (fbp : Z) (rest : list Z) (cb cbs : Z) (out : list Z) :
  stream rest cb cbs out ->
  forall (st : dstate) (pre post : list Z) (o' : Vio.t) (fi fo : nat),
    Vio.buf (rvio st) = pre ++ out ++ post ->
    Vio.pos (rvio st) = Z.of_nat (length pre) ->
    Z.of_nat (length pre) = fbp + (cb - 1) * 512 + cbs ->
    Vio.write (wvio st) rest = Some o' ->
    (length rest + 1 <= fi)%nat ->
    Z.of_nat (length rest) + 1 + (192 - cb) <= Z.of_nat fo ->
    exists st',
      loop_from NO fi fo fbp true (Z.of_nat (length pre) - cbs) st = Ok st'
      /\ wvio st' = o'
      /\ writeCounter st' = writeCounter st + Z.of_nat (length rest).
Proof.
  induction 1 as [block size Hsize
                 | ev used rest block size out Henc Hsize0 Hfit Hstream IH
                 | rest block size out Hsize Hblock0 Hblock Hstream IH];
    intros st pre post o' fi fo Hbuf Hpos Hpre Hw Hfi Hfo.
  - (* end of stream *)
    rewrite <- app_assoc in Hbuf.
    pose proof (ahead_of_buf st pre [0xE0; 0xFF] _ Hbuf Hpos) as Ha.
    pose proof (step_block_index NO st 0xFF Ha ltac:(lia) ltac:(lia) ltac:(lia)) as Hstep.
    destruct fi as [|fi]; [cbn in Hfi; lia|].
    rewrite (loop_from_index fi fo fbp true _ st _ 0xFF Hstep).
    + cbn [after_block bind]. unfold after_block. cbn [Z.eqb LSDJ_END_OF_FILE_BLOCK_INDEX].
      cbn [bind]. eexists. split; [reflexivity|].
      cbn in Hw. inversion Hw; subst o'. cbn. split; [reflexivity|lia].
    + congruence.
    + unfold consumed, Vio.size. cbn [rvio Vio.buf]. rewrite Hbuf.
      rewrite !length_app, !Nat2Z.inj_add.
      pose proof (length_zeros (LSDJ_BLOCK_SIZE - (size + 2))) as L.
      cbn [length] in *. unfold LSDJ_BLOCK_SIZE in *. lia.
  - (* an event *)
    rewrite <- app_assoc in Hbuf.
    pose proof (ahead_of_buf st pre ev _ Hbuf Hpos) as Ha.
    rewrite VioFacts.write_app in Hw.
    destruct (Vio.write (wvio st) used) as [w1|] eqn:Hw1; [|discriminate].
    destruct (step_encodes st ev used w1 Henc Ha Hw1) as [c Hstep].
    assert (used <> []) as Hused.
    { destruct Henc; try discriminate.
      - replace (Z.to_nat n) with (S (Z.to_nat (n - 1))) by lia. discriminate.
      - replace (Z.to_nat n) with (S (Z.to_nat (n - 1))) by lia. discriminate.
      - replace (Z.to_nat n) with (S (Z.to_nat (n - 1))) by lia. discriminate. }
    assert (1 <= length used)%nat as Hlen by (destruct used; [congruence|cbn; lia]).
    rewrite length_app in Hfi, Hfo.
    destruct fi as [|fi]; [lia|].
    rewrite (loop_from_step fi fo fbp true _ st _ Hstep).
    specialize (IH (consumed st (Z.of_nat (length ev)) c w1 (Z.of_nat (length used)))
                   (pre ++ ev) post o' fi fo).
    rewrite length_app, Nat2Z.inj_add in IH.
    replace (Z.of_nat (length pre) + Z.of_nat (length ev) - (size + Z.of_nat (length ev)))
      with (Z.of_nat (length pre) - size) in IH by lia.
    destruct IH as (st' & Hrun & Hout & Hwc).
    + cbn [consumed rvio Vio.buf]. rewrite Hbuf, <- app_assoc. reflexivity.
    + cbn [consumed rvio Vio.pos]. lia.
    + lia.
    + exact Hw.
    + lia.
    + lia.
    + exists st'. split; [exact Hrun|]. split; [exact Hout|].
      rewrite Hwc. cbn [consumed writeCounter]. rewrite length_app. lia.
  - (* a block jump *)
    rewrite <- !app_assoc in Hbuf.
    pose proof (ahead_of_buf st pre [0xE0; block + 1] _ Hbuf Hpos) as Ha.
    unfold LSDJ_BLOCK_COUNT in Hblock.
    pose proof (step_block_index NO st (block + 1) Ha
                  ltac:(lia) ltac:(lia) ltac:(lia)) as Hstep.
    destruct fi as [|fi]; [lia|].
    pose proof (length_zeros (LSDJ_BLOCK_SIZE - (size + 2))) as L.
    assert (Vio.size (rvio st)
            = Z.of_nat (length pre) + 512 - size + Z.of_nat (length out)
              + Z.of_nat (length post)) as Hsz.
    { unfold Vio.size. rewrite Hbuf. rewrite !length_app, !Nat2Z.inj_add.
      cbn [length]. unfold LSDJ_BLOCK_SIZE in *. lia. }
    rewrite (loop_from_index fi fo fbp true _ st _ (block + 1) Hstep).
    + unfold after_block.
      destruct (Z.eqb_spec (block + 1) LSDJ_END_OF_FILE_BLOCK_INDEX) as [e|_];
        [unfold LSDJ_END_OF_FILE_BLOCK_INDEX in e; lia|].
      assert (u8 (u8 (block + 1) - 1) = block) as Hidx.
      { unfold u8. rewrite (Z.mod_small (block + 1)) by lia.
        replace (block + 1 - 1) with block by lia. apply Z.mod_small. lia. }
      rewrite Hidx.
      rewrite seek_read_ok.
      2:{ unfold moved, consumed, Vio.size in *. cbn [rvio Vio.buf].
          unfold LSDJ_BLOCK_SIZE. lia. }
      cbn [require bind].
      destruct fo as [|fo]; [lia|].
      rewrite decompress_loop_S.
      specialize (IH (moved (moved (consumed st 2 2 (wvio st) 0)
                                   (Z.of_nat (length pre) - size + LSDJ_BLOCK_SIZE))
                            (fbp + block * LSDJ_BLOCK_SIZE))
                     (pre ++ [0xE0; block + 1] ++ zeros (LSDJ_BLOCK_SIZE - (size + 2)))
                     post o' fo fo).
      assert (Z.of_nat (length (pre ++ [0xE0; block + 1]
                                    ++ zeros (LSDJ_BLOCK_SIZE - (size + 2))))
              = fbp + block * LSDJ_BLOCK_SIZE) as Hlen.
      { rewrite !length_app, !Nat2Z.inj_add. cbn [length].
        unfold LSDJ_BLOCK_SIZE in *. lia. }
      rewrite Hlen in IH.
      replace (fbp + block * LSDJ_BLOCK_SIZE - 0)
        with (fbp + block * LSDJ_BLOCK_SIZE) in IH by lia.
      destruct IH as (st' & Hrun & Hout & Hwc).
      * cbn [moved consumed rvio Vio.buf]. rewrite Hbuf, <- !app_assoc. reflexivity.
      * reflexivity.
      * unfold LSDJ_BLOCK_SIZE. lia.
      * exact Hw.
      * lia.
      * lia.
      * exists st'. split; [exact Hrun|]. split; [exact Hout|].
        rewrite Hwc. cbn [moved consumed writeCounter]. lia.
    + intros C. apply NO_not_block. lia.
    + unfold consumed, Vio.size in *. cbn [rvio Vio.buf].
      unfold LSDJ_BLOCK_SIZE. lia.
Qed.

End WithSentinel.

End RoundTrip.

(** ** The table accessors *)

Module TableFacts.

Import Table.

Lemma load_store_other (song : lsdj_song_t) (i j v : Z) :
  0 <= j -> i <> j -> load (store song i v) j = load song j.
Proof.
  intros Hj Hij. unfold store, load.
  destruct (Z.leb_spec 0 i) as [Hi|]; [|reflexivity].
  destruct (Z.ltb_spec i (Z.of_nat (length (bytes song)))) as [Hlt|]; [|reflexivity].
  cbn [andb bytes].
  assert (length (firstn (Z.to_nat i) (bytes song)) = Z.to_nat i) as Hf
      by (apply firstn_length_le; lia).
  destruct (Z.lt_ge_cases j i) as [Hlow|Hhigh].
  - rewrite app_nth1 by lia. rewrite nth_firstn.
    destruct (Nat.ltb_spec (Z.to_nat j) (Z.to_nat i)); [reflexivity|lia].
  - rewrite app_nth2 by lia. rewrite Hf.
    replace (Z.to_nat j - Z.to_nat i)%nat with (S (Z.to_nat j - Z.to_nat i - 1)) by lia.
    cbn [nth]. rewrite nth_skipn. f_equal. lia.
Qed.

Section Commands.

Variable B : Z.

(** The command-1 getter of format version 8 and later reads the
    command-2 column, which the command-1 setter does not write: it returns
    after the set what it returned before. *)
Lemma get_command1_ignores_set (song song' : lsdj_song_t) (table step command : Z)
      (done : bool) :
  0 <= table <= 255 -> 0 <= step <= 255 ->
  8 <= lsdj_song_get_format_version song ->
  lsdj_table_set_command1 B song table step command = Some (done, song') ->
  lsdj_table_get_command1 B song' table step
  = lsdj_table_get_command1 B song table step.
Proof.
  intros Ht Hs Hv Hset.
  unfold lsdj_table_set_command1 in Hset.
  destruct (Z.leb_spec 8 (lsdj_song_get_format_version song)) as [_|]; [|lia].
  destruct (table_index table step <=? CONTENT_LENGTH); [|discriminate Hset].
  match type of Hset with
  | Some (_, ?x) = _ => remember x as stored eqn:Estored
  end.
  injection Hset as _ <-. subst stored.
  unfold lsdj_table_get_command1, lsdj_song_get_format_version in *.
  unfold table_index, COMMAND1_OFFSET, COMMAND2_OFFSET, LSDJ_TABLE_LENGTH.
  rewrite (load_store_other song _ 0x7FFF) by lia.
  destruct (Z.leb_spec 8 (load song 0x7FFF)) as [_|]; [|lia].
  rewrite !load_store_other by lia. reflexivity.
Qed.

(** Under the encoding of format version 8 and later the setter stores
    the same byte for command B and for the command of ordinal 1. *)
Lemma command_b_shares_its_byte (song : lsdj_song_t) (table step : Z) :
  8 <= lsdj_song_get_format_version song ->
  lsdj_table_set_command1 B song table step 1
  = lsdj_table_set_command1 B song table step B.
Proof.
  intros Hv. unfold lsdj_table_set_command1.
  destruct (Z.leb_spec 8 (lsdj_song_get_format_version song)) as [_|]; [|lia].
  rewrite (Z.eqb_refl B).
  destruct (Z.eqb_spec 1 B); reflexivity.
Qed.

End Commands.

End TableFacts.

(** ** The save reader *)

Module SavFacts.

Import Mem Sav.

Lemma nth_slice (l : list Z) (from n : Z) (i : nat) :
  0 <= from -> Z.of_nat i < n ->
  nth i (slice l from n) 0 = nth (Z.to_nat (from + Z.of_nat i)) l 0.
Proof.
  intros Hf Hi. unfold slice. rewrite nth_firstn.
  destruct (Nat.ltb_spec i (Z.to_nat n)); [|lia].
  rewrite nth_skipn. f_equal. lia.
Qed.

Lemma nth_read (data : list Z) (start n i : Z) :
  0 <= start -> 0 <= i < n ->
  nth (Z.to_nat i) (fst (lsdj_mread (lsdj_mseek start SEEK_SET (Mem.mk data 0)) n)) 0
  = nth (Z.to_nat (start + i)) data 0.
Proof.
  intros Hs Hi. unfold lsdj_mseek, lsdj_mread, Mem.rest.
  cbn [fst Mem.data Mem.cur].
  rewrite nth_firstn.
  destruct (Nat.ltb_spec (Z.to_nat i) (Z.to_nat n)); [|lia].
  rewrite nth_skipn. f_equal. lia.
Qed.

(** The two initialization bytes of the header that is read from a
    memory stream are the bytes 318 and 319 after [HEADER_START]. *)
Lemma init_of_memory (data : list Z) :
  let bytes := fst (lsdj_mread (lsdj_mseek HEADER_START SEEK_SET (Mem.mk data 0))
                               sizeof_header) in
  nth 0 (init (header_of_bytes bytes)) 0 = nth (Z.to_nat (HEADER_START + 318)) data 0
  /\ nth 1 (init (header_of_bytes bytes)) 0 = nth (Z.to_nat (HEADER_START + 319)) data 0.
Proof.
  intros bytes. unfold header_of_bytes. cbn [init].
  replace (SAV_PROJECT_COUNT * 9 + 30) with 318 by reflexivity.
  rewrite !nth_slice by lia.
  subst bytes.
  rewrite !nth_read by (unfold sizeof_header, SAV_PROJECT_COUNT, HEADER_START,
                         SONG_DECOMPRESSED_SIZE; lia).
  split; reflexivity.
Qed.

End SavFacts.

(** ** The song reader and writer *)

Module SongFacts.

Import Mem Song.

(** *** Reading what lies at the cursor *)

Lemma read_at (pre c r : list Z) (n : Z) :
  Z.of_nat (length c) = n ->
  lsdj_mread (at_ pre (c ++ r)) n = (c, at_ (pre ++ c) r).
Proof.
  intros Hn. unfold lsdj_mread, at_, Mem.rest. cbn [Mem.data Mem.cur].
  rewrite Nat2Z.id, skipn_app, skipn_all, Nat.sub_diag. cbn [skipn app].
  replace (Z.to_nat n) with (length c) by lia.
  rewrite firstn_app, Nat.sub_diag, firstn_all. cbn [firstn]. rewrite app_nil_r.
  f_equal. rewrite app_assoc. f_equal. rewrite length_app. lia.
Qed.

Lemma seek_cur_at (pre c r : list Z) (n : Z) :
  Z.of_nat (length c) = n ->
  lsdj_mseek n SEEK_CUR (at_ pre (c ++ r)) = at_ (pre ++ c) r.
Proof.
  intros Hn. unfold lsdj_mseek, at_. cbn [Mem.data Mem.cur].
  rewrite app_assoc. f_equal. rewrite length_app. lia.
Qed.

Lemma seek_set_at (m : Mem.t) (pre r : list Z) (off : Z) :
  data m = pre ++ r -> off = Z.of_nat (length pre) ->
  lsdj_mseek off SEEK_SET m = at_ pre r.
Proof. intros Hd Ho. unfold lsdj_mseek, at_. rewrite Hd, Ho. reflexivity. Qed.

Lemma data_at (pre r : list Z) : data (at_ pre r) = pre ++ r.
Proof. reflexivity. Qed.

Lemma read1_at (pre r : list Z) (x : Z) :
  read1 Mem.t lsdj_mread (at_ pre (x :: r)) = (x, at_ (pre ++ [x]) r).
Proof.
  unfold read1. change (x :: r) with ([x] ++ r).
  rewrite (read_at pre [x] r 1) by reflexivity. reflexivity.
Qed.

Lemma seek_cur_two (pre c1 c2 r : list Z) (n1 n2 : Z) :
  Z.of_nat (length c1) = n1 -> Z.of_nat (length c2) = n2 ->
  lsdj_mseek (n1 + n2) SEEK_CUR (at_ pre (c1 ++ c2 ++ r)) = at_ ((pre ++ c1) ++ c2) r.
Proof.
  intros H1 H2. rewrite app_assoc.
  rewrite (seek_cur_at pre (c1 ++ c2) r (n1 + n2)) by (rewrite length_app; lia).
  rewrite app_assoc. reflexivity.
Qed.

Lemma read2_at (pre r : list Z) (a b : Z) :
  lsdj_mread (at_ pre (a :: b :: r)) 2 = ([a; b], at_ (pre ++ [a; b]) r).
Proof. apply (read_at pre [a; b] r 2). reflexivity. Qed.

Lemma read3_at (pre r : list Z) (a b c : Z) :
  lsdj_mread (at_ pre (a :: b :: c :: r)) 3 = ([a; b; c], at_ (pre ++ [a; b; c]) r).
Proof. apply (read_at pre [a; b; c] r 3). reflexivity. Qed.

(** *** Where a chunk lies in an image *)

Lemma found_here (c r : list Z) (pos : Z) : pos = 0 -> found_at (c ++ r) pos c.
Proof. intros ->. exists [], r. split; reflexivity. Qed.

Lemma found_last (c : list Z) (pos : Z) : pos = 0 -> found_at c pos c.
Proof. intros ->. exists [], []. split; [rewrite app_nil_r|]; reflexivity. Qed.

Lemma found_skip (c1 rest c : list Z) (pos n : Z) :
  Z.of_nat (length c1) = n -> found_at rest (pos - n) c -> found_at (c1 ++ rest) pos c.
Proof.
  intros Hn (pre & r & -> & Hp). exists (c1 ++ pre), r. split.
  - rewrite app_assoc. reflexivity.
  - rewrite length_app. lia.
Qed.

Lemma length_skip (c1 rest : list Z) (total n : Z) :
  Z.of_nat (length c1) = n -> Z.of_nat (length rest) = total - n ->
  Z.of_nat (length (c1 ++ rest)) = total.
Proof. intros H1 H2. rewrite length_app. lia. Qed.

(** The fill of the record of index [i], which is absent. *)
Lemma found_absent (E : Type) (enc : E -> list Z) (fill : list Z) (len : Z)
      (good : E -> Prop) (L : list (option E)) (i : nat) (pos : Z) (r : list Z) :
  Z.of_nat (length fill) = len ->
  (forall o, good o -> Z.of_nat (length (enc o)) = len) ->
  Forall (each good) L ->
  nth_error L i = Some None ->
  pos = Z.of_nat i * len ->
  found_at (write_each enc fill L ++ r) pos fill.
Proof.
  intros Hfill Hlen HL. revert i pos.
  induction HL as [|o L Ho _ IH]; intros i pos Hi ->.
  - destruct i; discriminate Hi.
  - unfold write_each in *. cbn [map concat]. rewrite <- app_assoc.
    destruct i as [|i].
    + injection Hi as ->. apply found_here. lia.
    + apply (found_skip _ _ _ _ len).
      * destruct o as [a|]; [apply (Hlen a Ho)|exact Hfill].
      * apply (IH i); [exact Hi|lia].
Qed.

(** The bytes of the record of index [i], which is present. *)
Lemma found_present (E : Type) (enc : E -> list Z) (fill : list Z) (len : Z)
      (good : E -> Prop) (L : list (option E)) (i : nat) (e : E) (pos : Z) (r : list Z) :
  Z.of_nat (length fill) = len ->
  (forall o, good o -> Z.of_nat (length (enc o)) = len) ->
  Forall (each good) L ->
  nth_error L i = Some (Some e) ->
  pos = Z.of_nat i * len ->
  found_at (write_each enc fill L ++ r) pos (enc e).
Proof.
  intros Hfill Hlen HL. revert i pos.
  induction HL as [|o L Ho _ IH]; intros i pos Hi ->.
  - destruct i; discriminate Hi.
  - unfold write_each in *. cbn [map concat]. rewrite <- app_assoc.
    destruct i as [|i].
    + injection Hi as ->. apply found_here. lia.
    + apply (found_skip _ _ _ _ len).
      * destruct o as [a|]; [apply (Hlen a Ho)|exact Hfill].
      * apply (IH i); [exact Hi|lia].
Qed.

(** The byte [k] of a chunk that lies at [pos]. *)
Lemma nth_found (img c : list Z) (pos : Z) (k : nat) :
  found_at img pos c -> (k < length c)%nat ->
  nth (Z.to_nat (pos + Z.of_nat k)) img 0 = nth k c 0.
Proof.
  intros (pre & r & -> & <-) Hk.
  replace (Z.to_nat (Z.of_nat (length pre) + Z.of_nat k)) with (length pre + k)%nat by lia.
  rewrite (app_nth2 pre) by lia.
  replace (length pre + k - length pre)%nat with k by lia.
  apply app_nth1. exact Hk.
Qed.

Lemma read_found (d c : list Z) (pos n : Z) :
  found_at d pos c -> Z.of_nat (length c) = n ->
  lsdj_mread (Mem.mk d pos) n = (c, Mem.mk d (pos + n)).
Proof.
  intros (pre & r & -> & <-) Hn.
  change (Mem.mk (pre ++ c ++ r) (Z.of_nat (length pre))) with (at_ pre (c ++ r)).
  rewrite (read_at _ _ _ _ Hn). unfold at_. f_equal. f_equal.
  - rewrite app_assoc. reflexivity.
  - rewrite length_app. lia.
Qed.

Lemma rb_at_found (d : list Z) (pos : Z) : found_at d pos rb -> rb_at d pos = true.
Proof.
  intros (pre & r & -> & <-). unfold rb_at.
  rewrite Nat2Z.id. rewrite (app_nth2 pre) by lia. rewrite Nat.sub_diag.
  replace (Z.to_nat (Z.of_nat (length pre) + 1)) with (length pre + 1)%nat by lia.
  rewrite (app_nth2 pre) by lia.
  replace (length pre + 1 - length pre)%nat with 1%nat by lia.
  reflexivity.
Qed.

Lemma bytes_at_found (d c : list Z) (pos : Z) :
  found_at d pos c -> bytes_at d pos (length c) = c.
Proof.
  intros (pre & r & -> & <-). unfold bytes_at.
  rewrite Nat2Z.id, skipn_app, skipn_all, Nat.sub_diag. cbn [skipn app].
  rewrite firstn_app, firstn_all, Nat.sub_diag. cbn [firstn]. apply app_nil_r.
Qed.

Lemma read1_found (d : list Z) (x pos : Z) :
  found_at d pos [x] ->
  read1 Mem.t lsdj_mread (Mem.mk d pos) = (x, Mem.mk d (pos + 1)).
Proof. intros H. unfold read1. rewrite (read_found d [x] pos 1 H eq_refl). reflexivity. Qed.

Lemma seek_set_mk (m : Mem.t) (off : Z) :
  lsdj_mseek off SEEK_SET m = Mem.mk (data m) off.
Proof. reflexivity. Qed.

(** *** The loops over optional records *)

Lemma read_each_by_at (E : Type) (rdE : E -> Mem.t -> E * Mem.t)
      (enc : E -> list Z) (fill : list Z) (len : Z) (good : E -> Prop) (g g' : E -> E) :
  Z.of_nat (length fill) = len ->
  (forall o, good o -> Z.of_nat (length (enc o)) = len) ->
  (forall o pre r, good o -> rdE (g o) (at_ pre (enc o ++ r)) = (g' o, at_ (pre ++ enc o) r)) ->
  forall (L : list (option E)) (pre r : list Z),
    Forall (fun o => match o with Some e => good e | None => True end) L ->
    read_each_by Mem.t lsdj_mseek rdE len (map (option_map g) L)
                 (at_ pre (write_each enc fill L ++ r))
    = (map (option_map g') L, at_ (pre ++ write_each enc fill L) r).
Proof.
  intros Hfill Hlen Hrd. induction L as [|o L IH]; intros pre r HL.
  - cbn. rewrite app_nil_r. reflexivity.
  - pose proof (Forall_inv HL) as Ho. pose proof (Forall_inv_tail HL) as HL'.
    unfold write_each in *. cbn [map concat read_each_by option_map].
    rewrite <- app_assoc.
    destruct o as [e|]; cbn [option_map].
    + rewrite (Hrd e pre _ Ho). rewrite (IH _ _ HL').
      rewrite <- app_assoc. reflexivity.
    + rewrite (seek_cur_at pre fill _ len Hfill). rewrite (IH _ _ HL').
      rewrite <- app_assoc. reflexivity.
Qed.

Lemma read_each_at (E : Type) (set : E -> list Z -> E)
      (enc : E -> list Z) (fill : list Z) (len : Z) (good : E -> Prop) (g : E -> E) :
  Z.of_nat (length fill) = len ->
  (forall o, good o -> Z.of_nat (length (enc o)) = len) ->
  forall (L : list (option E)) (pre r : list Z),
    Forall (fun o => match o with Some e => good e | None => True end) L ->
    read_each Mem.t lsdj_mread lsdj_mseek set len (map (option_map g) L)
              (at_ pre (write_each enc fill L ++ r))
    = (map (option_map (fun o => set (g o) (enc o))) L, at_ (pre ++ write_each enc fill L) r).
Proof.
  intros Hfill Hlen L pre r HL. unfold read_each.
  apply (read_each_by_at E _ enc fill len good g (fun o => set (g o) (enc o)));
    try assumption.
  intros o pre' r' Ho. rewrite (read_at pre' (enc o) r' len (Hlen o Ho)). reflexivity.
Qed.

Lemma read_all_at (E : Type) (rdE : E -> Mem.t -> E * Mem.t)
      (enc : E -> list Z) (good : E -> Prop) (g g' : E -> E) :
  (forall o pre r, good o -> rdE (g o) (at_ pre (enc o ++ r)) = (g' o, at_ (pre ++ enc o) r)) ->
  forall (L : list E) (pre r : list Z),
    Forall good L ->
    read_all Mem.t rdE (map g L) (at_ pre (concat (map enc L) ++ r))
    = (map g' L, at_ (pre ++ concat (map enc L)) r).
Proof.
  intros Hrd. induction L as [|o L IH]; intros pre r HL.
  - cbn. rewrite app_nil_r. reflexivity.
  - pose proof (Forall_inv HL) as Ho. pose proof (Forall_inv_tail HL) as HL'.
    cbn [map concat read_all]. rewrite <- app_assoc.
    rewrite (Hrd o pre _ Ho). rewrite (IH _ _ HL').
    rewrite <- app_assoc. reflexivity.
Qed.

Lemma read_codes_at (cs orig : list lsdj_command_t) :
  length cs = length orig ->
  forall (pre r : list Z),
    read_codes Mem.t lsdj_mread cs (at_ pre (codes orig ++ r))
    = (map (fun p => mkCommand (command (snd p)) (value (fst p))) (combine cs orig),
       at_ (pre ++ codes orig) r).
Proof.
  revert orig. induction cs as [|c cs IH]; intros [|o orig] Hlen pre r;
    try discriminate Hlen.
  - cbn. rewrite app_nil_r. reflexivity.
  - unfold codes in *. cbn [map app read_codes combine fst snd].
    rewrite read1_at. rewrite (IH orig) by (cbn in Hlen; lia).
    rewrite <- app_assoc. reflexivity.
Qed.

Lemma read_values_at (cs orig : list lsdj_command_t) :
  length cs = length orig ->
  forall (pre r : list Z),
    read_values Mem.t lsdj_mread cs (at_ pre (values orig ++ r))
    = (map (fun p => mkCommand (command (fst p)) (value (snd p))) (combine cs orig),
       at_ (pre ++ values orig) r).
Proof.
  revert orig. induction cs as [|c cs IH]; intros [|o orig] Hlen pre r;
    try discriminate Hlen.
  - cbn. rewrite app_nil_r. reflexivity.
  - unfold values in *. cbn [map app read_values combine fst snd].
    rewrite read1_at. rewrite (IH orig) by (cbn in Hlen; lia).
    rewrite <- app_assoc. reflexivity.
Qed.

(** Codes first and values next give the commands back. *)
Lemma codes_then_values (cs orig : list lsdj_command_t) :
  length cs = length orig ->
  map (fun p => mkCommand (command (fst p)) (value (snd p)))
      (combine (map (fun p => mkCommand (command (snd p)) (value (fst p))) (combine cs orig))
               orig)
  = orig.
Proof.
  revert orig. induction cs as [|c cs IH]; intros [|o orig] Hlen; try discriminate Hlen.
  - reflexivity.
  - cbn [combine map fst snd command value]. rewrite IH by (cbn in Hlen; lia).
    destruct o; reflexivity.
Qed.

(** *** Allocation tables *)

Lemma land_1_testbit (x : Z) (k : nat) :
  negb (Z.land (Z.shiftr x (Z.of_nat k)) 1 =? 0) = Z.testbit x (Z.of_nat k).
Proof.
  change 1 with (Z.ones 1) at 1. rewrite Z.land_ones by lia.
  change (2 ^ 1) with 2. rewrite <- Z.bit0_mod.
  rewrite Z.shiftr_spec by lia. rewrite Z.add_0_l.
  destruct (Z.testbit x (Z.of_nat k)); reflexivity.
Qed.

Lemma length_set_bit (table : list Z) (byte bit : nat) :
  length (set_bit table byte bit) = length table.
Proof.
  unfold set_bit. destruct (Nat.ltb_spec byte (length table)); [|reflexivity].
  rewrite length_app, length_firstn. cbn [length]. rewrite length_skipn. lia.
Qed.

Lemma get_set_bit (table : list Z) (byte bit byte' bit' : nat) :
  (byte < length table)%nat ->
  get_bit (set_bit table byte bit) byte' bit'
  = ((byte' =? byte)%nat && (bit' =? bit)%nat) || get_bit table byte' bit'.
Proof.
  intros Hb. unfold set_bit, get_bit.
  destruct (Nat.ltb_spec byte (length table)); [|lia].
  assert (length (firstn byte table) = byte) as Hf by (apply firstn_length_le; lia).
  destruct (Nat.eqb_spec byte' byte) as [->|Hne].
  - rewrite app_nth2 by lia. rewrite Hf, Nat.sub_diag. cbn [nth andb].
    rewrite Z.lor_spec, Z.shiftl_1_l, Z.pow2_bits_eqb by lia.
    rewrite orb_comm. f_equal.
    destruct (Nat.eqb_spec bit' bit) as [->|Hb'].
    + apply Z.eqb_refl.
    + apply Z.eqb_neq. lia.
  - cbn [andb orb]. f_equal.
    destruct (Nat.lt_ge_cases byte' byte).
    + rewrite app_nth1 by lia. rewrite nth_firstn.
      destruct (Nat.ltb_spec byte' byte); [reflexivity|lia].
    + rewrite app_nth2 by lia. rewrite Hf.
      replace (byte' - byte)%nat with (S (byte' - byte - 1)) by lia.
      cbn [nth]. rewrite nth_skipn. f_equal. lia.
Qed.

Lemma length_pack_bits (byte_of : nat -> nat) (flags : list bool) :
  forall (i : nat) (table : list Z),
    length (pack_bits byte_of i flags table) = length table.
Proof.
  induction flags as [|f tl IH]; intros i table; cbn [pack_bits].
  - reflexivity.
  - rewrite IH. destruct f; [apply length_set_bit|reflexivity].
Qed.

(** The bit of index [j] after the loop: set when the flag is, unless it
    was set before. *)
Lemma get_pack_bits (byte_of : nat -> nat) (n : nat) (j : nat) :
  (forall k, (k < n)%nat -> byte_of k = byte_of j -> (k mod 8 = j mod 8)%nat -> k = j) ->
  forall (flags : list bool) (i : nat) (table : list Z),
    (i + length flags <= n)%nat ->
    (forall k, (k < n)%nat -> (byte_of k < length table)%nat) ->
    get_bit (pack_bits byte_of i flags table) (byte_of j) (j mod 8)
    = ((i <=? j)%nat && (j <? i + length flags)%nat && nth (j - i) flags false)
      || get_bit table (byte_of j) (j mod 8).
Proof.
  intros Hinj. induction flags as [|f tl IH]; intros i table Hn Hb; cbn [pack_bits length].
  - destruct (Nat.leb_spec i j); destruct (Nat.ltb_spec j (i + 0)); try lia; reflexivity.
  - cbn [length] in Hn. rewrite IH.
    2:{ lia. }
    2:{ intros k Hk. destruct f; [rewrite length_set_bit|]; apply Hb; exact Hk. }
    destruct (Nat.eq_dec j i) as [->|Hji].
    + replace (S i <=? i)%nat with false by (symmetry; apply Nat.leb_gt; lia).
      rewrite Nat.leb_refl, Nat.sub_diag. cbn [nth andb orb].
      replace (i <? i + S (length tl))%nat with true by (symmetry; apply Nat.ltb_lt; lia).
      destruct f; cbn [andb orb]; [|reflexivity].
      rewrite get_set_bit by (apply Hb; lia).
      rewrite !Nat.eqb_refl. reflexivity.
    + assert (get_bit (if f then set_bit table (byte_of i) (i mod 8) else table)
                      (byte_of j) (j mod 8)
              = get_bit table (byte_of j) (j mod 8)) as Hsame.
      { destruct f; [|reflexivity].
        rewrite get_set_bit by (apply Hb; lia).
        destruct (Nat.eqb_spec (byte_of j) (byte_of i)) as [e1|]; [|reflexivity].
        destruct (Nat.eqb_spec (j mod 8) (i mod 8)) as [e2|]; [|reflexivity].
        exfalso. apply Hji. symmetry. apply Hinj; [lia|congruence|congruence]. }
      rewrite Hsame. f_equal.
      destruct (Nat.leb_spec (S i) j); destruct (Nat.leb_spec i j); try lia; cbn [andb];
        try reflexivity.
      replace (j - i)%nat with (S (j - S i)) by lia. cbn [nth].
      destruct (Nat.ltb_spec j (S i + length tl));
        destruct (Nat.ltb_spec j (i + S (length tl))); try lia; reflexivity.
Qed.

Lemma get_bit_zeros (n byte bit : nat) : get_bit (repeat 0 n) byte bit = false.
Proof.
  unfold get_bit.
  replace (nth byte (repeat 0 n) 0) with 0.
  - apply Z.bits_0.
  - symmetry. destruct (Nat.lt_ge_cases byte n).
    + apply nth_repeat_lt. assumption.
    + apply nth_overflow. rewrite repeat_length. assumption.
Qed.

Lemma map_nth_seq (A : Type) (d : A) (L : list A) :
  L = map (fun i => nth i L d) (seq 0 (length L)).
Proof.
  apply (nth_ext _ _ d d).
  - rewrite length_map, length_seq. reflexivity.
  - intros i Hi.
    transitivity (nth i (map (fun i => nth i L d) (seq 0 (length L)))
                      ((fun i => nth i L d) 0%nat)).
    + rewrite (map_nth (fun i => nth i L d)). rewrite seq_nth by exact Hi. reflexivity.
    + apply nth_indep. rewrite length_map, length_seq. exact Hi.
Qed.

Lemma map_as_seq (A B : Type) (f : A -> B) (d : A) (L : list A) :
  map f L = map (fun i => f (nth i L d)) (seq 0 (length L)).
Proof. rewrite (map_nth_seq A d L) at 1. apply map_map. Qed.

Lemma alloc_by_bits_alloc_bits (E : Type) (fresh : E) (size count : nat)
      (L : list (option E)) :
  length L = count -> (count <= 8 * size)%nat ->
  alloc_by_bits fresh (alloc_bits size L) count = map (option_map (fun _ => fresh)) L.
Proof.
  intros Hlen Hsize. unfold alloc_by_bits.
  rewrite (map_as_seq _ _ (option_map (fun _ => fresh)) None L), Hlen.
  apply map_ext_in. intros j Hj. apply in_seq in Hj.
  unfold alloc_bit. rewrite land_1_testbit.
  change (Z.testbit (nth (j / 8) (alloc_bits size L) 0) (Z.of_nat (j mod 8)))
    with (get_bit (alloc_bits size L) ((fun i => (i / 8)%nat) j) (j mod 8)).
  unfold alloc_bits.
  rewrite (get_pack_bits (fun i => (i / 8)%nat) count j).
  - rewrite get_bit_zeros, orb_false_r. cbn [Nat.leb andb].
    rewrite length_map, Hlen, Nat.add_0_l, Nat.sub_0_r.
    destruct (Nat.ltb_spec j count); [|lia]. cbn [andb].
    rewrite (nth_indep _ false (@present E None)) by (rewrite length_map; lia).
    rewrite (map_nth (@present E)).
    destruct (nth j L None); reflexivity.
  - intros k Hk Hb Hm.
    rewrite (Nat.div_mod_eq k 8), (Nat.div_mod_eq j 8). congruence.
  - rewrite length_map. lia.
  - intros k Hk. rewrite repeat_length.
    apply Nat.Div0.div_lt_upper_bound. lia.
Qed.

Lemma alloc_by_bytes_alloc_bytes (E : Type) (fresh : E) (size : nat) (L : list (option E)) :
  length L = size ->
  alloc_by_bytes fresh (alloc_bytes size L) size = map (option_map (fun _ => fresh)) L.
Proof.
  intros Hlen. unfold alloc_by_bytes, alloc_bytes.
  rewrite firstn_app, length_map, Hlen, Nat.sub_diag. cbn [firstn].
  rewrite app_nil_r, firstn_all2 by (rewrite length_map; lia).
  rewrite (map_as_seq _ _ (option_map (fun _ => fresh)) None L), Hlen.
  apply map_ext_in. intros j Hj. apply in_seq in Hj.
  rewrite (nth_indep _ 0 ((fun o : option E => if present o then 1 else 0) None))
    by (rewrite length_map; lia).
  rewrite (map_nth (fun o : option E => if present o then 1 else 0)).
  destruct (nth j L None); reflexivity.
Qed.

Lemma check_rb_memory (m : Mem.t) (position : Z) :
  0 <= position ->
  check_rb Mem.t lsdj_mread lsdj_mseek m position
  = (rb_at (data m) position, Mem.mk (data m) (position + 2)).
Proof.
  intros Hp. unfold check_rb, lsdj_mseek, lsdj_mread, Mem.rest, rb_at.
  cbn [Mem.data Mem.cur].
  rewrite !nth_firstn. cbn [Nat.ltb Nat.leb Z.to_nat Pos.to_nat Pos.iter_op Nat.add].
  rewrite !nth_skipn.
  replace (Z.to_nat position + 0)%nat with (Z.to_nat position) by lia.
  replace (Z.to_nat position + 1)%nat with (Z.to_nat (position + 1)) by lia.
  reflexivity.
Qed.

(** *** Sizes of what the writer emits *)

Lemma length_write_each (E : Type) (enc : E -> list Z) (fill : list Z) (len : Z)
      (good : E -> Prop) (L : list (option E)) :
  Z.of_nat (length fill) = len ->
  (forall o, good o -> Z.of_nat (length (enc o)) = len) ->
  Forall (each good) L ->
  Z.of_nat (length (write_each enc fill L)) = Z.of_nat (length L) * len.
Proof.
  intros Hfill Hlen HL. unfold write_each.
  induction HL as [|o L Ho _ IH]; [reflexivity|].
  cbn [map concat length]. rewrite length_app, Nat2Z.inj_add, IH, Nat2Z.inj_succ.
  destruct o as [e|]; [rewrite (Hlen e Ho)|rewrite Hfill]; lia.
Qed.

Lemma length_concat_map (E : Type) (enc : E -> list Z) (len : Z)
      (good : E -> Prop) (L : list E) :
  (forall o, good o -> Z.of_nat (length (enc o)) = len) ->
  Forall good L ->
  Z.of_nat (length (concat (map enc L))) = Z.of_nat (length L) * len.
Proof.
  intros Hlen HL.
  induction HL as [|o L Ho _ IH]; [reflexivity|].
  cbn [map concat length]. rewrite length_app, Nat2Z.inj_add, IH, Nat2Z.inj_succ.
  rewrite (Hlen o Ho). lia.
Qed.

Lemma length_alloc_bytes (E : Type) (size : nat) (L : list (option E)) :
  length (alloc_bytes size L) = size.
Proof.
  unfold alloc_bytes. apply firstn_length_le.
  rewrite length_app, repeat_length. lia.
Qed.

Lemma length_alloc_bits (E : Type) (size : nat) (L : list (option E)) :
  length (alloc_bits size L) = size.
Proof. unfold alloc_bits. rewrite length_pack_bits. apply repeat_length. Qed.

(** *** Maps that give a list back *)

Lemma map_const (A B : Type) (c : B) (L : list A) :
  repeat c (length L) = map (fun _ => c) L.
Proof. induction L as [|a L IH]; [reflexivity|]. cbn. rewrite IH. reflexivity. Qed.

Lemma map_id_on (A : Type) (good : A -> Prop) (f : A -> A) (L : list A) :
  (forall a, good a -> f a = a) -> Forall good L -> map f L = L.
Proof.
  intros Hf HL. induction HL as [|a L Ha _ IH]; [reflexivity|].
  cbn [map]. rewrite IH, (Hf a Ha). reflexivity.
Qed.

Lemma map_option_id_on (A : Type) (good : A -> Prop) (f : A -> A) (L : list (option A)) :
  (forall a, good a -> f a = a) -> Forall (each good) L -> map (option_map f) L = L.
Proof.
  intros Hf HL. apply (map_id_on _ (each good)); [|exact HL].
  intros [a|] Ha; [|reflexivity]. cbn. rewrite (Hf a Ha). reflexivity.
Qed.

Lemma map_option_eta (A : Type) (f : A -> A) (L : list (option A)) :
  (forall a, f a = a) -> map (option_map f) L = L.
Proof.
  intros Hf. induction L as [|[a|] L IH]; cbn [map option_map].
  - reflexivity.
  - rewrite IH, Hf. reflexivity.
  - rewrite IH. reflexivity.
Qed.

(** *** The overwrite locks *)

Lemma read_locks_spec (locks : list Z) (ss : list lsdj_synth_t) :
  forall i : nat,
    (forall k, (k < length ss)%nat ->
               lock_bit locks (i + k) = overwritten (nth k ss zero_synth)) ->
    read_locks locks i (map (fun s => set_overwritten s false) ss) = ss.
Proof.
  induction ss as [|a ss IH]; intros i H; [reflexivity|].
  cbn [map read_locks]. f_equal.
  - pose proof (H 0%nat ltac:(cbn [length]; lia)) as H0.
    rewrite Nat.add_0_r in H0. rewrite H0. cbn [nth]. destruct a; reflexivity.
  - apply IH. intros k Hk. replace (S i + k)%nat with (i + S k)%nat by lia.
    apply (H (S k)). cbn [length]. lia.
Qed.

Lemma read_locks_pack (ss : list lsdj_synth_t) :
  length ss = 16%nat ->
  read_locks (pack_bits (fun i => (1 - i / 8)%nat) 0 (map overwritten ss) (repeat 0 2)) 0
             (map (fun s => set_overwritten s false) ss)
  = ss.
Proof.
  intros Hlen. apply read_locks_spec. intros k Hk. cbn [Nat.add].
  unfold lock_bit. rewrite land_1_testbit.
  change (Z.testbit
            (nth (1 - k / 8)
                 (pack_bits (fun i => (1 - i / 8)%nat) 0 (map overwritten ss) (repeat 0 2)) 0)
            (Z.of_nat (k mod 8)))
    with (get_bit (pack_bits (fun i => (1 - i / 8)%nat) 0 (map overwritten ss) (repeat 0 2))
                  ((fun i => (1 - i / 8)%nat) k) (k mod 8)).
  rewrite (get_pack_bits (fun i => (1 - i / 8)%nat) 16 k).
  - rewrite get_bit_zeros, orb_false_r. cbn [Nat.leb andb].
    rewrite length_map, Hlen, Nat.add_0_l, Nat.sub_0_r.
    destruct (Nat.ltb_spec k 16); [|lia]. cbn [andb].
    rewrite (nth_indep _ false (overwritten zero_synth)) by (rewrite length_map; lia).
    apply (map_nth overwritten).
  - intros j Hj Hb Hm.
    assert (j / 8 < 2)%nat by (apply Nat.Div0.div_lt_upper_bound; lia).
    assert (k / 8 < 2)%nat by (apply Nat.Div0.div_lt_upper_bound; lia).
    rewrite (Nat.div_mod_eq j 8), (Nat.div_mod_eq k 8).
    replace (j / 8)%nat with (k / 8)%nat by lia. rewrite Hm. reflexivity.
  - rewrite length_map. lia.
  - intros j Hj. rewrite repeat_length. cbn [length]. lia.
Qed.

(** *** Records without a presence flag *)

Lemma read_word_at (WORD_LENGTH : Z) (w0 w : lsdj_word_t) (pre r : list Z) :
  word_ok WORD_LENGTH w ->
  read_word WORD_LENGTH Mem.t lsdj_mread w0 (at_ pre (write_word w ++ r))
  = (w, at_ (pre ++ write_word w) r).
Proof.
  intros [Ha Hl]. unfold read_word, write_word. rewrite <- app_assoc.
  rewrite (read_at _ _ _ _ Ha), (read_at _ _ _ _ Hl).
  destruct w. cbn [allophones lengths]. rewrite <- app_assoc. reflexivity.
Qed.

Lemma read_wave_at (w0 w : lsdj_wave_t) (pre r : list Z) :
  wave_ok w ->
  read_wave Mem.t lsdj_mread w0 (at_ pre (wave_data w ++ r))
  = (w, at_ (pre ++ wave_data w) r).
Proof.
  intros Hw. unfold read_wave. rewrite (read_at _ _ _ _ Hw). destruct w. reflexivity.
Qed.

Lemma read_synth_at (x : lsdj_synth_t) (pre r : list Z) :
  synth_ok x ->
  read_soft_synth_parameters Mem.t lsdj_mread zero_synth
                             (at_ pre (write_soft_synth_parameters x ++ r))
  = (set_overwritten x false, at_ (pre ++ write_soft_synth_parameters x) r).
Proof.
  intros Hx. unfold read_soft_synth_parameters, write_soft_synth_parameters.
  rewrite <- app_assoc. cbn [app]. rewrite !read1_at. rewrite (read_at _ _ _ _ Hx).
  unfold set_overwritten. cbn [overwritten zero_synth].
  f_equal. f_equal. rewrite <- !app_assoc. reflexivity.
Qed.

(** *** Command columns: the codes of all records, then the values *)

Lemma read_command_codes_at (E : Type) (get : E -> list lsdj_command_t)
      (put : E -> list lsdj_command_t -> E) (good : E -> Prop) (g : E -> E)
      (fill : list Z) :
  Z.of_nat (length fill) = 16 ->
  (forall o, good o -> length (get o) = 16%nat) ->
  (forall o, length (get (g o)) = 16%nat) ->
  forall (L : list (option E)) (pre r : list Z),
    Forall (each good) L ->
    read_each_by Mem.t lsdj_mseek
                 (fun p u => let '(c, u1) := read_codes Mem.t lsdj_mread (get p) u in
                             (put p c, u1))
                 16 (map (option_map g) L)
                 (at_ pre (write_each (fun e => codes (get e)) fill L ++ r))
    = (map (option_map (with_codes get put g)) L,
       at_ (pre ++ write_each (fun e => codes (get e)) fill L) r).
Proof.
  intros Hfill Hgood Hg L pre r HL.
  apply (read_each_by_at E _ (fun e => codes (get e)) fill 16 good g (with_codes get put g));
    try assumption.
  - intros o Ho. unfold codes. rewrite length_map, (Hgood o Ho). reflexivity.
  - intros o pre' r' Ho.
    rewrite read_codes_at by (rewrite Hg, (Hgood o Ho); reflexivity). reflexivity.
Qed.

Lemma read_command_values_at (E : Type) (get : E -> list lsdj_command_t)
      (put : E -> list lsdj_command_t -> E) (good : E -> Prop) (g : E -> E)
      (fill : list Z) :
  Z.of_nat (length fill) = 16 ->
  (forall o, good o -> length (get o) = 16%nat) ->
  (forall o, length (get (g o)) = 16%nat) ->
  (forall e c, get (put e c) = c) ->
  (forall e c c', put (put e c) c' = put e c') ->
  forall (L : list (option E)) (pre r : list Z),
    Forall (each good) L ->
    read_each_by Mem.t lsdj_mseek
                 (fun p u => let '(c, u1) := read_values Mem.t lsdj_mread (get p) u in
                             (put p c, u1))
                 16 (map (option_map (with_codes get put g)) L)
                 (at_ pre (write_each (fun e => values (get e)) fill L ++ r))
    = (map (option_map (fun o => put (g o) (get o))) L,
       at_ (pre ++ write_each (fun e => values (get e)) fill L) r).
Proof.
  intros Hfill Hgood Hg Hget Hput L pre r HL.
  apply (read_each_by_at E _ (fun e => values (get e)) fill 16 good
                         (with_codes get put g) (fun o => put (g o) (get o)));
    try assumption.
  - intros o Ho. unfold values. rewrite length_map, (Hgood o Ho). reflexivity.
  - intros o pre' r' Ho. unfold with_codes. rewrite Hget.
    assert (length (get (g o)) = length (get o)) as Hsame
        by (rewrite Hg, (Hgood o Ho); reflexivity).
    rewrite read_values_at
      by (rewrite length_map, length_combine, Hsame; apply Nat.min_id).
    rewrite (codes_then_values _ _ Hsame), Hput. reflexivity.
Qed.

(** *** The banks, read from what the writer emitted *)

#[local] Arguments formatVersion {instrument_params} _.
#[local] Arguments tempo {instrument_params} _.
#[local] Arguments transposition {instrument_params} _.
#[local] Arguments rows {instrument_params} _.
#[local] Arguments chains {instrument_params} _.
#[local] Arguments phrases {instrument_params} _.
#[local] Arguments instruments {instrument_params} _.
#[local] Arguments synths {instrument_params} _.
#[local] Arguments waves {instrument_params} _.
#[local] Arguments tables {instrument_params} _.
#[local] Arguments grooves {instrument_params} _.
#[local] Arguments words {instrument_params} _.
#[local] Arguments wordNames {instrument_params} _.
#[local] Arguments bookmarks {instrument_params} _.
#[local] Arguments meta {instrument_params} _.
#[local] Arguments reserved1030 {instrument_params} _.
#[local] Arguments reserved1fba {instrument_params} _.
#[local] Arguments reserved2000 {instrument_params} _.
#[local] Arguments reserved3fbf {instrument_params} _.
#[local] Arguments reserved3fb9 {instrument_params} _.
#[local] Arguments reserved3fc6 {instrument_params} _.
#[local] Arguments reserved5fe0 {instrument_params} _.
#[local] Arguments reserved7ff2 {instrument_params} _.
#[local] Arguments instrument_name {instrument_params} _.
#[local] Arguments params {instrument_params} _.
#[local] Arguments set_instrument_name {instrument_params} _ _.
#[local] Arguments instrument_ok {instrument_params} _.

Tactic Notation "read_bytes" constr(c) constr(n) :=
  (rewrite (read_at _ c _ n) by first [assumption | reflexivity]); cbv beta iota zeta.

Section WriteThenRead.

Variable P : Type.
Variables PHRASE_COUNT WAVE_COUNT : nat.
Variables sizeof_rows WORD_LENGTH : Z.

Lemma read_bank0_at (s t : lsdj_song_t P)
      (gp : lsdj_phrase_t -> lsdj_phrase_t) (gt : lsdj_table_t -> lsdj_table_t)
      (gi : lsdj_instrument_t P -> lsdj_instrument_t P) (gw : lsdj_word_t -> lsdj_word_t)
      (pre r : list Z) :
  song_ok P PHRASE_COUNT WAVE_COUNT sizeof_rows WORD_LENGTH s ->
  phrases t = map (option_map gp) (phrases s) ->
  tables t = map (option_map gt) (tables s) ->
  instruments t = map (option_map gi) (instruments s) ->
  words t = map gw (words s) ->
  read_bank0 P sizeof_rows WORD_LENGTH Mem.t lsdj_mread lsdj_mseek t
             (at_ pre (write_bank0 P s ++ r))
  = (mkSong P (formatVersion t) (tempo t) (transposition t) (rows s) (chains t)
            (map (option_map (fun o => set_notes (gp o) (notes o))) (phrases s))
            (map (option_map (fun o => set_instrument_name (gi o) (instrument_name o)))
                 (instruments s))
            (synths t) (waves t)
            (map (option_map (fun o => set_volumes (gt o) (volumes o))) (tables s))
            (grooves s) (words s) (wordNames s) (bookmarks s) (meta t)
            (reserved1030 s) (reserved1fba s) (reserved2000 t) (reserved3fbf t)
            (reserved3fb9 t) (reserved3fc6 t) (reserved5fe0 t) (reserved7ff2 t),
     at_ (pre ++ write_bank0 P s) r).
Proof.
  intros Hok Hp Ht Hi Hw. destruct Hok. unfold read_bank0, write_bank0.
  rewrite Hp, Ht, Hi, Hw. rewrite <- !app_assoc.
  rewrite (read_each_at _ set_notes notes PHRASE_LENGTH_ZERO PHRASE_LENGTH phrase_ok gp);
    [|reflexivity|intros o H; apply H|assumption].
  cbv beta iota zeta.
  read_bytes (bookmarks s) sizeof_bookmarks.
  read_bytes (reserved1030 s) 96.
  read_bytes (grooves s) sizeof_grooves.
  read_bytes (rows s) sizeof_rows.
  rewrite (read_each_at _ set_volumes volumes TABLE_LENGTH_ZERO TABLE_LENGTH table_ok gt);
    [|reflexivity|intros o H; apply H|assumption].
  cbv beta iota zeta.
  rewrite (read_all_at _ (read_word WORD_LENGTH Mem.t lsdj_mread) write_word
                       (word_ok WORD_LENGTH) gw (fun w => w));
    [|intros o pre' r' Ho; apply read_word_at; exact Ho|assumption].
  cbv beta iota zeta.
  read_bytes (wordNames s) sizeof_wordNames.
  rewrite (seek_cur_at _ rb _ 2 eq_refl).
  rewrite (read_each_at _ set_instrument_name instrument_name EMPTY_INSTRUMENT_NAME
                        INSTRUMENT_NAME_LENGTH instrument_ok gi);
    [|reflexivity|intros o H; apply H|assumption].
  cbv beta iota zeta.
  read_bytes (reserved1fba s) 70.
  rewrite map_id. rewrite <- !app_assoc. reflexivity.
Qed.

Lemma read_bank2_at (s t : lsdj_song_t P)
      (gp : lsdj_phrase_t -> lsdj_phrase_t) (pre r : list Z) :
  song_ok P PHRASE_COUNT WAVE_COUNT sizeof_rows WORD_LENGTH s ->
  phrases t = map (option_map gp) (phrases s) ->
  (forall o, length (commands (gp o)) = 16%nat) ->
  read_bank2 P Mem.t lsdj_mread lsdj_mseek t (at_ pre (write_bank2 P s ++ r))
  = (mkSong P (formatVersion t) (tempo t) (transposition t) (rows t) (chains t)
            (map (option_map (fun o => mkPhrase (notes (gp o)) (phrase_instruments (gp o))
                                                (commands o)))
                 (phrases s))
            (instruments t) (synths t) (waves t) (tables t) (grooves t) (words t)
            (wordNames t) (bookmarks t) (meta t) (reserved1030 t) (reserved1fba t)
            (reserved2000 t) (reserved3fbf t) (reserved3fb9 t) (reserved3fc6 t)
            (reserved5fe0 s) (reserved7ff2 t),
     at_ (pre ++ write_bank2 P s) r).
Proof.
  intros Hok Hp Hg. destruct Hok. unfold read_bank2, write_bank2.
  rewrite Hp. rewrite <- !app_assoc.
  rewrite (read_command_codes_at _ commands
             (fun p c => mkPhrase (notes p) (phrase_instruments p) c)
             phrase_ok gp PHRASE_LENGTH_ZERO);
    [|reflexivity|intros o H; apply H|assumption|assumption].
  cbv beta iota zeta.
  rewrite (read_command_values_at _ commands
             (fun p c => mkPhrase (notes p) (phrase_instruments p) c)
             phrase_ok gp PHRASE_LENGTH_ZERO);
    [|reflexivity|intros o H; apply H|assumption|reflexivity|reflexivity|assumption].
  cbv beta iota zeta.
  read_bytes (reserved5fe0 s) 32.
  rewrite <- !app_assoc. reflexivity.
Qed.

Lemma read_bank3_at (s t : lsdj_song_t P)
      (gp : lsdj_phrase_t -> lsdj_phrase_t) (gv : lsdj_wave_t -> lsdj_wave_t)
      (pre r : list Z) :
  song_ok P PHRASE_COUNT WAVE_COUNT sizeof_rows WORD_LENGTH s ->
  phrases t = map (option_map gp) (phrases s) ->
  waves t = map gv (waves s) ->
  read_bank3 P Mem.t lsdj_mread lsdj_mseek t (at_ pre (write_bank3 P s ++ r))
  = (mkSong P (formatVersion t) (tempo t) (transposition t) (rows t) (chains t)
            (map (option_map (fun o => set_phrase_instruments (gp o) (phrase_instruments o)))
                 (phrases s))
            (instruments t) (synths t) (waves s) (tables t) (grooves t) (words t)
            (wordNames t) (bookmarks t) (meta t) (reserved1030 t) (reserved1fba t)
            (reserved2000 t) (reserved3fbf t) (reserved3fb9 t) (reserved3fc6 t)
            (reserved5fe0 t) (reserved7ff2 s),
     at_ (pre ++ write_bank3 P s) r).
Proof.
  intros Hok Hp Hv. destruct Hok. unfold read_bank3, write_bank3.
  rewrite Hp, Hv. rewrite <- !app_assoc.
  rewrite (read_all_at _ (read_wave Mem.t lsdj_mread) wave_data wave_ok gv (fun w => w));
    [|intros o pre' r' Ho; apply read_wave_at; exact Ho|assumption].
  cbv beta iota zeta.
  rewrite (read_each_at _ set_phrase_instruments phrase_instruments PHRASE_LENGTH_FF
                        PHRASE_LENGTH phrase_ok gp);
    [|reflexivity|intros o H; apply H|assumption].
  cbv beta iota zeta.
  rewrite (seek_cur_at _ rb _ 2 eq_refl).
  read_bytes (reserved7ff2 s) 13.
  rewrite (seek_cur_at _ [formatVersion s] _ 1 eq_refl).
  rewrite map_id. rewrite <- !app_assoc. reflexivity.
Qed.

(** What the song code needs of instrument.c, which is not part of the
    sources: writing an instrument raises no error and gives 16 bytes,
    and reading those bytes into an instrument of the same name gives the
    instrument back. *)
Variable lsdj_read_instrument :
  Mem.t -> Z -> lsdj_instrument_t P -> Error.slot -> lsdj_instrument_t P * Mem.t * Error.slot.
Variable lsdj_write_instrument :
  lsdj_instrument_t P -> Z -> Error.slot -> list Z * Error.slot.

Hypothesis write_instrument_ok :
  forall (i : lsdj_instrument_t P) (v : Z) (e : Error.slot),
    Error.raised e = false -> instrument_ok i ->
    snd (lsdj_write_instrument i v e) = e
    /\ Z.of_nat (length (fst (lsdj_write_instrument i v e))) = 16.

Hypothesis read_written_instrument :
  forall (i i0 : lsdj_instrument_t P) (v : Z) (e e' : Error.slot) (pre r : list Z),
    Error.raised e = false -> Error.raised e' = false -> instrument_ok i ->
    instrument_name i0 = instrument_name i ->
    lsdj_read_instrument (at_ pre (fst (lsdj_write_instrument i v e) ++ r)) v i0 e'
    = (i, at_ (pre ++ fst (lsdj_write_instrument i v e)) r, e').

Lemma write_instruments_ok (v : Z) (e : Error.slot) (L : list (option (lsdj_instrument_t P))) :
  Error.raised e = false -> Forall (each instrument_ok) L ->
  write_instruments P lsdj_write_instrument v L e
  = (write_each (fun i => fst (lsdj_write_instrument i v e)) DEFAULT_INSTRUMENT L, e, false).
Proof.
  intros He HL. induction HL as [|o L Ho _ IH]; [reflexivity|].
  cbn [write_instruments]. unfold write_each in *. cbn [map concat].
  destruct o as [i|].
  - destruct (write_instrument_ok i v e He Ho) as [Hsnd _].
    rewrite (surjective_pairing (lsdj_write_instrument i v e)), Hsnd, He, IH.
    reflexivity.
  - rewrite He, IH. reflexivity.
Qed.

Lemma read_instruments_at (v : Z) (e e' : Error.slot)
      (gi : lsdj_instrument_t P -> lsdj_instrument_t P)
      (L : list (option (lsdj_instrument_t P))) :
  Error.raised e = false -> Error.raised e' = false ->
  (forall o, instrument_name (gi o) = instrument_name o) ->
  Forall (each instrument_ok) L ->
  forall pre r : list Z,
    read_instruments P Mem.t lsdj_read_instrument lsdj_mseek v (map (option_map gi) L)
                     (at_ pre (write_each (fun i => fst (lsdj_write_instrument i v e))
                                          DEFAULT_INSTRUMENT L ++ r)) e'
    = (L,
       at_ (pre ++ write_each (fun i => fst (lsdj_write_instrument i v e))
                              DEFAULT_INSTRUMENT L) r,
       e', false).
Proof.
  intros He He' Hgi HL. induction HL as [|o L Ho _ IH]; intros pre r.
  - cbn. rewrite app_nil_r. reflexivity.
  - unfold write_each in *. cbn [map concat read_instruments option_map].
    rewrite <- app_assoc. destruct o as [i|]; cbn [option_map].
    + rewrite (read_written_instrument i (gi i) v e e' pre _ He He' Ho (Hgi i)).
      rewrite He', IH, <- app_assoc. reflexivity.
    + rewrite (seek_cur_at pre DEFAULT_INSTRUMENT _ 16 eq_refl).
      rewrite He', IH, <- app_assoc. reflexivity.
Qed.

Lemma write_bank1_error (s : lsdj_song_t P) (e : Error.slot) :
  song_ok P PHRASE_COUNT WAVE_COUNT sizeof_rows WORD_LENGTH s ->
  Error.raised e = false ->
  snd (write_bank1 P lsdj_write_instrument s e) = e.
Proof.
  intros Hok He. unfold write_bank1.
  rewrite (write_instruments_ok _ _ _ He (ok_instruments _ _ _ _ _ _ Hok)).
  reflexivity.
Qed.

Lemma read_bank1_at (s t : lsdj_song_t P) (e e' : Error.slot)
      (gc : lsdj_chain_t -> lsdj_chain_t) (gt : lsdj_table_t -> lsdj_table_t)
      (gi : lsdj_instrument_t P -> lsdj_instrument_t P) (pre r : list Z) :
  song_ok P PHRASE_COUNT WAVE_COUNT sizeof_rows WORD_LENGTH s ->
  Error.raised e = false -> Error.raised e' = false ->
  formatVersion t = formatVersion s ->
  chains t = map (option_map gc) (chains s) ->
  instruments t = map (option_map gi) (instruments s) ->
  (forall o, instrument_name (gi o) = instrument_name o) ->
  tables t = map (option_map gt) (tables s) ->
  (forall o, length (commands1 (gt o)) = 16%nat) ->
  (forall o, length (commands2 (gt o)) = 16%nat) ->
  synths t = map (fun _ => zero_synth) (synths s) ->
  read_bank1 P Mem.t lsdj_read_instrument lsdj_mread lsdj_mseek t
             (at_ pre (fst (write_bank1 P lsdj_write_instrument s e) ++ r)) e'
  = (mkSong P (formatVersion t) (tempo s) (transposition s) (rows t)
            (map (option_map (fun o => set_chain_transpositions
                                         (set_chain_phrases (gc o) (chain_phrases o))
                                         (chain_transpositions o)))
                 (chains s))
            (phrases t) (instruments s) (synths s) (waves t)
            (map (option_map (fun o => mkTable (volumes (gt o)) (table_transpositions o)
                                               (commands1 o) (commands2 o)))
                 (tables s))
            (grooves t) (words t) (wordNames t) (bookmarks t) (meta s)
            (reserved1030 t) (reserved1fba t) (reserved2000 s) (reserved3fbf s)
            (reserved3fb9 s) (reserved3fc6 s) (reserved5fe0 t) (reserved7ff2 t),
     at_ (pre ++ fst (write_bank1 P lsdj_write_instrument s e)) r, e').
Proof.
  intros Hok He He' Hv Hc Hi Hgi Ht Hg1 Hg2 Hs. destruct Hok.
  unfold read_bank1, write_bank1.
  rewrite (write_instruments_ok _ _ (instruments s) He ltac:(assumption)).
  cbv beta iota zeta. cbn [fst].
  rewrite Hv, Hc, Hi, Ht, Hs. rewrite <- !app_assoc. cbn [app].
  read_bytes (reserved2000 s) 32.
  rewrite (seek_cur_two _ (alloc_bytes TABLE_ALLOC_TABLE_SIZE (tables s))
                        (alloc_bytes INSTR_ALLOC_TABLE_SIZE (instruments s)));
    [|rewrite length_alloc_bytes; reflexivity|rewrite length_alloc_bytes; reflexivity].
  rewrite (read_each_at _ set_chain_phrases chain_phrases CHAIN_LENGTH_FF CHAIN_LENGTH
                        chain_ok gc);
    [|reflexivity|intros o H; apply H|assumption].
  cbv beta iota zeta.
  rewrite (read_each_at _ set_chain_transpositions chain_transpositions CHAIN_LENGTH_ZERO
                        CHAIN_LENGTH chain_ok
                        (fun o => set_chain_phrases (gc o) (chain_phrases o)));
    [|reflexivity|intros o H; apply H|assumption].
  cbv beta iota zeta.
  rewrite (read_instruments_at _ e e' gi (instruments s) He He' Hgi ltac:(assumption)).
  cbv beta iota zeta.
  rewrite (read_each_at _ set_table_transpositions table_transpositions TABLE_LENGTH_ZERO
                        TABLE_LENGTH table_ok gt);
    [|reflexivity|intros o H; apply H|assumption].
  cbv beta iota zeta.
  rewrite (read_command_codes_at _ commands1
             (fun t c => mkTable (volumes t) (table_transpositions t) c (commands2 t))
             table_ok (fun o => set_table_transpositions (gt o) (table_transpositions o))
             TABLE_LENGTH_ZERO);
    [|reflexivity|intros o H; apply H|intros o; apply Hg1|assumption].
  cbv beta iota zeta.
  rewrite (read_command_values_at _ commands1
             (fun t c => mkTable (volumes t) (table_transpositions t) c (commands2 t))
             table_ok (fun o => set_table_transpositions (gt o) (table_transpositions o))
             TABLE_LENGTH_ZERO);
    [|reflexivity|intros o H; apply H|intros o; apply Hg1|reflexivity|reflexivity
     |assumption].
  cbv beta iota zeta.
  rewrite (read_command_codes_at _ commands2
             (fun t c => mkTable (volumes t) (table_transpositions t) (commands1 t) c)
             table_ok
             (fun o => mkTable (volumes (gt o)) (table_transpositions o) (commands1 o)
                               (commands2 (gt o)))
             TABLE_LENGTH_ZERO);
    [|reflexivity|intros o H; apply H|intros o; apply Hg2|assumption].
  cbv beta iota zeta.
  rewrite (read_command_values_at _ commands2
             (fun t c => mkTable (volumes t) (table_transpositions t) (commands1 t) c)
             table_ok
             (fun o => mkTable (volumes (gt o)) (table_transpositions o) (commands1 o)
                               (commands2 (gt o)))
             TABLE_LENGTH_ZERO);
    [|reflexivity|intros o H; apply H|intros o; apply Hg2|reflexivity|reflexivity
     |assumption].
  cbv beta iota zeta.
  rewrite (seek_cur_at _ rb _ 2 eq_refl).
  rewrite (seek_cur_two _ (alloc_bits PHRASE_ALLOC_TABLE_SIZE (phrases s))
                        (alloc_bits CHAIN_ALLOC_TABLE_SIZE (chains s)));
    [|rewrite length_alloc_bits; reflexivity|rewrite length_alloc_bits; reflexivity].
  rewrite (read_all_at _ (read_soft_synth_parameters Mem.t lsdj_mread)
                       write_soft_synth_parameters synth_ok (fun _ => zero_synth)
                       (fun x => set_overwritten x false));
    [|intros o pre' r' Ho; apply read_synth_at; exact Ho|assumption].
  cbv beta iota zeta.
  rewrite read2_at. cbv beta iota zeta.
  rewrite !read1_at. cbv beta iota zeta.
  rewrite read3_at. cbv beta iota zeta.
  rewrite !read1_at. cbv beta iota zeta.
  rewrite (read_at _ (pack_bits (fun i => (1 - i / 8)%nat) 0 (map overwritten (synths s))
                                (repeat 0 2)) _ 2)
    by (rewrite length_pack_bits; reflexivity).
  cbv beta iota zeta.
  read_bytes (reserved3fc6 s) 58.
  rewrite read_locks_pack by assumption.
  cbn [nth]. destruct (meta s).
  cbn [keyDelay keyRepeat font sync colorSet clone fileChangedFlag powerSave preListen
       totalTime_days totalTime_hours totalTime_minutes workTime_hours workTime_minutes].
  rewrite <- !app_assoc. cbn [app]. reflexivity.
Qed.

(** The counts and sizes that the offsets hard-coded in [lsdj_read_song]
    (0x1E78, 0x2020, 0x3E80, 0x3E82, 0x7FF0, 0x7FFF) and the names of the
    reserved fields leave to song.h. *)
Hypothesis phrase_count : Z.of_nat PHRASE_COUNT = 255.
Hypothesis wave_count : Z.of_nat WAVE_COUNT = 256.
Hypothesis rows_and_words : sizeof_rows + 84 * WORD_LENGTH = 2368.

Ltac element_length H :=
  cbv [phrase_ok table_ok chain_ok instrument_ok synth_ok wave_ok word_ok each
       PHRASE_LENGTH TABLE_LENGTH CHAIN_LENGTH INSTRUMENT_NAME_LENGTH WAVE_LENGTH] in H;
  unfold codes, values, write_word, write_soft_synth_parameters;
  rewrite ?length_map, ?length_app; cbn [length]; lia.

Ltac chunk_length :=
  first
    [ eassumption
    | eapply (length_write_each _ _ _ 16); [reflexivity| |eassumption];
      intros ? H; first [apply write_instrument_ok; assumption | element_length H]
    | eapply (length_write_each _ _ _ 5); [reflexivity| |eassumption];
      intros ? H; element_length H
    | eapply (length_concat_map _ write_word (WORD_LENGTH + WORD_LENGTH)); [|eassumption];
      intros ? H; element_length H
    | eapply (length_concat_map _ _ 16); [|eassumption];
      intros ? H; element_length H
    | rewrite length_alloc_bytes; cbv; reflexivity
    | rewrite length_alloc_bits; cbv; reflexivity
    | rewrite length_pack_bits; cbv; reflexivity
    | match goal with
      | |- Z.of_nat (length (_ :: _)) = _ => cbv; reflexivity
      | |- Z.of_nat (length rb) = _ => cbv; reflexivity
      end ].

Ltac navigate :=
  first [ apply found_here; lia
        | apply found_last; lia
        | eapply found_skip; [chunk_length|navigate] ].

Lemma image_layout (s : lsdj_song_t P) (e : Error.slot) :
  song_ok P PHRASE_COUNT WAVE_COUNT sizeof_rows WORD_LENGTH s ->
  Error.raised e = false ->
  let img := fst (lsdj_write_song P lsdj_write_instrument s e) in
  found_at img 0x1E78 rb
  /\ found_at img 0x2020 (alloc_bytes TABLE_ALLOC_TABLE_SIZE (tables s))
  /\ found_at img 0x2040 (alloc_bytes INSTR_ALLOC_TABLE_SIZE (instruments s))
  /\ found_at img 0x3E80 rb
  /\ found_at img 0x3E82 (alloc_bits PHRASE_ALLOC_TABLE_SIZE (phrases s))
  /\ found_at img 0x3EA2 (alloc_bits CHAIN_ALLOC_TABLE_SIZE (chains s))
  /\ found_at img 0x7FF0 rb
  /\ found_at img 0x7FFF [formatVersion s].
Proof.
  intros Hok He. pose proof Hok as Hok'. destruct Hok'.
  unfold lsdj_write_song, write_bank1.
  rewrite (write_instruments_ok _ _ (instruments s) He ltac:(assumption)).
  cbv beta iota zeta. cbn [fst].
  unfold write_bank0, write_bank2, write_bank3. rewrite <- !app_assoc.
  cbv [CHAIN_COUNT INSTRUMENT_COUNT TABLE_COUNT SYNTH_COUNT WORD_COUNT
       sizeof_bookmarks sizeof_grooves sizeof_wordNames] in *.
  repeat split; navigate.
Qed.

Ltac measure :=
  first [ eapply length_skip; [chunk_length|measure]
        | cbn [length]; lia ].

Lemma image_size (s : lsdj_song_t P) (e : Error.slot) :
  song_ok P PHRASE_COUNT WAVE_COUNT sizeof_rows WORD_LENGTH s ->
  Error.raised e = false ->
  Z.of_nat (length (fst (lsdj_write_song P lsdj_write_instrument s e))) = 0x8000.
Proof.
  intros Hok He. pose proof Hok as Hok'. destruct Hok'.
  unfold lsdj_write_song, write_bank1.
  rewrite (write_instruments_ok _ _ (instruments s) He ltac:(assumption)).
  cbv beta iota zeta. cbn [fst].
  unfold write_bank0, write_bank2, write_bank3. rewrite <- !app_assoc.
  cbv [CHAIN_COUNT INSTRUMENT_COUNT TABLE_COUNT SYNTH_COUNT WORD_COUNT
       sizeof_bookmarks sizeof_grooves sizeof_wordNames] in *.
  measure.
Qed.

Ltac locate :=
  first [ eapply found_absent;
          [cbv; reflexivity| |eassumption|eassumption|lia];
          intros ? H; first [apply write_instrument_ok; assumption | element_length H]
        | eapply found_skip; [chunk_length|locate] ].

(** Where the writer puts the fill of an absent chain, phrase, instrument
    or table. *)
Lemma absent_filled (s : lsdj_song_t P) (e : Error.slot) :
  song_ok P PHRASE_COUNT WAVE_COUNT sizeof_rows WORD_LENGTH s ->
  Error.raised e = false ->
  let img := fst (lsdj_write_song P lsdj_write_instrument s e) in
  (forall i, nth_error (chains s) i = Some None ->
             found_at img (0x2080 + 16 * Z.of_nat i) (repeat 0xFF 16)
             /\ found_at img (0x2880 + 16 * Z.of_nat i) (repeat 0 16))
  /\ (forall i, nth_error (phrases s) i = Some None ->
                found_at img (16 * Z.of_nat i) (repeat 0 16)
                /\ found_at img (0x4000 + 16 * Z.of_nat i) (repeat 0 16)
                /\ found_at img (0x4FF0 + 16 * Z.of_nat i) (repeat 0 16)
                /\ found_at img (0x7000 + 16 * Z.of_nat i) (repeat 0xFF 16))
  /\ (forall i, nth_error (instruments s) i = Some None ->
                found_at img (0x1E7A + 5 * Z.of_nat i) (repeat 0 5)
                /\ found_at img (0x3080 + 16 * Z.of_nat i) DEFAULT_INSTRUMENT)
  /\ (forall i, nth_error (tables s) i = Some None ->
                found_at img (0x1290 + sizeof_rows + 16 * Z.of_nat i) (repeat 0 16)
                /\ found_at img (0x3480 + 16 * Z.of_nat i) (repeat 0 16)
                /\ found_at img (0x3680 + 16 * Z.of_nat i) (repeat 0 16)
                /\ found_at img (0x3880 + 16 * Z.of_nat i) (repeat 0 16)
                /\ found_at img (0x3A80 + 16 * Z.of_nat i) (repeat 0 16)
                /\ found_at img (0x3C80 + 16 * Z.of_nat i) (repeat 0 16)).
Proof.
  intros Hok He. pose proof Hok as Hok'. destruct Hok'.
  unfold lsdj_write_song, write_bank1.
  rewrite (write_instruments_ok _ _ (instruments s) He ltac:(assumption)).
  cbv beta iota zeta. cbn [fst].
  unfold write_bank0, write_bank2, write_bank3. rewrite <- !app_assoc.
  cbv [CHAIN_COUNT INSTRUMENT_COUNT TABLE_COUNT SYNTH_COUNT WORD_COUNT
       sizeof_bookmarks sizeof_grooves sizeof_wordNames] in *.
  split; [|split; [|split]]; intros i Hi; repeat split; locate.
Qed.

Ltac locate_present i t :=
  first [ match goal with
          | |- found_at (write_each ?enc ?fill ?L ++ _) _ _ =>
              eapply (found_present _ enc fill _ _ L i t);
              [cbv; reflexivity| |eassumption|eassumption|lia];
              intros ? H; element_length H
          end
        | eapply found_skip; [chunk_length|locate_present i t] ].

(** Where the writer puts the six columns of a table that is present. *)
Lemma table_written (s : lsdj_song_t P) (e : Error.slot) :
  song_ok P PHRASE_COUNT WAVE_COUNT sizeof_rows WORD_LENGTH s ->
  Error.raised e = false ->
  let img := fst (lsdj_write_song P lsdj_write_instrument s e) in
  forall (i : nat) (t : lsdj_table_t),
    nth_error (tables s) i = Some (Some t) ->
    found_at img (0x1290 + sizeof_rows + 16 * Z.of_nat i) (volumes t)
    /\ found_at img (0x3480 + 16 * Z.of_nat i) (table_transpositions t)
    /\ found_at img (0x3680 + 16 * Z.of_nat i) (codes (commands1 t))
    /\ found_at img (0x3880 + 16 * Z.of_nat i) (values (commands1 t))
    /\ found_at img (0x3A80 + 16 * Z.of_nat i) (codes (commands2 t))
    /\ found_at img (0x3C80 + 16 * Z.of_nat i) (values (commands2 t)).
Proof.
  intros Hok He. pose proof Hok as Hok'. destruct Hok'.
  unfold lsdj_write_song, write_bank1.
  rewrite (write_instruments_ok _ _ (instruments s) He ltac:(assumption)).
  cbv beta iota zeta. cbn [fst].
  unfold write_bank0, write_bank2, write_bank3. rewrite <- !app_assoc.
  cbv [CHAIN_COUNT INSTRUMENT_COUNT TABLE_COUNT SYNTH_COUNT WORD_COUNT
       sizeof_bookmarks sizeof_grooves sizeof_wordNames] in *.
  intros i t Hi. repeat split; locate_present i t.
Qed.

Lemma write_song_banks (s : lsdj_song_t P) (e : Error.slot) :
  fst (lsdj_write_song P lsdj_write_instrument s e)
  = write_bank0 P s ++ fst (write_bank1 P lsdj_write_instrument s e)
    ++ write_bank2 P s ++ write_bank3 P s ++ [].
Proof.
  unfold lsdj_write_song. destruct (write_bank1 P lsdj_write_instrument s e).
  rewrite app_nil_r. reflexivity.
Qed.

Lemma write_song_error (s : lsdj_song_t P) (e : Error.slot) :
  song_ok P PHRASE_COUNT WAVE_COUNT sizeof_rows WORD_LENGTH s ->
  Error.raised e = false ->
  snd (lsdj_write_song P lsdj_write_instrument s e) = e.
Proof.
  intros Hok He. pose proof (write_bank1_error s e Hok He) as H.
  unfold lsdj_write_song. destruct (write_bank1 P lsdj_write_instrument s e).
  exact H.
Qed.

(** *** Sizes of the banks, and of a bank 1 that stopped at an instrument *)

Lemma length_write_bank0 (s : lsdj_song_t P) :
  song_ok P PHRASE_COUNT WAVE_COUNT sizeof_rows WORD_LENGTH s ->
  Z.of_nat (length (write_bank0 P s)) = 0x2000.
Proof.
  intros Hok. pose proof Hok as Hok'. destruct Hok'.
  unfold write_bank0.
  cbv [CHAIN_COUNT INSTRUMENT_COUNT TABLE_COUNT SYNTH_COUNT WORD_COUNT
       sizeof_bookmarks sizeof_grooves sizeof_wordNames] in *.
  measure.
Qed.

Lemma length_write_bank2 (s : lsdj_song_t P) :
  song_ok P PHRASE_COUNT WAVE_COUNT sizeof_rows WORD_LENGTH s ->
  Z.of_nat (length (write_bank2 P s)) = 0x2000.
Proof.
  intros Hok. pose proof Hok as Hok'. destruct Hok'.
  unfold write_bank2.
  cbv [CHAIN_COUNT INSTRUMENT_COUNT TABLE_COUNT SYNTH_COUNT WORD_COUNT
       sizeof_bookmarks sizeof_grooves sizeof_wordNames] in *.
  measure.
Qed.

Lemma length_write_bank3 (s : lsdj_song_t P) :
  song_ok P PHRASE_COUNT WAVE_COUNT sizeof_rows WORD_LENGTH s ->
  Z.of_nat (length (write_bank3 P s)) = 0x2000.
Proof.
  intros Hok. pose proof Hok as Hok'. destruct Hok'.
  unfold write_bank3.
  cbv [CHAIN_COUNT INSTRUMENT_COUNT TABLE_COUNT SYNTH_COUNT WORD_COUNT
       sizeof_bookmarks sizeof_grooves sizeof_wordNames] in *.
  measure.
Qed.

(** The loop over the instruments, whatever [write] does to the error
    slot, as long as each call hands over 16 bytes: it stops after the
    first instrument that leaves an error in the slot. *)
Lemma write_instruments_stop
      (write : lsdj_instrument_t P -> Z -> Error.slot -> list Z * Error.slot)
      (v : Z) (L : list (option (lsdj_instrument_t P))) :
  (forall i e0, Z.of_nat (length (fst (write i v e0))) = 16) ->
  forall e : Error.slot,
    let r := write_instruments P write v L e in
    if snd r
    then Error.raised (snd (fst r)) = true
         /\ exists k, 1 <= k <= Z.of_nat (length L)
                      /\ Z.of_nat (length (fst (fst r))) = 16 * k
    else Z.of_nat (length (fst (fst r))) = 16 * Z.of_nat (length L)
         /\ (Error.raised (snd (fst r)) = false \/ L = [] /\ snd (fst r) = e).
Proof.
  intros Hlen. induction L as [|o L IH]; intros e.
  - cbn. split; [reflexivity|]. right. split; reflexivity.
  - cbn [write_instruments].
    assert (exists b e1,
               match o with
               | Some i => write i v e
               | None => (DEFAULT_INSTRUMENT, e)
               end = (b, e1) /\ Z.of_nat (length b) = 16) as (b & e1 & -> & Hb).
    { destruct o as [i|].
      - exists (fst (write i v e)), (snd (write i v e)).
        split; [apply surjective_pairing|apply Hlen].
      - exists DEFAULT_INSTRUMENT, e. split; reflexivity. }
    destruct (Error.raised e1) eqn:He1.
    + cbn [fst snd]. split; [exact He1|]. exists 1. cbn [length]. lia.
    + specialize (IH e1). cbv zeta in IH.
      destruct (write_instruments P write v L e1) as [[bs e2] r].
      cbn [fst snd] in *. destruct r.
      * destruct IH as [He2 (k & Hk & Hbs)]. split; [exact He2|].
        exists (k + 1). rewrite length_app. cbn [length]. lia.
      * destruct IH as [Hbs He2]. split.
        -- rewrite length_app. cbn [length]. lia.
        -- left. destruct He2 as [He2|[_ ->]]; assumption.
Qed.

Lemma length_write_bank1
      (write : lsdj_instrument_t P -> Z -> Error.slot -> list Z * Error.slot)
      (s : lsdj_song_t P) (e : Error.slot) :
  song_ok P PHRASE_COUNT WAVE_COUNT sizeof_rows WORD_LENGTH s ->
  (forall i v e0, Z.of_nat (length (fst (write i v e0))) = 16) ->
  let r := write_bank1 P write s e in
  if Error.raised (snd r)
  then exists k, 1 <= k <= 64 /\ Z.of_nat (length (fst r)) = 4224 + 16 * k
  else Z.of_nat (length (fst r)) = 0x2000.
Proof.
  intros Hok Hlen.
  pose proof (ok_instrument_count _ _ _ _ _ _ Hok) as Hcount.
  pose proof Hok as Hok'. destruct Hok'.
  unfold write_bank1.
  pose proof (write_instruments_stop write (formatVersion s) (instruments s)
                                     (fun i e0 => Hlen i _ e0) e) as H.
  cbv zeta in H. rewrite Hcount in H.
  destruct (write_instruments P write (formatVersion s) (instruments s) e) as [[b e1] r].
  cbn [fst snd] in H. cbv beta iota zeta.
  cbv [CHAIN_COUNT INSTRUMENT_COUNT TABLE_COUNT SYNTH_COUNT WORD_COUNT
       sizeof_bookmarks sizeof_grooves sizeof_wordNames] in *.
  destruct r.
  - destruct H as [He1 (k & Hk & Hb)]. cbn [fst snd]. rewrite He1.
    exists k. split; [lia|]. measure.
  - destruct H as [Hb [He1|[Hnil _]]].
    + cbn [fst snd]. rewrite He1. rewrite <- !app_assoc. measure.
    + rewrite Hnil in Hcount. discriminate Hcount.
Qed.

Variable fresh_params : P.

Lemma read_written_song (s : lsdj_song_t P) (e e' : Error.slot) :
  song_ok P PHRASE_COUNT WAVE_COUNT sizeof_rows WORD_LENGTH s ->
  Error.raised e = false -> Error.raised e' = false ->
  lsdj_read_song_from_memory P PHRASE_COUNT WAVE_COUNT sizeof_rows WORD_LENGTH
                             fresh_params lsdj_read_instrument
                             (Some (fst (lsdj_write_song P lsdj_write_instrument s e))) e'
  = (Some s, e').
Proof.
  intros Hok He He'.
  destruct (image_layout s e Hok He) as (F1 & F2 & F3 & F4 & F5 & F6 & F7 & F8).
  pose proof (write_song_banks s e) as Himg.
  set (img := fst (lsdj_write_song P lsdj_write_instrument s e)) in *.
  unfold lsdj_read_song_from_memory, lsdj_read_song.
  cbn [Song.read Song.tell Song.seek Song.user_data].
  unfold read_song_with.
  change (lsdj_mtell (Mem.mk img 0)) with 0. cbv beta iota zeta.
  change (0 + 0x1E78) with 0x1E78. change (0 + 0x3E80) with 0x3E80.
  change (0 + 0x7FF0) with 0x7FF0.
  rewrite check_rb_memory by lia. cbn [Mem.data].
  rewrite (rb_at_found _ _ F1). cbn [negb].
  rewrite check_rb_memory by lia. cbn [Mem.data].
  rewrite (rb_at_found _ _ F4). cbn [negb].
  rewrite check_rb_memory by lia. cbn [Mem.data].
  rewrite (rb_at_found _ _ F7). cbn [negb].
  unfold parse_song. rewrite He'.
  change (0 + 0x7FFF) with 0x7FFF. change (0 + 0x2020) with 0x2020.
  change (0 + 0x3E82) with 0x3E82.
  rewrite seek_set_mk. cbn [Mem.data].
  rewrite (read1_found _ _ _ F8). cbv beta iota zeta.
  rewrite seek_set_mk. cbn [Mem.data].
  rewrite (read_found _ _ _ _ F2) by (rewrite length_alloc_bytes; reflexivity).
  cbv beta iota zeta.
  change (0x2020 + Z.of_nat TABLE_ALLOC_TABLE_SIZE) with 0x2040.
  rewrite (read_found _ _ _ _ F3) by (rewrite length_alloc_bytes; reflexivity).
  cbv beta iota zeta.
  rewrite seek_set_mk. cbn [Mem.data].
  rewrite (read_found _ _ _ _ F5) by (rewrite length_alloc_bits; reflexivity).
  cbv beta iota zeta.
  change (0x3E82 + Z.of_nat PHRASE_ALLOC_TABLE_SIZE) with 0x3EA2.
  rewrite (read_found _ _ _ _ F6) by (rewrite length_alloc_bits; reflexivity).
  cbv beta iota zeta.
  rewrite seek_set_mk. cbn [Mem.data].
  change (Mem.mk img 0) with (at_ [] img). rewrite Himg. clear Himg F1 F2 F3 F4 F5 F6 F7 F8.
  clearbody img. clear img.
  pose proof Hok as Hok'. destruct Hok'.
  rewrite (alloc_by_bits_alloc_bits _ fresh_chain CHAIN_ALLOC_TABLE_SIZE CHAIN_COUNT)
    by (first [assumption | cbv; lia]).
  rewrite (alloc_by_bits_alloc_bits _ fresh_phrase PHRASE_ALLOC_TABLE_SIZE PHRASE_COUNT)
    by (first [assumption | unfold PHRASE_ALLOC_TABLE_SIZE; lia]).
  change INSTRUMENT_COUNT with INSTR_ALLOC_TABLE_SIZE.
  rewrite (alloc_by_bytes_alloc_bytes _ (fresh_instrument P fresh_params)
                                      INSTR_ALLOC_TABLE_SIZE) by assumption.
  rewrite (alloc_by_bytes_alloc_bytes _ fresh_table TABLE_ALLOC_TABLE_SIZE) by assumption.
  unfold alloc_song.
  cbn [formatVersion tempo transposition rows chains phrases instruments synths waves
       tables grooves words wordNames bookmarks meta reserved1030 reserved1fba
       reserved2000 reserved3fbf reserved3fb9 reserved3fc6 reserved5fe0 reserved7ff2].
  replace (repeat zero_synth SYNTH_COUNT) with (map (fun _ => zero_synth) (synths s))
    by (rewrite <- map_const; f_equal; assumption).
  replace (repeat (mkWave (zeros 16)) WAVE_COUNT)
    with (map (fun _ => mkWave (zeros 16)) (waves s))
    by (rewrite <- map_const; f_equal; assumption).
  replace (repeat (mkWord (zeros WORD_LENGTH) (zeros WORD_LENGTH)) WORD_COUNT)
    with (map (fun _ => mkWord (zeros WORD_LENGTH) (zeros WORD_LENGTH)) (words s))
    by (rewrite <- map_const; f_equal; assumption).
  match goal with
  | |- context [read_bank0 _ _ _ _ _ _ ?t _] =>
      rewrite (read_bank0_at s t (fun _ => fresh_phrase) (fun _ => fresh_table)
                             (fun _ => fresh_instrument P fresh_params)
                             (fun _ => mkWord (zeros WORD_LENGTH) (zeros WORD_LENGTH))
                             [] _ Hok eq_refl eq_refl eq_refl eq_refl)
  end.
  cbv beta iota zeta.
  cbn [formatVersion tempo transposition rows chains phrases instruments synths waves
       tables grooves words wordNames bookmarks meta reserved1030 reserved1fba
       reserved2000 reserved3fbf reserved3fb9 reserved3fc6 reserved5fe0 reserved7ff2].
  match goal with
  | |- context [read_bank1 _ _ _ _ _ ?t _ _] =>
      rewrite (read_bank1_at s t e e' (fun _ => fresh_chain)
                             (fun o => set_volumes fresh_table (volumes o))
                             (fun o => set_instrument_name (fresh_instrument P fresh_params)
                                                           (instrument_name o))
                             _ _ Hok He He' eq_refl eq_refl eq_refl
                             (fun _ => eq_refl) eq_refl (fun _ => eq_refl)
                             (fun _ => eq_refl) eq_refl)
  end.
  cbv beta iota zeta. rewrite He'.
  cbn [formatVersion tempo transposition rows chains phrases instruments synths waves
       tables grooves words wordNames bookmarks meta reserved1030 reserved1fba
       reserved2000 reserved3fbf reserved3fb9 reserved3fc6 reserved5fe0 reserved7ff2].
  match goal with
  | |- context [read_bank2 _ _ _ _ ?t _] =>
      rewrite (read_bank2_at s t (fun o => set_notes fresh_phrase (notes o)) _ _ Hok
                             eq_refl (fun _ => eq_refl))
  end.
  cbv beta iota zeta.
  cbn [formatVersion tempo transposition rows chains phrases instruments synths waves
       tables grooves words wordNames bookmarks meta reserved1030 reserved1fba
       reserved2000 reserved3fbf reserved3fb9 reserved3fc6 reserved5fe0 reserved7ff2].
  match goal with
  | |- context [read_bank3 _ _ _ _ ?t _] =>
      rewrite (read_bank3_at s t
                 (fun o => mkPhrase (notes (set_notes fresh_phrase (notes o)))
                                    (phrase_instruments (set_notes fresh_phrase (notes o)))
                                    (commands o))
                 (fun _ => mkWave (zeros 16)) _ _ Hok eq_refl eq_refl)
  end.
  cbv beta iota zeta.
  cbn [formatVersion tempo transposition rows chains phrases instruments synths waves
       tables grooves words wordNames bookmarks meta reserved1030 reserved1fba
       reserved2000 reserved3fbf reserved3fb9 reserved3fc6 reserved5fe0 reserved7ff2].
  rewrite (map_option_eta _ _ (chains s)) by (intros []; reflexivity).
  rewrite (map_option_eta _ _ (phrases s)) by (intros []; reflexivity).
  rewrite (map_option_eta _ _ (tables s)) by (intros []; reflexivity).
  destruct s. reflexivity.
Qed.

End WriteThenRead.

End SongFacts.

(** * Main results *)

Import Compression.
Import Examples.

(** C1. Whatever 32 KiB buffer [b] the compressor accepts, the decompressor
    run on the bytes it wrote, from the block they start in, writes exactly
    [b].  Blocks are numbered as both functions number them: block [k]
    lies at [firstBlockPosition + (k - 1) * 512], which is where a jump
    to [k] seeks, so the compressor's stream starts at its [blockOffset].
    The output stream has room for 32 KiB; the "no next block" sentinel is
    none of the values a stream holds after a special-action byte; [fuel]
    bounds the turns of the loops. *)
Theorem compress_decompress_roundtrip
        (NO : Z) (b : list Z) (blockOffset : Z) (w w' : Vio.t) (wc wc' : Z)
        (firstBlockPosition : Z) (o : Vio.t) (rc wc0 : Z) (fuel : nat) :
  ~ (1 <= NO <= 191) -> NO <> 255 ->
  Z.of_nat (length b) = LSDJ_SONG_BYTE_COUNT ->
  0 <= blockOffset <= 191 ->
  Vio.pos w = firstBlockPosition + (blockOffset - 1) * 512 ->
  lsdj_compress b w blockOffset wc = Compressed w' wc' ->
  0 <= Vio.pos o -> Vio.pos o + LSDJ_SONG_BYTE_COUNT <= Vio.size o ->
  32962 <= Z.of_nat fuel ->
  exists st',
    lsdj_decompress NO fuel (mkD (Vio.mk (Vio.buf w') (Vio.pos w)) rc o wc0)
                    firstBlockPosition true = Ok st'
    /\ Vio.write o b = Some (wvio st')
    /\ writeCounter st' = wc0 + LSDJ_SONG_BYTE_COUNT.
Proof.
  intros HNO1 HNO2 Hlen Hbo Hplace Hc Ho0 Ho1 Hfuel.
  unfold LSDJ_SONG_BYTE_COUNT in *.
  assert (b <> []) as Hb by (intros ->; discriminate).
  assert (exists o', Vio.write o b = Some o') as [o' Ho].
  { unfold Vio.write. destruct b as [|x b]; [congruence|].
    destruct (Z.leb_spec 0 (Vio.pos o)); [|lia].
    destruct (Z.leb_spec (Vio.pos o + Z.of_nat (length (x :: b))) (Vio.size o)); [|lia].
    eexists. reflexivity. }
  unfold lsdj_compress in Hc.
  destruct (blockOffset =? LSDJ_BLOCK_COUNT + 1); [discriminate|].
  destruct (Vio.tell w =? -1); [discriminate|].
  apply CompressFacts.compress_loop_stream in Hc; try lia.
  2:{ intros ->. discriminate. }
  destruct Hc as (out & Hpre & Hsize & Hpos0 & Hpos & Hwf & _ & Hstream).
  assert (length (prefix w) = Z.to_nat (Vio.pos w)) as Hlp.
  { unfold prefix. apply firstn_length_le. unfold Vio.size in *. lia. }
  assert (Vio.buf w' = prefix w ++ out ++ skipn (Z.to_nat (Vio.pos w')) (Vio.buf w'))
    as Hbuf.
  { rewrite app_assoc, <- Hpre. unfold prefix. symmetry. apply firstn_skipn. }
  destruct fuel as [|f]; [lia|].
  unfold lsdj_decompress. rewrite RoundTrip.decompress_loop_S.
  cbn [rvio wvio Vio.tell Vio.pos].
  pose (st := mkD (Vio.mk (Vio.buf w') (Vio.pos w)) rc o wc0).
  destruct (RoundTrip.decode_stream NO HNO1 HNO2 firstBlockPosition b blockOffset 0 out
              Hstream st (prefix w) (skipn (Z.to_nat (Vio.pos w')) (Vio.buf w')) o' f f)
    as (st' & Hrun & Hout & Hcount).
  - exact Hbuf.
  - cbn. lia.
  - lia.
  - exact Ho.
  - lia.
  - lia.
  - replace (Z.of_nat (length (prefix w)) - 0) with (Vio.pos w) in Hrun by lia.
    subst st.
    assert (on_block_boundary firstBlockPosition st' = true) as Hboundary.
    { apply AlignFacts.on_block_boundary_true.
      refine (proj1 (AlignFacts.loop_boundary
                       NO firstBlockPosition true (S f)
                       (mkD (Vio.mk (Vio.buf w') (Vio.pos w)) rc o wc0) st' _) _).
      - rewrite RoundTrip.decompress_loop_S. exact Hrun.
      - cbn [rvio Vio.tell Vio.pos]. rewrite Hplace.
        replace (firstBlockPosition + (blockOffset - 1) * 512 - firstBlockPosition)
          with ((blockOffset - 1) * 512) by lia.
        exact (AlignFacts.rem_block_start (blockOffset - 1)). }
    rewrite Hrun. cbn [bind]. rewrite Hboundary.
    pose proof (VioFacts.write_inv _ _ _ Ho) as (Hop & _ & Hne & _).
    specialize (Hne Hb).
    unfold check_size. rewrite Hout. unfold Vio.tell.
    destruct (Z.eqb_spec (Vio.pos o') (-1)); [lia|].
    replace (Vio.pos o' - Vio.pos o) with LSDJ_SONG_BYTE_COUNT
      by (unfold LSDJ_SONG_BYTE_COUNT; lia).
    rewrite Z.eqb_refl. cbn [negb].
    exists st'. split; [reflexivity|]. split; [congruence|].
    rewrite Hcount. cbn. lia.
Qed.

Lemma compress_decompress_roundtrip_witness :
  exists st',
    lsdj_decompress 0xFFFF (Z.to_nat 32962)
                    (mkD (Vio.mk (Vio.buf two_block_stream) 512) 0
                         (Vio.mk (repeat 0 (Z.to_nat 32768)) 0) 0) 0 true = Ok st'
    /\ Vio.write (Vio.mk (repeat 0 (Z.to_nat 32768)) 0) two_block_song = Some (wvio st')
    /\ writeCounter st' = 0 + LSDJ_SONG_BYTE_COUNT.
Proof.
  apply (compress_decompress_roundtrip
           0xFFFF two_block_song 2 (Vio.mk (repeat 0 (Z.to_nat 2048)) 512)
           two_block_stream 0 1024 0 (Vio.mk (repeat 0 (Z.to_nat 32768)) 0) 0 0
           (Z.to_nat 32962)).
  - lia.
  - lia.
  - vm_compute. reflexivity.
  - lia.
  - reflexivity.
  - vm_compute. reflexivity.
  - cbn. lia.
  - vm_compute. discriminate.
  - lia.
Defined.

(** C3 (as amended). One step of the decompressor follows the marker
    protocol: [C0 C0] writes one 0xC0; [C0 X N] with [X <> C0] writes [X]
    [N] times; [E0 E0] writes one 0xE0; [E0 v] with [v] in 0x01..0xBF
    writes nothing and ends the block with [v]: the block leaves the input
    at the end of the 512 bytes it began, and the loop of
    [lsdj_decompress] then seeks it to [anchor + (v - 1) * 512] and goes
    on from there when block jumps are followed, and goes on from the end
    of the block when they are not; [E0 FF] ends the block and the loop;
    any other first byte is written as it is.  The block began at
    [start]; the seeks stay inside the input; the "no next block" value
    of compression.h is not the value the block ends with.  [loop_from]
    is the loop of [lsdj_decompress] entered inside a block: at the start
    of a block it is the loop itself. *)
Theorem step_protocol (NO : Z) (st : dstate) :
  (forall w,
      ahead st [0xC0; 0xC0] -> Vio.write (wvio st) [0xC0] = Some w ->
      lsdj_decompress_step NO st = Ok (consumed st 2 2 w 1, NO))
  /\ (forall x n w,
         ahead st [0xC0; x; n] -> x <> 0xC0 ->
         Vio.write (wvio st) (repeat x (Z.to_nat n)) = Some w ->
         lsdj_decompress_step NO st = Ok (consumed st 3 3 w (Z.of_nat (Z.to_nat n)), NO))
  /\ (forall w,
         ahead st [0xE0; 0xE0] -> Vio.write (wvio st) [0xE0] = Some w ->
         lsdj_decompress_step NO st = Ok (consumed st 2 2 w 1, NO))
  /\ (forall v,
         ahead st [0xE0; v] -> 1 <= v <= 0xBF ->
         lsdj_decompress_step NO st = Ok (consumed st 2 2 (wvio st) 0, v)
         /\ (forall anchor st1,
                0 <= anchor + (v - 1) * 512 <= Vio.size (rvio st1) ->
                after_block anchor true st1 v
                = Ok (Some (moved st1 (anchor + (v - 1) * 512)))
                /\ after_block anchor false st1 v = Ok (Some st1))
         /\ (forall fi fo anchor start,
                v <> NO ->
                0 <= start + LSDJ_BLOCK_SIZE <= Vio.size (rvio st) ->
                0 <= anchor + (v - 1) * 512 <= Vio.size (rvio st) ->
                let jumped := consumed st 2 2 (wvio st) 0 in
                block_from NO (S fi) start st
                = Ok (moved jumped (start + LSDJ_BLOCK_SIZE), v)
                /\ loop_from NO (S fi) fo anchor true start st
                   = decompress_loop NO fo anchor true
                                     (moved jumped (anchor + (v - 1) * 512))
                /\ loop_from NO (S fi) fo anchor false start st
                   = decompress_loop NO fo anchor false
                                     (moved jumped (start + LSDJ_BLOCK_SIZE))))
  /\ (ahead st [0xE0; 0xFF] ->
      lsdj_decompress_step NO st = Ok (consumed st 2 2 (wvio st) 0, 0xFF)
      /\ (forall anchor follow st1, after_block anchor follow st1 0xFF = Ok None)
      /\ (forall fi fo anchor follow start,
             NO <> 0xFF ->
             0 <= start + LSDJ_BLOCK_SIZE <= Vio.size (rvio st) ->
             let ended := consumed st 2 2 (wvio st) 0 in
             block_from NO (S fi) start st
             = Ok (moved ended (start + LSDJ_BLOCK_SIZE), 0xFF)
             /\ loop_from NO (S fi) fo anchor follow start st
                = Ok (moved ended (start + LSDJ_BLOCK_SIZE))))
  /\ (forall b w,
         ahead st [b] -> b <> 0xC0 -> b <> 0xE0 ->
         Vio.write (wvio st) [b] = Some w ->
         lsdj_decompress_step NO st = Ok (consumed st 1 1 w 1, NO))
  /\ (forall f anchor follow,
         decompress_loop NO (S f) anchor follow st
         = loop_from NO f f anchor follow (Vio.tell (rvio st)) st).
Proof.
  split; [intros w; apply StepFacts.step_rle_escape|].
  split; [intros x n w; apply StepFacts.step_rle_run|].
  split; [intros w; apply StepFacts.step_sa_escape|].
  split.
  { intros v Ha Hv.
    assert (lsdj_decompress_step NO st = Ok (consumed st 2 2 (wvio st) 0, v)) as Hstep
        by (apply StepFacts.step_block_index; (assumption || lia)).
    assert (u8 (u8 v - 1) = v - 1) as Hidx.
    { unfold u8. rewrite (Z.mod_small v) by lia. apply Z.mod_small. lia. }
    assert (forall anchor st1,
               0 <= anchor + (v - 1) * 512 <= Vio.size (rvio st1) ->
               after_block anchor true st1 v
               = Ok (Some (moved st1 (anchor + (v - 1) * 512)))
               /\ after_block anchor false st1 v = Ok (Some st1)) as Hafter.
    { intros anchor st1 Hin. unfold after_block.
      destruct (Z.eqb_spec v LSDJ_END_OF_FILE_BLOCK_INDEX) as [e|_];
        [unfold LSDJ_END_OF_FILE_BLOCK_INDEX in e; lia|].
      split; [|reflexivity].
      rewrite Hidx. unfold LSDJ_BLOCK_SIZE.
      rewrite RoundTrip.seek_read_ok by assumption. reflexivity. }
    split; [exact Hstep|]. split; [exact Hafter|].
    intros fi fo anchor start HNO Hend Hjump jumped.
    split; [|split].
    - unfold block_from. cbn [block_loop]. rewrite Hstep. cbn [bind].
      destruct (Z.eqb_spec v NO) as [e|_]; [contradiction|]. cbn [bind].
      rewrite RoundTrip.seek_read_ok by exact Hend. reflexivity.
    - rewrite (RoundTrip.loop_from_index NO fi fo anchor true start st _ v Hstep HNO)
        by exact Hend.
      rewrite (proj1 (Hafter anchor (moved (consumed st 2 2 (wvio st) 0)
                                           (start + LSDJ_BLOCK_SIZE)) Hjump)).
      reflexivity.
    - rewrite (RoundTrip.loop_from_index NO fi fo anchor false start st _ v Hstep HNO)
        by exact Hend.
      rewrite (proj2 (Hafter anchor (moved (consumed st 2 2 (wvio st) 0)
                                           (start + LSDJ_BLOCK_SIZE)) Hjump)).
      reflexivity. }
  split.
  { intros Ha.
    assert (lsdj_decompress_step NO st = Ok (consumed st 2 2 (wvio st) 0, 0xFF)) as Hstep
        by (apply StepFacts.step_block_index; (assumption || lia)).
    split; [exact Hstep|]. split; [intros anchor follow st1; reflexivity|].
    intros fi fo anchor follow start HNO Hend ended.
    split.
    - unfold block_from. cbn [block_loop]. rewrite Hstep. cbn [bind].
      destruct (Z.eqb_spec 0xFF NO) as [e|_]; [congruence|]. cbn [bind].
      rewrite RoundTrip.seek_read_ok by exact Hend. reflexivity.
    - rewrite (RoundTrip.loop_from_index NO fi fo anchor follow start st _ 0xFF Hstep)
        by (congruence || exact Hend).
      reflexivity. }
  split; [intros b w; apply StepFacts.step_literal|].
  intros f anchor follow. apply RoundTrip.decompress_loop_S.
Qed.

Lemma step_protocol_witness :
  lsdj_decompress_step 0xFFFF run_then_jump
  = Ok (consumed run_then_jump 3 3 (Vio.mk ([7; 7; 7; 7] ++ zeros 4) 4) 4, 0xFFFF)
  /\ lsdj_decompress_step 0xFFFF (moved run_then_jump 3)
     = Ok (consumed (moved run_then_jump 3) 2 2 (wvio run_then_jump) 0, 3)
  /\ after_block 0 true (moved run_then_jump 512) 3
     = Ok (Some (moved (moved run_then_jump 512) (0 + (3 - 1) * 512)))
  /\ block_from 0xFFFF 1 0 (moved run_then_jump 3)
     = Ok (moved (consumed (moved run_then_jump 3) 2 2 (wvio run_then_jump) 0)
                 (0 + LSDJ_BLOCK_SIZE), 3)
  /\ loop_from 0xFFFF 1 5 0 true 0 (moved run_then_jump 3)
     = decompress_loop 0xFFFF 5 0 true
                       (moved (consumed (moved run_then_jump 3) 2 2 (wvio run_then_jump) 0)
                              (0 + (3 - 1) * 512)).
Proof.
  pose proof (step_protocol 0xFFFF run_then_jump) as (_ & Hrun & _).
  pose proof (step_protocol 0xFFFF (moved run_then_jump 3)) as (_ & _ & _ & Hjump & _).
  split.
  - apply (Hrun 7 4); [split; [cbn; lia|reflexivity] | lia | reflexivity].
  - destruct (Hjump 3) as (Hstep & Hafter & Hblock);
      [split; [cbn; lia|reflexivity] | lia |].
    split; [exact Hstep|].
    split; [apply (Hafter 0 (moved run_then_jump 512)); vm_compute; split; discriminate|].
    destruct (Hblock 0%nat 5%nat 0 0) as (Hends & Hfollowed & _).
    + lia.
    + vm_compute. split; discriminate.
    + vm_compute. split; discriminate.
    + split; [exact Hends|exact Hfollowed].
Defined.

(** C3, the claim as worded: when block jumps are not followed, the input
    is not moved to the block a jump names.  Here the block that ended on
    a jump to block 3 leaves the input at offset 512, not at
    [0 + (3 - 1) * 512]. *)
Lemma jump_not_followed :
  after_block 0 false (moved run_then_jump 512) 3
  <> Ok (Some (moved (moved run_then_jump 512) (0 + (3 - 1) * 512))).
Proof. vm_compute. intros H. discriminate H. Qed.

(** C4 (as amended). When the loop of the decompressor has reached the
    end-of-stream marker with the input on a block boundary counted from
    the first block, as it is whenever the input began on one, a byte
    count other than 32,768 makes [lsdj_decompress] fail with the size
    error, which reports the count, and 32,768 makes it succeed.  With
    the input off a block boundary the assertion before the size check
    stops the program, whatever the count. *)
Theorem decompress_size_check
        (NO : Z) (fuel : nat) (fbp : Z) (follow : bool) (st st1 : dstate) :
  0 <= Vio.pos (wvio st) ->
  decompress_loop NO fuel fbp follow st = Ok st1 ->
  let written := writeCounter st1 - writeCounter st in
  let on_boundary (s : dstate) := Z.rem (Vio.tell (rvio s) - fbp) LSDJ_BLOCK_SIZE = 0 in
  (on_boundary st -> on_boundary st1)
  /\ (on_boundary st1 -> written <> LSDJ_SONG_BYTE_COUNT ->
      lsdj_decompress NO fuel st fbp follow = Err (size_mismatch written))
  /\ (on_boundary st1 -> written = LSDJ_SONG_BYTE_COUNT ->
      lsdj_decompress NO fuel st fbp follow = Ok st1)
  /\ (~ on_boundary st1 -> lsdj_decompress NO fuel st fbp follow = Aborted).
Proof.
  intros Hpos Hloop written on_boundary.
  pose proof (DecompressFacts.decompress_loop_grows NO fuel fbp follow st st1 Hloop)
    as [Hle Heq].
  split; [exact (proj1 (AlignFacts.loop_boundary NO fbp follow fuel st st1 Hloop))|].
  unfold lsdj_decompress. rewrite Hloop. cbn [bind].
  unfold check_size, Vio.tell.
  destruct (Z.eqb_spec (Vio.pos (wvio st1)) (-1)) as [e|_]; [lia|].
  fold written in Heq. rewrite Heq.
  split; [|split].
  - intros Hb H. apply AlignFacts.on_block_boundary_true in Hb. rewrite Hb.
    destruct (Z.eqb_spec written LSDJ_SONG_BYTE_COUNT); [contradiction|]. reflexivity.
  - intros Hb H. apply AlignFacts.on_block_boundary_true in Hb. rewrite Hb.
    rewrite H, Z.eqb_refl. reflexivity.
  - intros Hb.
    destruct (on_block_boundary fbp st1) eqn:E; [|reflexivity].
    apply AlignFacts.on_block_boundary_true in E. contradiction.
Qed.

Lemma decompress_size_check_witness :
  lsdj_decompress 0xFFFF 2 empty_stream 0 true
  = Err "decompressed size does not line up with 0x8000 bytes (but 0x0)".
Proof.
  destruct (decompress_size_check
              0xFFFF 2 0 true empty_stream
              (mkD (Vio.mk ([0xE0; 0xFF] ++ zeros 510) 512) 2 (Vio.mk (zeros 8) 0) 0))
    as (_ & Hsize & _).
  - cbn. lia.
  - vm_compute. reflexivity.
  - apply Hsize.
    + reflexivity.
    + vm_compute. discriminate.
Defined.

(** C4, the claim as worded: an input that begins three bytes into a
    block and ends at once reaches the end-of-stream marker with no byte
    written, and [lsdj_decompress] does not fail with the size error: the
    assertion stops it with the input at offset 515. *)
Lemma off_boundary_stream_aborts :
  decompress_loop 0xFFFF 2 0 true off_boundary_stream
  = Ok (mkD (Vio.mk (Vio.buf (rvio off_boundary_stream)) 515) 2 (Vio.mk (zeros 8) 0) 0)
  /\ lsdj_decompress 0xFFFF 2 off_boundary_stream 0 true = Aborted
  /\ lsdj_decompress 0xFFFF 2 off_boundary_stream 0 true
     <> Err (size_mismatch 0).
Proof.
  split; [vm_compute; reflexivity|].
  split; [vm_compute; reflexivity|].
  vm_compute. intros H. discriminate H.
Qed.

(** C8. The 16-byte window that closes the input is never taken as a
    default wave: the loop asks for [read + 16 < end].  A buffer of zeros
    closed by the default wave is compressed to runs of zeros followed by
    the sixteen bytes of the wave as literals. *)
Theorem final_default_wave_is_literal :
  next_event LSDJ_DEFAULT_WAVE = ([0x8E], tl LSDJ_DEFAULT_WAVE)
  /\ written_at (lsdj_compress wave_at_end (Vio.mk (zeros 512) 0) 1 0) 384 21
     = Some ([0xC0; 0; 112] ++ LSDJ_DEFAULT_WAVE ++ [0xE0; 0xFF]).
Proof. split; vm_compute; reflexivity. Qed.

(** C10. In a song of format version 8, setting command 1 of table 0,
    step 0, to the command of ordinal 2 succeeds, and the getter then
    returns ordinal 0: it reads the byte at [COMMAND2_OFFSET], not the one
    the setter stored at [COMMAND1_OFFSET]. *)
Theorem get_command1_misses_set (LSDJ_COMMAND_B : Z) :
  let song := Table.blank_song 8 in
  exists song',
    Table.lsdj_table_set_command1 LSDJ_COMMAND_B song 0 0 2 = Some (true, song')
    /\ Table.lsdj_table_get_command1 LSDJ_COMMAND_B song' 0 0 = 0.
Proof.
  intros song.
  assert (Table.lsdj_song_get_format_version song = 8) as Hv by (vm_compute; reflexivity).
  assert (exists song',
             Table.lsdj_table_set_command1 LSDJ_COMMAND_B song 0 0 2 = Some (true, song'))
    as [song' Hset].
  { unfold Table.lsdj_table_set_command1. rewrite Hv. eexists. reflexivity. }
  exists song'. split; [exact Hset|].
  rewrite (TableFacts.get_command1_ignores_set LSDJ_COMMAND_B song song' 0 0 2 true)
    by (try rewrite Hv; (lia || exact Hset)).
  unfold Table.lsdj_table_get_command1. rewrite Hv.
  vm_compute. reflexivity.
Qed.

(** C5. A save held in memory whose two initialization bytes are not 'j'
    and 'k' is refused with the error of the initialization check, and the
    save structure is handed back as it was: no project and no working
    song is read.  With the marker in place the read goes on to the
    projects and the working song. *)
Theorem init_check
        (lsdj_song_t : Type) (lsdj_decompress : list Z -> Z -> Z -> list Z)
        (lsdj_read_song_from_memory : list Z -> Error.slot -> lsdj_song_t * Error.slot)
        (data : list Z) (sav : Sav.lsdj_sav_t lsdj_song_t) (error : Error.slot) :
  Sav.HEADER_START + Sav.sizeof_header <= Z.of_nat (length data) ->
  let j := nth (Z.to_nat (Sav.HEADER_START + 318)) data 0 in
  let k := nth (Z.to_nat (Sav.HEADER_START + 319)) data 0 in
  let read_sav :=
    Sav.lsdj_read_sav_from_memory lsdj_song_t lsdj_decompress lsdj_read_song_from_memory
                                  (Some data) (Some sav) error in
  (j <> 106 \/ k <> 107 ->
   read_sav = Returned (Some sav,
                        Error.lsdj_create_error
                          error "SRAM initialization check wasn't 'jk'"))
  /\ (j = 106 -> k = 107 ->
      read_sav =
        Sav.read_projects_and_song
          lsdj_song_t lsdj_decompress lsdj_read_song_from_memory Mem.t
          Mem.lsdj_mread Mem.lsdj_mseek
          (Mem.mk data (Sav.HEADER_START + Sav.sizeof_header))
          (Sav.header_of_bytes (Sav.slice data Sav.HEADER_START Sav.sizeof_header))
          sav error).
Proof.
  intros Hlen j k read_sav.
  destruct (SavFacts.init_of_memory data) as [Hj Hk]. cbn zeta in Hj, Hk.
  fold j in Hj. fold k in Hk.
  subst read_sav. unfold Sav.lsdj_read_sav_from_memory, Sav.lsdj_read_sav.
  unfold Sav.init_ok.
  rewrite (surjective_pairing
             (Mem.lsdj_mread (Mem.lsdj_mseek Sav.HEADER_START Mem.SEEK_SET (Mem.mk data 0))
                             Sav.sizeof_header)).
  rewrite Hj, Hk.
  split.
  - intros [H|H].
    + destruct (Z.eqb_spec j 106); [contradiction|]. reflexivity.
    + destruct (Z.eqb_spec k 107); [contradiction|]. rewrite andb_false_r. reflexivity.
  - intros -> ->. cbn [Z.eqb Pos.eqb andb negb].
    unfold Mem.lsdj_mread, Mem.lsdj_mseek, Mem.rest, Sav.slice.
    cbn [fst snd Mem.data Mem.cur]. reflexivity.
Qed.

Lemma init_check_witness :
  Sav.lsdj_read_sav_from_memory unit (fun _ _ _ => []) (fun _ e => (tt, e))
                                (Some zero_save) (Some (Sav.mkSav unit [] 0 None))
                                (Some None)
  = Returned (Some (Sav.mkSav unit [] 0 None),
              Some (Some "SRAM initialization check wasn't 'jk'"%string)).
Proof.
  pose proof (init_check unit (fun _ _ _ => []) (fun _ e => (tt, e)) zero_save
                         (Sav.mkSav unit [] 0 None) (Some None)) as H.
  destruct H as [Hbad _].
  - vm_compute. discriminate.
  - apply Hbad. left. vm_compute. discriminate.
Defined.

(** C7. The scan over the 191 blocks does not test the owner byte for
    0xFF.  With thirty-two empty project slots and a table of free blocks,
    the owner byte of block 0 indexes the project array outside its
    bounds.  And when the caller passes an error slot, the scan returns
    after the first block it decompresses: of two blocks owned by the
    projects 0 and 1, only the first is decompressed.  (Songs are
    represented by the index of the block they were decompressed from.) *)
Theorem block_scan_misses_cases :
  songs_after
    (Sav.read_compressed_blocks
       Z song_of_block song_from Mem.t Mem.lsdj_mread Mem.lsdj_mseek
       (Mem.mk (repeat 0xFF 191 ++ repeat 0 (Z.to_nat (191 * 512))) 0)
       empty_projects None) 2
  = None
  /\ songs_after
       (Sav.read_compressed_blocks
          Z song_of_block song_from Mem.t Mem.lsdj_mread Mem.lsdj_mseek
          (Mem.mk ([0; 1] ++ repeat 0 189 ++ repeat 0 (Z.to_nat (191 * 512))) 0)
          empty_projects (Some None)) 2
     = Some [Some 0; None].
Proof. split; vm_compute; reflexivity. Qed.

(** C6. Reading a song from a 32 KiB image starts with the three "rb"
    markers, at 0x1E78, 0x3E80 and 0x7FF0 in this order: the first one that
    is missing ends the read with the error that names its offset and
    without a song; only with all three in place is the song parsed. *)
Theorem rb_markers_checked
        (instrument_params : Type) (PHRASE_COUNT WAVE_COUNT : nat)
        (sizeof_rows WORD_LENGTH : Z) (fresh_params : instrument_params)
        (lsdj_read_instrument :
           Mem.t -> Z -> Song.lsdj_instrument_t instrument_params -> Error.slot ->
           Song.lsdj_instrument_t instrument_params * Mem.t * Error.slot)
        (data : list Z) (error : Error.slot) :
  0x8000 <= Z.of_nat (length data) ->
  let read_song :=
    Song.lsdj_read_song_from_memory instrument_params PHRASE_COUNT WAVE_COUNT sizeof_rows
                                    WORD_LENGTH fresh_params lsdj_read_instrument
                                    (Some data) error in
  let missing (offset : string) :=
    (@None (Song.lsdj_song_t instrument_params),
     Error.lsdj_create_error error ("memory flag 'rb' not found at " ++ offset)%string) in
  (Song.rb_at data 0x1E78 = false -> read_song = missing "0x1E78"%string)
  /\ (Song.rb_at data 0x1E78 = true -> Song.rb_at data 0x3E80 = false ->
      read_song = missing "0x3E80"%string)
  /\ (Song.rb_at data 0x1E78 = true -> Song.rb_at data 0x3E80 = true ->
      Song.rb_at data 0x7FF0 = false ->
      read_song = missing "0x7FF0"%string)
  /\ (Song.rb_at data 0x1E78 = true -> Song.rb_at data 0x3E80 = true ->
      Song.rb_at data 0x7FF0 = true ->
      read_song =
        Song.parse_song instrument_params PHRASE_COUNT WAVE_COUNT sizeof_rows WORD_LENGTH
                        Mem.t fresh_params lsdj_read_instrument
                        Mem.lsdj_mread Mem.lsdj_mseek 0 (Mem.mk data (0x7FF0 + 2)) error).
Proof.
  intros Hlen read_song missing. subst read_song missing.
  unfold Song.lsdj_read_song_from_memory, Song.lsdj_read_song.
  cbn [Song.read Song.tell Song.seek Song.user_data].
  unfold Song.read_song_with, Mem.lsdj_mtell. cbn [Mem.cur].
  rewrite SongFacts.check_rb_memory by lia. cbn [Mem.data].
  rewrite SongFacts.check_rb_memory by lia. cbn [Mem.data].
  rewrite SongFacts.check_rb_memory by lia. cbn [Mem.data].
  change (0 + 0x1E78) with 0x1E78. change (0 + 0x3E80) with 0x3E80.
  change (0 + 0x7FF0) with 0x7FF0.
  repeat split.
  - intros ->. reflexivity.
  - intros -> ->. reflexivity.
  - intros -> -> ->. reflexivity.
  - intros -> -> ->. reflexivity.
Qed.

Lemma rb_markers_checked_witness :
  Song.lsdj_read_song_from_memory
    unit 255 256 1024 16 tt (fun m _ i e => (i, m, e))
    (Some (repeat 0 (Z.to_nat 0x8000))) (Some None)
  = (None, Some (Some "memory flag 'rb' not found at 0x1E78"%string)).
Proof.
  pose proof (rb_markers_checked unit 255 256 1024 16 tt (fun m _ i e => (i, m, e))
                                 (repeat 0 (Z.to_nat 0x8000)) (Some None)) as H.
  destruct H as [Hfirst _].
  - rewrite repeat_length. lia.
  - apply Hfirst. vm_compute. reflexivity.
Defined.

(** C2. A well-formed song that is written with [lsdj_write_song] makes
    an image of 0x8000 bytes, without an error, and [lsdj_read_song] on
    this image gives the song back, field by field.  The counts that are
    left to song.h are those that the offsets of the reader ask for, and
    the two functions of instrument.c are taken to raise no error, to
    write 16 bytes and to read back what was written. *)
Theorem write_read_song_roundtrip
        (instrument_params : Type) (PHRASE_COUNT WAVE_COUNT : nat)
        (sizeof_rows WORD_LENGTH : Z) (fresh_params : instrument_params)
        (lsdj_read_instrument :
           Mem.t -> Z -> Song.lsdj_instrument_t instrument_params -> Error.slot ->
           Song.lsdj_instrument_t instrument_params * Mem.t * Error.slot)
        (lsdj_write_instrument :
           Song.lsdj_instrument_t instrument_params -> Z -> Error.slot ->
           list Z * Error.slot)
        (s : Song.lsdj_song_t instrument_params) (e e' : Error.slot) :
  Z.of_nat PHRASE_COUNT = 255 ->
  Z.of_nat WAVE_COUNT = 256 ->
  sizeof_rows + 84 * WORD_LENGTH = 2368 ->
  (forall i v e,
      Error.raised e = false -> Song.instrument_ok instrument_params i ->
      snd (lsdj_write_instrument i v e) = e
      /\ Z.of_nat (length (fst (lsdj_write_instrument i v e))) = 16) ->
  (forall i i0 v e e' pre r,
      Error.raised e = false -> Error.raised e' = false ->
      Song.instrument_ok instrument_params i ->
      Song.instrument_name instrument_params i0 = Song.instrument_name instrument_params i ->
      lsdj_read_instrument (Mem.at_ pre (fst (lsdj_write_instrument i v e) ++ r)) v i0 e'
      = (i, Mem.at_ (pre ++ fst (lsdj_write_instrument i v e)) r, e')) ->
  Song.song_ok instrument_params PHRASE_COUNT WAVE_COUNT sizeof_rows WORD_LENGTH s ->
  Error.raised e = false ->
  Error.raised e' = false ->
  let written := Song.lsdj_write_song instrument_params lsdj_write_instrument s e in
  Z.of_nat (length (fst written)) = 0x8000
  /\ snd written = e
  /\ Song.lsdj_read_song_from_memory instrument_params PHRASE_COUNT WAVE_COUNT sizeof_rows
                                     WORD_LENGTH fresh_params lsdj_read_instrument
                                     (Some (fst written)) e'
     = (Some s, e').
Proof.
  intros Hp Hw Hr Hwrite Hread Hok He He' written. subst written.
  split; [|split].
  - apply (SongFacts.image_size instrument_params PHRASE_COUNT WAVE_COUNT sizeof_rows
                                WORD_LENGTH lsdj_write_instrument);
      assumption.
  - apply (SongFacts.write_song_error instrument_params PHRASE_COUNT WAVE_COUNT sizeof_rows
                                      WORD_LENGTH lsdj_write_instrument);
      assumption.
  - apply SongFacts.read_written_song; assumption.
Qed.

Lemma demo_write_ok (i : Song.lsdj_instrument_t Z) (v : Z) (e : Error.slot) :
  Error.raised e = false -> Song.instrument_ok Z i ->
  snd (demo_write_instrument i v e) = e
  /\ Z.of_nat (length (fst (demo_write_instrument i v e))) = 16.
Proof. intros _ _. split; reflexivity. Qed.

Lemma demo_read_ok (i i0 : Song.lsdj_instrument_t Z) (v : Z) (e e' : Error.slot)
      (pre r : list Z) :
  Error.raised e = false -> Error.raised e' = false -> Song.instrument_ok Z i ->
  Song.instrument_name Z i0 = Song.instrument_name Z i ->
  demo_read_instrument (Mem.at_ pre (fst (demo_write_instrument i v e) ++ r)) v i0 e'
  = (i, Mem.at_ (pre ++ fst (demo_write_instrument i v e)) r, e').
Proof.
  intros _ _ _ Hname. unfold demo_read_instrument.
  rewrite (SongFacts.read_at pre (fst (demo_write_instrument i v e)) r 16 eq_refl).
  rewrite Hname. destruct i. reflexivity.
Qed.

Lemma demo_song_ok : Song.song_ok Z 255 256 1024 16 demo_song.
Proof.
  split; try reflexivity; unfold demo_song;
    cbn [Song.chains Song.phrases Song.instruments Song.synths Song.waves Song.tables
         Song.words repeat];
    repeat (apply Forall_cons || apply Forall_nil); repeat split.
Qed.

Lemma write_read_song_roundtrip_witness :
  Song.lsdj_read_song_from_memory
    Z 255 256 1024 16 0 demo_read_instrument
    (Some (fst (Song.lsdj_write_song Z demo_write_instrument demo_song None))) None
  = (Some demo_song, None).
Proof.
  apply (write_read_song_roundtrip Z 255 256 1024 16 0 demo_read_instrument
                                   demo_write_instrument demo_song None None).
  - reflexivity.
  - reflexivity.
  - reflexivity.
  - exact demo_write_ok.
  - exact demo_read_ok.
  - exact demo_song_ok.
  - reflexivity.
  - reflexivity.
Defined.

(** C9. In the image that [lsdj_write_song] makes of a well-formed song,
    the region of every absent record holds its fill: sixteen 0xFF for
    the phrases of an absent chain and sixteen 0x00 for its
    transpositions; sixteen 0x00 for the notes, the commands and the
    command values of an absent phrase and sixteen 0xFF for its
    instruments; five 0x00 for the name of an absent instrument and the
    default instrument for its 16 bytes; sixteen 0x00 for each of the six
    columns of an absent table. *)
Theorem absent_entities_written_as_fill
        (instrument_params : Type) (PHRASE_COUNT WAVE_COUNT : nat)
        (sizeof_rows WORD_LENGTH : Z)
        (lsdj_write_instrument :
           Song.lsdj_instrument_t instrument_params -> Z -> Error.slot ->
           list Z * Error.slot)
        (s : Song.lsdj_song_t instrument_params) (e : Error.slot) :
  Z.of_nat PHRASE_COUNT = 255 ->
  Z.of_nat WAVE_COUNT = 256 ->
  sizeof_rows + 84 * WORD_LENGTH = 2368 ->
  (forall i v e,
      Error.raised e = false -> Song.instrument_ok instrument_params i ->
      snd (lsdj_write_instrument i v e) = e
      /\ Z.of_nat (length (fst (lsdj_write_instrument i v e))) = 16) ->
  Song.song_ok instrument_params PHRASE_COUNT WAVE_COUNT sizeof_rows WORD_LENGTH s ->
  Error.raised e = false ->
  let img := fst (Song.lsdj_write_song instrument_params lsdj_write_instrument s e) in
  (forall i, nth_error (Song.chains instrument_params s) i = Some None ->
             Song.bytes_at img (0x2080 + 16 * Z.of_nat i) 16 = repeat 0xFF 16
             /\ Song.bytes_at img (0x2880 + 16 * Z.of_nat i) 16 = repeat 0 16)
  /\ (forall i, nth_error (Song.phrases instrument_params s) i = Some None ->
                Song.bytes_at img (16 * Z.of_nat i) 16 = repeat 0 16
                /\ Song.bytes_at img (0x4000 + 16 * Z.of_nat i) 16 = repeat 0 16
                /\ Song.bytes_at img (0x4FF0 + 16 * Z.of_nat i) 16 = repeat 0 16
                /\ Song.bytes_at img (0x7000 + 16 * Z.of_nat i) 16 = repeat 0xFF 16)
  /\ (forall i, nth_error (Song.instruments instrument_params s) i = Some None ->
                Song.bytes_at img (0x1E7A + 5 * Z.of_nat i) 5 = repeat 0 5
                /\ Song.bytes_at img (0x3080 + 16 * Z.of_nat i) 16 = Song.DEFAULT_INSTRUMENT)
  /\ (forall i, nth_error (Song.tables instrument_params s) i = Some None ->
                Song.bytes_at img (0x1290 + sizeof_rows + 16 * Z.of_nat i) 16 = repeat 0 16
                /\ Song.bytes_at img (0x3480 + 16 * Z.of_nat i) 16 = repeat 0 16
                /\ Song.bytes_at img (0x3680 + 16 * Z.of_nat i) 16 = repeat 0 16
                /\ Song.bytes_at img (0x3880 + 16 * Z.of_nat i) 16 = repeat 0 16
                /\ Song.bytes_at img (0x3A80 + 16 * Z.of_nat i) 16 = repeat 0 16
                /\ Song.bytes_at img (0x3C80 + 16 * Z.of_nat i) 16 = repeat 0 16).
Proof.
  intros Hp Hw Hr Hwrite Hok He img.
  destruct (SongFacts.absent_filled instrument_params PHRASE_COUNT WAVE_COUNT sizeof_rows
                                    WORD_LENGTH lsdj_write_instrument Hwrite Hp Hw Hr
                                    s e Hok He)
    as (Hchains & Hphrases & Hinstruments & Htables).
  fold img in Hchains, Hphrases, Hinstruments, Htables.
  split; [|split; [|split]]; intros i Hi.
  - destruct (Hchains i Hi) as (A & B).
    split; [exact (SongFacts.bytes_at_found _ _ _ A)|exact (SongFacts.bytes_at_found _ _ _ B)].
  - destruct (Hphrases i Hi) as (A & B & C & D).
    repeat split;
      [exact (SongFacts.bytes_at_found _ _ _ A)|exact (SongFacts.bytes_at_found _ _ _ B)
      |exact (SongFacts.bytes_at_found _ _ _ C)|exact (SongFacts.bytes_at_found _ _ _ D)].
  - destruct (Hinstruments i Hi) as (A & B).
    split; [exact (SongFacts.bytes_at_found _ _ _ A)|exact (SongFacts.bytes_at_found _ _ _ B)].
  - destruct (Htables i Hi) as (A & B & C & D & E & F).
    repeat split;
      [exact (SongFacts.bytes_at_found _ _ _ A)|exact (SongFacts.bytes_at_found _ _ _ B)
      |exact (SongFacts.bytes_at_found _ _ _ C)|exact (SongFacts.bytes_at_found _ _ _ D)
      |exact (SongFacts.bytes_at_found _ _ _ E)|exact (SongFacts.bytes_at_found _ _ _ F)].
Qed.

Lemma absent_entities_written_as_fill_witness :
  let img := fst (Song.lsdj_write_song Z demo_write_instrument demo_song None) in
  Song.bytes_at img 0x2090 16 = repeat 0xFF 16
  /\ Song.bytes_at img 0x7010 16 = repeat 0xFF 16
  /\ Song.bytes_at img 0x3090 16 = Song.DEFAULT_INSTRUMENT
  /\ Song.bytes_at img 0x3680 16 = repeat 0 16.
Proof.
  destruct (absent_entities_written_as_fill Z 255 256 1024 16 demo_write_instrument
                                            demo_song None eq_refl eq_refl eq_refl
                                            demo_write_ok demo_song_ok eq_refl)
    as (Hchains & Hphrases & Hinstruments & Htables).
  intros img. split; [|split; [|split]].
  - exact (proj1 (Hchains 1%nat eq_refl)).
  - exact (proj2 (proj2 (proj2 (Hphrases 1%nat eq_refl)))).
  - exact (proj2 (Hinstruments 1%nat eq_refl)).
  - exact (proj1 (proj2 (proj2 (Htables 0%nat eq_refl)))).
Defined.

(** * Further properties *)

(** ** table.c: the accessors of the table columns *)

Module TableCellFacts.

Import Table.

Lemma load_store_same (song : lsdj_song_t) (i v : Z) :
  0 <= i < Z.of_nat (length (bytes song)) -> load (store song i v) i = v.
Proof.
  intros Hi. unfold store, load.
  destruct (Z.leb_spec 0 i); [|lia].
  destruct (Z.ltb_spec i (Z.of_nat (length (bytes song)))); [|lia].
  cbn [andb bytes].
  rewrite app_nth2 by (rewrite firstn_length_le; lia).
  rewrite firstn_length_le by lia. rewrite Nat.sub_diag. reflexivity.
Qed.

Lemma length_store (song : lsdj_song_t) (i v : Z) :
  length (bytes (store song i v)) = length (bytes song).
Proof.
  unfold store.
  destruct (Z.leb_spec 0 i); [|reflexivity].
  destruct (Z.ltb_spec i (Z.of_nat (length (bytes song)))); [|reflexivity].
  cbn [andb bytes]. rewrite length_app, firstn_length_le by lia.
  cbn [length]. rewrite length_skipn. lia.
Qed.

Lemma set_cell_store (c : column) (song : lsdj_song_t) (table step v : Z) :
  set_cell c song table step v
  = if table_index table step <=? CONTENT_LENGTH
    then Some (store song (offset_of c + table_index table step) v)
    else None.
Proof. destruct c; reflexivity. Qed.

Lemma get_cell_load (c : column) (song : lsdj_song_t) (table step : Z) :
  get_cell c song table step
  = if table_index table step <=? CONTENT_LENGTH
    then Some (load song (offset_of c + table_index table step))
    else None.
Proof. destruct c; reflexivity. Qed.

Lemma column_eqb_eq (c c' : column) : column_eqb c c' = true <-> c = c'.
Proof. destruct c, c'; cbn; split; intros H; try reflexivity; discriminate H. Qed.

End TableCellFacts.

(** X1. In a 32 KiB song, setting a cell of the envelope, transposition,
    command-1 value or command-2 value column of a table (table below 32,
    step below 16) succeeds; the getter of that cell then returns the
    value, and every other cell of the four columns, the two command
    columns, the allocation flags and the format version read as they did
    before. *)
Theorem table_cell_set_get
        (LSDJ_COMMAND_B : Z) (c c' : Table.column) (song : Table.lsdj_song_t)
        (table step value table' step' : Z) :
  Z.of_nat (length (Table.bytes song)) = 0x8000 ->
  0 <= table < 32 -> 0 <= step < 16 ->
  0 <= table' < 32 -> 0 <= step' < 16 ->
  exists song',
    Table.set_cell c song table step value = Some song'
    /\ Z.of_nat (length (Table.bytes song')) = 0x8000
    /\ Table.get_cell c' song' table' step'
       = (if Table.column_eqb c c' && (table =? table') && (step =? step')
          then Some value
          else Table.get_cell c' song table' step')
    /\ Table.lsdj_table_get_command1 LSDJ_COMMAND_B song' table' step'
       = Table.lsdj_table_get_command1 LSDJ_COMMAND_B song table' step'
    /\ Table.lsdj_table_get_command2 LSDJ_COMMAND_B song' table' step'
       = Table.lsdj_table_get_command2 LSDJ_COMMAND_B song table' step'
    /\ Table.lsdj_table_is_allocated song' table' = Table.lsdj_table_is_allocated song table'
    /\ Table.lsdj_song_get_format_version song' = Table.lsdj_song_get_format_version song.
Proof.
  intros Hlen Ht Hs Ht' Hs'.
  rewrite TableCellFacts.set_cell_store.
  assert (0 <= Table.table_index table step < 512) as Hi
      by (unfold Table.table_index, Table.LSDJ_TABLE_LENGTH; lia).
  assert (0 <= Table.table_index table' step' < 512) as Hi'
      by (unfold Table.table_index, Table.LSDJ_TABLE_LENGTH; lia).
  destruct (Z.leb_spec (Table.table_index table step) Table.CONTENT_LENGTH) as [_|Hbad];
    [|unfold Table.CONTENT_LENGTH in Hbad; lia].
  eexists. split; [reflexivity|].
  split; [rewrite TableCellFacts.length_store; exact Hlen|].
  split; [|split; [|split; [|split]]].
  - rewrite !TableCellFacts.get_cell_load.
    destruct (Z.leb_spec (Table.table_index table' step') Table.CONTENT_LENGTH) as [_|Hbad];
      [|unfold Table.CONTENT_LENGTH in Hbad; lia].
    destruct (Table.column_eqb c c') eqn:Hc; cbn [andb].
    + apply TableCellFacts.column_eqb_eq in Hc. subst c'.
      destruct (Z.eqb_spec table table') as [->|Hne]; cbn [andb].
      * destruct (Z.eqb_spec step step') as [->|Hne].
        -- rewrite TableCellFacts.load_store_same; [reflexivity|].
           destruct c; cbv [Table.offset_of Table.ENVELOPES_OFFSET
                            Table.TRANSPOSITION_OFFSET Table.COMMAND1_VALUE_OFFSET
                            Table.COMMAND2_VALUE_OFFSET]; lia.
        -- rewrite TableFacts.load_store_other; [reflexivity| |].
           ++ destruct c; cbv [Table.offset_of Table.ENVELOPES_OFFSET
                               Table.TRANSPOSITION_OFFSET Table.COMMAND1_VALUE_OFFSET
                               Table.COMMAND2_VALUE_OFFSET]; lia.
           ++ unfold Table.table_index. lia.
      * rewrite TableFacts.load_store_other; [reflexivity| |].
        -- destruct c; cbv [Table.offset_of Table.ENVELOPES_OFFSET
                            Table.TRANSPOSITION_OFFSET Table.COMMAND1_VALUE_OFFSET
                            Table.COMMAND2_VALUE_OFFSET]; lia.
        -- unfold Table.table_index, Table.LSDJ_TABLE_LENGTH in *. lia.
    + rewrite TableFacts.load_store_other; [reflexivity| |].
      * destruct c'; cbv [Table.offset_of Table.ENVELOPES_OFFSET
                          Table.TRANSPOSITION_OFFSET Table.COMMAND1_VALUE_OFFSET
                          Table.COMMAND2_VALUE_OFFSET]; lia.
      * destruct c, c'; try discriminate Hc;
          cbv [Table.offset_of Table.ENVELOPES_OFFSET
               Table.TRANSPOSITION_OFFSET Table.COMMAND1_VALUE_OFFSET
               Table.COMMAND2_VALUE_OFFSET]; lia.
  - unfold Table.lsdj_table_get_command1, Table.lsdj_song_get_format_version.
    rewrite !TableFacts.load_store_other; [reflexivity| | | | | |];
      destruct c; cbv [Table.offset_of Table.ENVELOPES_OFFSET
                       Table.TRANSPOSITION_OFFSET Table.COMMAND1_VALUE_OFFSET
                       Table.COMMAND2_VALUE_OFFSET Table.COMMAND1_OFFSET
                       Table.COMMAND2_OFFSET]; lia.
  - unfold Table.lsdj_table_get_command2, Table.lsdj_song_get_format_version.
    rewrite !TableFacts.load_store_other; [reflexivity| | | |];
      destruct c; cbv [Table.offset_of Table.ENVELOPES_OFFSET
                       Table.TRANSPOSITION_OFFSET Table.COMMAND1_VALUE_OFFSET
                       Table.COMMAND2_VALUE_OFFSET Table.COMMAND1_OFFSET
                       Table.COMMAND2_OFFSET]; lia.
  - unfold Table.lsdj_table_is_allocated.
    rewrite TableFacts.load_store_other; [reflexivity| |];
      destruct c; cbv [Table.offset_of Table.ENVELOPES_OFFSET
                       Table.TRANSPOSITION_OFFSET Table.COMMAND1_VALUE_OFFSET
                       Table.COMMAND2_VALUE_OFFSET Table.ALLOCATION_TABLE_OFFSET]; lia.
  - unfold Table.lsdj_song_get_format_version.
    rewrite TableFacts.load_store_other; [reflexivity|lia|].
    destruct c; cbv [Table.offset_of Table.ENVELOPES_OFFSET
                     Table.TRANSPOSITION_OFFSET Table.COMMAND1_VALUE_OFFSET
                     Table.COMMAND2_VALUE_OFFSET]; lia.
Qed.

Lemma table_cell_set_get_witness :
  exists song',
    Table.set_cell Table.Transposition (Table.blank_song 4) 3 5 9 = Some song'
    /\ Table.get_cell Table.Transposition song' 3 5 = Some 9
    /\ Table.get_cell Table.Envelope song' 3 5 = Table.get_cell Table.Envelope
                                                   (Table.blank_song 4) 3 5.
Proof.
  destruct (table_cell_set_get 0 Table.Transposition Table.Transposition
                               (Table.blank_song 4) 3 5 9 3 5)
    as (song' & Hset & _ & Hget & _); try lia.
  - unfold Table.blank_song. cbn [Table.bytes].
    rewrite length_app, repeat_length. cbn [length]. lia.
  - destruct (table_cell_set_get 0 Table.Transposition Table.Envelope
                                 (Table.blank_song 4) 3 5 9 3 5)
      as (song'' & Hset' & _ & Hget' & _); try lia.
    + unfold Table.blank_song. cbn [Table.bytes].
      rewrite length_app, repeat_length. cbn [length]. lia.
    + exists song'. split; [exact Hset|]. split; [exact Hget|].
      rewrite Hset in Hset'. injection Hset' as <-. exact Hget'.
Defined.



(** X3. Command 2 of a table cell, set and read back.  In a song of
    format version 8 or later the setter always succeeds and the getter
    returns the command that was set, except for the command of ordinal 1,
    which shares its byte with command B and reads back as B.  In an older
    song command B is refused and the song left as it is, and any other
    command is returned as set. *)
Theorem command2_set_get
        (LSDJ_COMMAND_B : Z) (song : Table.lsdj_song_t) (table step command : Z) :
  Z.of_nat (length (Table.bytes song)) = 0x8000 ->
  0 <= table < 32 -> 0 <= step < 16 -> 0 <= command <= 254 ->
  (8 <= Table.lsdj_song_get_format_version song ->
   exists song',
     Table.lsdj_table_set_command2 LSDJ_COMMAND_B song table step command
     = Some (true, song')
     /\ Table.lsdj_table_get_command2 LSDJ_COMMAND_B song' table step
        = (if (command =? 1) then LSDJ_COMMAND_B else command))
  /\ (Table.lsdj_song_get_format_version song < 8 ->
      if command =? LSDJ_COMMAND_B
      then Table.lsdj_table_set_command2 LSDJ_COMMAND_B song table step command
           = Some (false, song)
      else exists song',
          Table.lsdj_table_set_command2 LSDJ_COMMAND_B song table step command
          = Some (true, song')
          /\ Table.lsdj_table_get_command2 LSDJ_COMMAND_B song' table step = command).
Proof.
  intros Hlen Ht Hs Hc.
  assert (0 <= Table.COMMAND2_OFFSET + Table.table_index table step
          < Z.of_nat (length (Table.bytes song))) as Hin
      by (unfold Table.COMMAND2_OFFSET, Table.table_index, Table.LSDJ_TABLE_LENGTH; lia).
  assert (Table.COMMAND2_OFFSET + Table.table_index table step <> 0x7FFF) as Hne
      by (unfold Table.COMMAND2_OFFSET, Table.table_index, Table.LSDJ_TABLE_LENGTH; lia).
  assert ((Table.table_index table step <=? Table.CONTENT_LENGTH) = true) as Hassert
      by (apply Z.leb_le;
          unfold Table.table_index, Table.LSDJ_TABLE_LENGTH, Table.CONTENT_LENGTH; lia).
  unfold Table.lsdj_table_set_command2, Table.TABLE_SETTER, Table.lsdj_table_get_command2,
    Table.lsdj_song_get_format_version.
  rewrite Hassert.
  split; intros Hv.
  - destruct (Z.leb_spec 8 (Table.load song 0x7FFF)) as [_|]; [|lia].
    eexists. split; [reflexivity|].
    rewrite (TableFacts.load_store_other song _ 0x7FFF) by (assumption || lia).
    destruct (Z.leb_spec 8 (Table.load song 0x7FFF)) as [_|]; [|lia].
    rewrite TableCellFacts.load_store_same by exact Hin.
    unfold u8.
    destruct (Z.eqb_spec command LSDJ_COMMAND_B) as [->|HB].
    + cbn. destruct (Z.eqb_spec LSDJ_COMMAND_B 1) as [->|]; reflexivity.
    + destruct (Z.ltb_spec 1 command).
      * rewrite (Z.mod_small command) by lia. rewrite (Z.mod_small (command + 1)) by lia.
        destruct (Z.ltb_spec 1 (command + 1)); [|lia].
        destruct (Z.eqb_spec command 1); [lia|]. lia.
      * rewrite (Z.mod_small command) by lia.
        destruct (Z.ltb_spec 1 command); [lia|].
        destruct (Z.eqb_spec command 1) as [->|]; reflexivity.
  - destruct (Z.leb_spec 8 (Table.load song 0x7FFF)) as [|_]; [lia|].
    destruct (Z.eqb_spec command LSDJ_COMMAND_B) as [->|HB]; [reflexivity|].
    eexists. split; [reflexivity|].
    rewrite (TableFacts.load_store_other song _ 0x7FFF) by (assumption || lia).
    destruct (Z.leb_spec 8 (Table.load song 0x7FFF)) as [|_]; [lia|].
    rewrite TableCellFacts.load_store_same by exact Hin.
    unfold u8. apply Z.mod_small. lia.
Qed.

Lemma command2_set_get_witness :
  exists song',
    Table.lsdj_table_set_command2 21 (Table.blank_song 8) 0 0 5 = Some (true, song')
    /\ Table.lsdj_table_get_command2 21 song' 0 0 = 5.
Proof.
  destruct (command2_set_get 21 (Table.blank_song 8) 0 0 5) as [Hnew _]; try lia.
  - unfold Table.blank_song. cbn [Table.bytes].
    rewrite length_app, repeat_length. cbn [length]. lia.
  - destruct Hnew as (song' & Hset & Hget).
    + vm_compute. discriminate.
    + exists song'. split; [exact Hset|exact Hget].
Defined.

(** X4. Command 1 of a table cell in a song older than format version 8:
    command B is refused and the song left as it is; any other command is
    stored, and the getter returns it. *)
Theorem command1_set_get_old_format
        (LSDJ_COMMAND_B : Z) (song : Table.lsdj_song_t) (table step command : Z) :
  Z.of_nat (length (Table.bytes song)) = 0x8000 ->
  0 <= table < 32 -> 0 <= step < 16 -> 0 <= command <= 255 ->
  Table.lsdj_song_get_format_version song < 8 ->
  if command =? LSDJ_COMMAND_B
  then Table.lsdj_table_set_command1 LSDJ_COMMAND_B song table step command
       = Some (false, song)
  else exists song',
      Table.lsdj_table_set_command1 LSDJ_COMMAND_B song table step command
      = Some (true, song')
      /\ Table.lsdj_table_get_command1 LSDJ_COMMAND_B song' table step = command.
Proof.
  intros Hlen Ht Hs Hc Hv.
  assert (0 <= Table.COMMAND1_OFFSET + Table.table_index table step
          < Z.of_nat (length (Table.bytes song))) as Hin
      by (unfold Table.COMMAND1_OFFSET, Table.table_index, Table.LSDJ_TABLE_LENGTH; lia).
  assert (Table.COMMAND1_OFFSET + Table.table_index table step <> 0x7FFF) as Hne
      by (unfold Table.COMMAND1_OFFSET, Table.table_index, Table.LSDJ_TABLE_LENGTH; lia).
  assert ((Table.table_index table step <=? Table.CONTENT_LENGTH) = true) as Hassert
      by (apply Z.leb_le;
          unfold Table.table_index, Table.LSDJ_TABLE_LENGTH, Table.CONTENT_LENGTH; lia).
  unfold Table.lsdj_table_set_command1, Table.TABLE_SETTER, Table.lsdj_table_get_command1,
    Table.lsdj_song_get_format_version in *.
  rewrite Hassert.
  destruct (Z.leb_spec 8 (Table.load song 0x7FFF)) as [|_]; [lia|].
  destruct (Z.eqb_spec command LSDJ_COMMAND_B) as [->|HB]; [reflexivity|].
  eexists. split; [reflexivity|].
  rewrite (TableFacts.load_store_other song _ 0x7FFF) by (assumption || lia).
  destruct (Z.leb_spec 8 (Table.load song 0x7FFF)) as [|_]; [lia|].
  rewrite TableCellFacts.load_store_same by exact Hin.
  unfold u8. apply Z.mod_small. lia.
Qed.

Lemma command1_set_get_old_format_witness :
  exists song',
    Table.lsdj_table_set_command1 21 (Table.blank_song 4) 2 3 5 = Some (true, song')
    /\ Table.lsdj_table_get_command1 21 song' 2 3 = 5.
Proof.
  pose proof (command1_set_get_old_format 21 (Table.blank_song 4) 2 3 5) as H.
  change (5 =? 21) with false in H. cbv iota in H.
  apply H; try lia.
  - unfold Table.blank_song. cbn [Table.bytes].
    rewrite length_app, repeat_length. cbn [length]. lia.
  - vm_compute. reflexivity.
Defined.

(** ** compression.c: what the compressor leaves in the stream *)

Module BlockFacts.

Import Compression.

(** A stream that starts at offset [size] of block [block] ends on a
    block boundary, within the 191 blocks. *)
Lemma stream_blocks (rest : list Z) (block size : Z) (out : list Z) :
  stream rest block size out ->
  0 <= size -> block <= 191 ->
  exists k, 1 <= k /\ block + k <= 192 /\ size + Z.of_nat (length out) = k * 512.
Proof.
  induction 1 as [block size Hsize
                 |ev used rest block size out Henc Hs Hfit Hstream IH
                 |rest block size out Hsize Hb Hroom Hstream IH];
    intros H0 Hblock.
  - exists 1. rewrite length_app, Nat2Z.inj_add, CompressFacts.length_zeros.
    cbn [length]. unfold LSDJ_BLOCK_SIZE. lia.
  - destruct IH as (k & Hk & Hkb & Hlen); [lia|lia|].
    exists k. rewrite length_app. lia.
  - unfold LSDJ_BLOCK_COUNT in Hroom.
    destruct IH as (k & Hk & Hkb & Hlen); [lia|lia|].
    exists (k + 1). rewrite !length_app, !Nat2Z.inj_add, CompressFacts.length_zeros.
    cbn [length]. unfold LSDJ_BLOCK_SIZE. lia.
Qed.

(** A write changes nothing before the cursor it starts at and nothing
    after the cursor it ends at. *)
Lemma cwrite_outside (w w1 : Vio.t) (wc wc1 : Z) (l : list Z) (a b : nat) :
  cwrite w wc l = Some (w1, wc1) ->
  Z.of_nat a <= Vio.pos w -> Vio.pos w1 <= Z.of_nat b ->
  firstn a (Vio.buf w1) = firstn a (Vio.buf w)
  /\ skipn b (Vio.buf w1) = skipn b (Vio.buf w).
Proof.
  unfold cwrite, Vio.write. destruct l as [|x l].
  - intros H _ _. inversion H; subst. split; reflexivity.
  - remember (x :: l) as xl eqn:Exl.
    destruct (Z.leb_spec 0 (Vio.pos w)) as [H0|]; [|discriminate].
    destruct (Z.leb_spec (Vio.pos w + Z.of_nat (length xl)) (Vio.size w)) as [H1|];
      [|discriminate].
    cbn [andb]. intros H Ha Hb. inversion H; subst w1 wc1; clear H.
    unfold Vio.size in H1. cbn [Vio.buf Vio.pos] in *.
    assert (length (firstn (Z.to_nat (Vio.pos w)) (Vio.buf w)) = Z.to_nat (Vio.pos w)) as Hf
        by (apply firstn_length_le; lia).
    split.
    + rewrite firstn_app, Hf.
      replace (a - Z.to_nat (Vio.pos w))%nat with 0%nat by lia.
      cbn [firstn]. rewrite app_nil_r, firstn_firstn.
      f_equal. lia.
    + rewrite app_assoc, skipn_app.
      rewrite skipn_all2 by (rewrite length_app, Hf; lia).
      rewrite length_app, Hf. cbn [app].
      rewrite skipn_skipn. f_equal. lia.
Qed.

End BlockFacts.

(** X5. A compression that succeeds on a song that is not empty writes
    whole blocks: the stream has moved forward by a multiple of 512
    bytes, at least one block and no more than the blocks from
    [blockOffset] to the last; the write counter has grown by the same
    amount, and what the stream held before its cursor is as it was. *)
Theorem compress_writes_whole_blocks
        (b : list Z) (w : Vio.t) (blockOffset wc : Z) (w' : Vio.t) (wc' : Z) :
  b <> [] -> 0 <= blockOffset <= 191 ->
  lsdj_compress b w blockOffset wc = Compressed w' wc' ->
  exists k,
    1 <= k <= 192 - blockOffset
    /\ Vio.pos w' = Vio.pos w + k * 512
    /\ wc' = wc + k * 512
    /\ Vio.size w' = Vio.size w
    /\ Vio.pos w' <= Vio.size w'
    /\ firstn (Z.to_nat (Vio.pos w)) (Vio.buf w') = firstn (Z.to_nat (Vio.pos w)) (Vio.buf w).
Proof.
  intros Hb Hoff Hc. unfold lsdj_compress in Hc.
  destruct (blockOffset =? LSDJ_BLOCK_COUNT + 1); [discriminate|].
  destruct (Vio.tell w =? -1); [discriminate|].
  apply CompressFacts.compress_loop_stream in Hc; try lia.
  2:{ intros ->. congruence. }
  destruct Hc as (out & Hpre & Hsize & Hpos0 & Hpos & Hwf & Hwc & Hstream).
  destruct (BlockFacts.stream_blocks _ _ _ _ Hstream) as (k & Hk & Hkb & Hlen); try lia.
  exists k. repeat split; try lia.
  unfold prefix in Hpre.
  assert (length (firstn (Z.to_nat (Vio.pos w)) (Vio.buf w)) = Z.to_nat (Vio.pos w)) as Hf
      by (apply firstn_length_le; unfold Vio.size in *; lia).
  replace (firstn (Z.to_nat (Vio.pos w)) (Vio.buf w'))
    with (firstn (Z.to_nat (Vio.pos w)) (firstn (Z.to_nat (Vio.pos w')) (Vio.buf w')))
    by (rewrite firstn_firstn; f_equal; lia).
  rewrite Hpre, firstn_app, Hf, Nat.sub_diag. cbn [firstn].
  rewrite app_nil_r, firstn_firstn. f_equal. lia.
Qed.

Lemma compress_writes_whole_blocks_witness :
  exists k,
    1 <= k <= 192 - 2
    /\ Vio.pos two_block_stream = 512 + k * 512
    /\ 1024 = 0 + k * 512.
Proof.
  destruct (compress_writes_whole_blocks
              two_block_song (Vio.mk (repeat 0 (Z.to_nat 2048)) 512) 2 0
              two_block_stream 1024)
    as (k & Hk & Hpos & Hwc & _).
  - discriminate.
  - lia.
  - vm_compute. reflexivity.
  - exists k. split; [exact Hk|]. split; [exact Hpos|exact Hwc].
Defined.

Module RollBackFacts.

Import Compression.

Lemma roll_back_spec (w : Vio.t) (wc ws : Z) (w' : Vio.t) (wc' : Z) :
  roll_back w wc ws = RolledBack w' wc' ->
  0 <= ws < Vio.pos w ->
  Vio.pos w' = ws
  /\ Vio.pos w <= Vio.size w
  /\ wc' = wc + (Vio.pos w - ws)
  /\ Vio.buf w'
     = firstn (Z.to_nat ws) (Vio.buf w) ++ zeros (Vio.pos w - ws)
       ++ skipn (Z.to_nat (Vio.pos w)) (Vio.buf w).
Proof.
  unfold roll_back, Vio.tell. intros H Hws.
  destruct (Vio.seek w ws) as [w1|] eqn:E1; [|discriminate].
  destruct (cwrite w1 wc (zeros (Vio.pos w - ws))) as [[w2 wc2]|] eqn:E2; [|discriminate].
  destruct (Vio.seek w2 ws) as [w3|] eqn:E3; [|discriminate].
  inversion H; subst w3 wc2; clear H.
  unfold Vio.seek in E1, E3.
  destruct ((0 <=? ws) && (ws <=? Vio.size w)); [|discriminate].
  destruct ((0 <=? ws) && (ws <=? Vio.size w2)); [|discriminate].
  inversion E1; subst w1; clear E1. inversion E3; subst w'; clear E3.
  cbn [Vio.pos Vio.buf].
  pose proof (CompressFacts.length_zeros (Vio.pos w - ws)) as L.
  unfold cwrite, Vio.write in E2.
  destruct (zeros (Vio.pos w - ws)) as [|z zs] eqn:Ez; [cbn [length] in L; lia|].
  cbn [Vio.pos Vio.buf] in E2. unfold Vio.size in E2. cbn [Vio.buf] in E2.
  destruct (Z.leb_spec 0 ws); [|lia].
  destruct (Z.leb_spec (ws + Z.of_nat (length (z :: zs))) (Z.of_nat (length (Vio.buf w))))
    as [Hfit|]; [|discriminate].
  cbn [andb] in E2. inversion E2; subst w2 wc'; clear E2.
  cbn [Vio.buf]. unfold Vio.size. cbn [length] in L, Hfit.
  repeat split; try lia.
  change ((z :: zs) ++ skipn (Z.to_nat (Vio.pos w)) (Vio.buf w))
    with (z :: zs ++ skipn (Z.to_nat (Vio.pos w)) (Vio.buf w)).
  do 4 f_equal. lia.
Qed.

(** The loop of the compressor, when it ends in a roll back: [E] is the
    end of the last block. *)
Lemma compress_loop_rolled (fuel : nat) (ws : Z) :
  forall (rest : list Z) (cb cbs : Z) (w : Vio.t) (wc : Z) (w' : Vio.t) (wc' : Z),
    compress_loop fuel ws rest cb cbs w wc = RolledBack w' wc' ->
    0 <= cbs <= 509 -> 0 <= cb <= 191 -> 0 <= ws <= Vio.pos w ->
    let E := Vio.pos w - cbs + (192 - cb) * 512 in
    Vio.pos w' = ws
    /\ E <= Vio.size w
    /\ wc' = wc + (E - Vio.pos w) + (E - ws)
    /\ Vio.buf w'
       = firstn (Z.to_nat ws) (Vio.buf w) ++ zeros (E - ws)
         ++ skipn (Z.to_nat E) (Vio.buf w).
Proof.
  assert (forall cbs w wc w' wc', finish cbs w wc <> RolledBack w' wc') as Hfinish.
  { intros cbs w wc w' wc'. unfold finish.
    destruct (cwrite w wc _) as [[w1 wc1]|]; [|discriminate].
    destruct (cwrite w1 wc1 _) as [[w2 wc2]|]; [|discriminate].
    destruct (0 <? cbs); [|discriminate].
    destruct (cwrite w2 wc2 _) as [[w3 wc3]|]; discriminate. }
  induction fuel as [|f IH]; intros rest cb cbs w wc w' wc' H Hcbs Hcb Hws E.
  - destruct rest as [|x tl]; cbn [compress_loop] in H; [|discriminate].
    exfalso. eapply Hfinish. exact H.
  - destruct rest as [|x tl]; cbn [compress_loop] in H.
    { exfalso. eapply Hfinish. exact H. }
    destruct (next_event (x :: tl)) as [ev rest'] eqn:Ev.
    apply CompressFacts.next_event_encodes in Ev; [|discriminate].
    destruct Ev as (used & _ & _ & _ & Hlen).
    destruct (Z.leb_spec LSDJ_BLOCK_SIZE (cbs + Z.of_nat (length ev) + 2)) as [Hjump|Hfit].
    + destruct (cwrite w wc [SPECIAL_ACTION_BYTE]) as [[w1 wc1]|] eqn:E1; [|discriminate].
      destruct (cwrite w1 wc1 [u8 (u32 (cb + 1))]) as [[w2 wc2]|] eqn:E2; [|discriminate].
      destruct (cwrite w2 wc2 (zeros (LSDJ_BLOCK_SIZE - (cbs + 2)))) as [[w3 wc3]|] eqn:E3;
        [|discriminate].
      destruct (negb (Z.max (cbs + 2) LSDJ_BLOCK_SIZE =? LSDJ_BLOCK_SIZE)); [discriminate|].
      assert (u32 (cb + 1) = cb + 1) as Hu32 by (unfold u32; apply Z.mod_small; lia).
      rewrite Hu32 in *.
      pose proof (CompressFacts.length_zeros (LSDJ_BLOCK_SIZE - (cbs + 2))) as L.
      unfold LSDJ_BLOCK_SIZE in L, Hjump.
      pose proof (BlockFacts.cwrite_outside _ _ _ _ _ (Z.to_nat ws) (Z.to_nat E) E1) as O1.
      pose proof (BlockFacts.cwrite_outside _ _ _ _ _ (Z.to_nat ws) (Z.to_nat E) E2) as O2.
      pose proof (BlockFacts.cwrite_outside _ _ _ _ _ (Z.to_nat ws) (Z.to_nat E) E3) as O3.
      pose proof E1 as C1. pose proof E2 as C2. pose proof E3 as C3.
      apply CompressFacts.cwrite_inv in C1. destruct C1 as (Hc1 & Hp1 & Hs1 & _ & _).
      apply CompressFacts.cwrite_inv in C2. destruct C2 as (Hc2 & Hp2 & Hs2 & _ & _).
      apply CompressFacts.cwrite_inv in C3. destruct C3 as (Hc3 & Hp3 & Hs3 & _ & _).
      unfold LSDJ_BLOCK_SIZE in Hc3, Hp3.
      cbn [length] in *. subst E.
      destruct O1 as [F1 S1]; [lia|lia|]. destruct O2 as [F2 S2]; [lia|lia|].
      destruct O3 as [F3 S3]; [lia|lia|].
      destruct (Z.eqb_spec (cb + 1) (LSDJ_BLOCK_COUNT + 1)) as [Hfull|Hroom].
      * unfold LSDJ_BLOCK_COUNT in Hfull.
        apply roll_back_spec in H; [|lia].
        destruct H as (Hpos & Hfits & Hwc & Hbuf).
        unfold Vio.size in *.
        repeat split; try lia.
        rewrite Hbuf, F3, F2, F1.
        replace (Vio.pos w3) with (Vio.pos w - cbs + (192 - cb) * 512) by lia.
        rewrite S3, S2, S1. reflexivity.
      * unfold LSDJ_BLOCK_COUNT in Hroom.
        destruct (cwrite w3 wc3 ev) as [[w4 wc4]|] eqn:E4; [|discriminate].
        pose proof (BlockFacts.cwrite_outside _ _ _ _ _ (Z.to_nat ws)
                      (Z.to_nat (Vio.pos w - cbs + (192 - cb) * 512)) E4) as O4.
        pose proof E4 as C4.
        apply CompressFacts.cwrite_inv in C4. destruct C4 as (Hc4 & Hp4 & Hs4 & _ & _).
        destruct O4 as [F4 S4]; [lia|lia|].
        apply IH in H; [|lia|lia|lia].
        cbv zeta in H. destruct H as (Hpos & Hfits & Hwc & Hbuf).
        unfold Vio.size in *.
        replace (Vio.pos w4 - (0 + Z.of_nat (length ev)) + (192 - (cb + 1)) * 512)
          with (Vio.pos w - cbs + (192 - cb) * 512) in * by lia.
        repeat split; try lia.
        rewrite Hbuf, F4, F3, F2, F1, S4, S3, S2, S1. reflexivity.
    + unfold LSDJ_BLOCK_SIZE in Hfit.
      destruct (cwrite w wc ev) as [[w1 wc1]|] eqn:E1; [|discriminate].
      subst E.
      pose proof (BlockFacts.cwrite_outside _ _ _ _ _ (Z.to_nat ws)
                    (Z.to_nat (Vio.pos w - cbs + (192 - cb) * 512)) E1) as O1.
      pose proof E1 as C1.
      apply CompressFacts.cwrite_inv in C1. destruct C1 as (Hc1 & Hp1 & Hs1 & _ & _).
      destruct O1 as [F1 S1]; [lia|lia|].
      apply IH in H; [|lia|lia|lia].
      cbv zeta in H. destruct H as (Hpos & Hfits & Hwc & Hbuf).
      unfold Vio.size in *.
      replace (Vio.pos w1 - (cbs + Z.of_nat (length ev)) + (192 - cb) * 512)
        with (Vio.pos w - cbs + (192 - cb) * 512) in * by lia.
      repeat split; try lia.
      rewrite Hbuf, F1, S1. reflexivity.
Qed.

End RollBackFacts.

(** X6. A compression that runs out of blocks rolls back: the stream is
    at the position it started from, every block from [blockOffset] to
    the last is filled with zeros, and the rest of the buffer is as it
    was.  The write counter is not rolled back: it counts the bytes of
    the blocks and the zeros written over them. *)
Theorem compress_roll_back
        (b : list Z) (w : Vio.t) (blockOffset wc : Z) (w' : Vio.t) (wc' : Z) :
  0 <= blockOffset <= 191 ->
  lsdj_compress b w blockOffset wc = RolledBack w' wc' ->
  let n := (192 - blockOffset) * 512 in
  Vio.pos w' = Vio.pos w
  /\ Vio.pos w + n <= Vio.size w
  /\ wc' = wc + 2 * n
  /\ Vio.buf w'
     = firstn (Z.to_nat (Vio.pos w)) (Vio.buf w) ++ zeros n
       ++ skipn (Z.to_nat (Vio.pos w + n)) (Vio.buf w).
Proof.
  intros Hoff Hc n. subst n. unfold lsdj_compress, Vio.tell in Hc.
  destruct (blockOffset =? LSDJ_BLOCK_COUNT + 1); [discriminate|].
  destruct (Vio.pos w =? -1); [discriminate|].
  assert (0 <= Vio.pos w) as Hpos.
  { destruct (Z.le_gt_cases 0 (Vio.pos w)) as [|Hneg]; [assumption|exfalso].
    destruct b as [|x b]; cbn [length compress_loop] in Hc.
    - unfold finish, cwrite, Vio.write in Hc. cbn [length] in Hc.
      destruct (Z.leb_spec 0 (Vio.pos w)); [lia|]. discriminate.
    - destruct (next_event (x :: b)) as [ev rest'] eqn:Ev.
      apply CompressFacts.next_event_encodes in Ev; [|discriminate].
      destruct Ev as (used & _ & _ & _ & Hlen).
      destruct (Z.leb_spec LSDJ_BLOCK_SIZE (0 + Z.of_nat (length ev) + 2)) as [Hj|_].
      + unfold LSDJ_BLOCK_SIZE in Hj. lia.
      + unfold cwrite, Vio.write in Hc.
        destruct ev as [|e ev]; [cbn [length] in Hlen; lia|].
        destruct (Z.leb_spec 0 (Vio.pos w)); [lia|]. discriminate. }
  apply RollBackFacts.compress_loop_rolled in Hc; try lia.
  cbv zeta in Hc. destruct Hc as (Hp & Hfits & Hwc & Hbuf).
  repeat split; try lia.
  rewrite Hbuf. do 2 f_equal; [f_equal; lia|f_equal; lia].
Qed.

Lemma compress_roll_back_witness :
  Vio.pos rolled_back_stream = 256
  /\ 256 + (192 - 191) * 512 <= 1024
  /\ 1024 = 0 + 2 * ((192 - 191) * 512)
  /\ Vio.buf rolled_back_stream
     = firstn (Z.to_nat 256) (repeat 7 1024) ++ zeros ((192 - 191) * 512)
       ++ skipn (Z.to_nat (256 + (192 - 191) * 512)) (repeat 7 1024).
Proof.
  apply (compress_roll_back incompressible_song (Vio.mk (repeat 7 1024) 256) 191 0
                            rolled_back_stream 1024).
  - lia.
  - vm_compute. reflexivity.
Defined.



(** X8. A block that begins with a jump to itself is decompressed for
    ever: with block jumps followed, [lsdj_decompress] goes back to the
    start of the block it has just left, whatever the number of turns it
    is given. *)
Theorem self_jump_never_returns
        (NO : Z) (k firstBlockPosition : Z) (st : dstate) (fuel : nat) :
  1 <= k <= 191 -> NO <> k ->
  Vio.pos (rvio st) = firstBlockPosition + (k - 1) * 512 ->
  ahead st [0xE0; k] ->
  Vio.pos (rvio st) + 512 <= Vio.size (rvio st) ->
  lsdj_decompress NO fuel st firstBlockPosition true = Timeout.
Proof.
  intros Hk HNO Hpos Hahead Hsize. unfold lsdj_decompress.
  assert (decompress_loop NO fuel firstBlockPosition true st = Timeout) as ->;
    [|reflexivity].
  revert st Hpos Hahead Hsize.
  induction fuel as [|f IH]; intros st Hpos Hahead Hsize; [reflexivity|].
  cbn [decompress_loop]. unfold lsdj_decompress_block, block_from.
  destruct f as [|f']; [reflexivity|].
  cbn [block_loop].
  pose proof Hahead as [Hp0 Hpeek].
  rewrite (StepFacts.step_block_index NO st k Hahead) by lia.
  cbn [bind]. destruct (Z.eqb_spec k NO) as [e|_]; [congruence|].
  cbn [bind]. unfold Vio.tell, LSDJ_BLOCK_SIZE.
  rewrite RoundTrip.seek_read_ok
    by (unfold consumed; cbn [rvio Vio.buf Vio.pos]; unfold Vio.size in *;
        cbn [Vio.buf]; lia).
  cbn [require bind]. unfold after_block.
  destruct (Z.eqb_spec k LSDJ_END_OF_FILE_BLOCK_INDEX) as [e|_];
    [unfold LSDJ_END_OF_FILE_BLOCK_INDEX in e; lia|].
  assert (u8 (u8 k - 1) = k - 1) as Hidx.
  { unfold u8. rewrite (Z.mod_small k) by lia. apply Z.mod_small. lia. }
  rewrite Hidx. unfold LSDJ_BLOCK_SIZE.
  rewrite RoundTrip.seek_read_ok
    by (unfold moved, consumed; cbn [rvio Vio.buf Vio.pos]; unfold Vio.size in *;
        cbn [Vio.buf]; lia).
  cbn [require bind].
  destruct (Z.eqb_spec k NO) as [e|_]; [congruence|].
  apply IH.
  - reflexivity.
  - unfold ahead, peek, moved, consumed in *. cbn [rvio Vio.buf Vio.pos length] in *.
    rewrite <- Hpos. split; [exact Hp0|exact Hpeek].
  - unfold moved, consumed, Vio.size in *. cbn [rvio Vio.buf Vio.pos]. lia.
Qed.

Lemma self_jump_never_returns_witness :
  lsdj_decompress 0xFFFF 1000 self_jump 0 true = Timeout.
Proof.
  apply (self_jump_never_returns 0xFFFF 1 0 self_jump 1000).
  - lia.
  - lia.
  - reflexivity.
  - split; [cbn; lia|reflexivity].
  - vm_compute. discriminate.
Defined.

(** ** sav.c: what the reader takes from the header *)

Module SavScanFacts.

Import Mem Sav.

Lemma slice_slice (l : list Z) (a n b m : Z) :
  0 <= a -> 0 <= b -> 0 <= m -> b + m <= n ->
  slice (slice l a n) b m = slice l (a + b) m.
Proof.
  intros Ha Hb Hm Hn. unfold slice.
  rewrite skipn_firstn_comm, firstn_firstn, skipn_skipn.
  f_equal; [lia|f_equal; lia].
Qed.

Section Scan.

Variable lsdj_song_t : Type.
Variable lsdj_decompress : list Z -> Z -> Z -> list Z.
Variable lsdj_read_song_from_memory : list Z -> Error.slot -> lsdj_song_t * Error.slot.

Lemma set_project_labels (ps : list (lsdj_project_t lsdj_song_t)) (i : nat)
      (p : lsdj_project_t lsdj_song_t) (s : lsdj_song_t) :
  nth_error ps i = Some p ->
  map (name lsdj_song_t) (set_project lsdj_song_t ps i (set_song lsdj_song_t p s))
  = map (name lsdj_song_t) ps
  /\ map (version lsdj_song_t) (set_project lsdj_song_t ps i (set_song lsdj_song_t p s))
     = map (version lsdj_song_t) ps.
Proof.
  intros Hp. unfold set_project, set_song.
  pose proof (nth_error_split ps i Hp) as (l1 & l2 & -> & <-).
  rewrite firstn_app, firstn_all, Nat.sub_diag. cbn [firstn].
  rewrite app_nil_r.
  replace (skipn (S (length l1)) (l1 ++ p :: l2)) with l2.
  - rewrite !map_app. cbn [map name version]. split; reflexivity.
  - rewrite skipn_app, skipn_all2 by lia.
    replace (S (length l1) - length l1)%nat with 1%nat by lia. reflexivity.
Qed.

(** The block scan changes songs only: names and versions stay. *)
Lemma blocks_loop_labels (n : nat) :
  forall (i : Z) (table blocks : list Z) (ps ps' : list (lsdj_project_t lsdj_song_t))
         (error error' : Error.slot),
    blocks_loop lsdj_song_t lsdj_decompress lsdj_read_song_from_memory
                n i table blocks ps error = Returned (ps', error') ->
    map (name lsdj_song_t) ps' = map (name lsdj_song_t) ps
    /\ map (version lsdj_song_t) ps' = map (version lsdj_song_t) ps.
Proof.
  induction n as [|n IH]; intros i table blocks ps ps' error error' H;
    cbn [blocks_loop] in H.
  - inversion H; subst. split; reflexivity.
  - destruct (nth_error ps (Z.to_nat (nth (Z.to_nat i) table 0))) as [p|] eqn:Hp;
      [|discriminate].
    destruct (song lsdj_song_t p) as [s|].
    + apply IH in H. exact H.
    + destruct (lsdj_read_song_from_memory (lsdj_decompress blocks i BLOCK_SIZE) error)
        as [s e1].
      destruct (set_project_labels ps _ p s Hp) as [Hn Hv].
      destruct (Error.given error).
      * inversion H; subst. split; assumption.
      * apply IH in H. destruct H as [Hn' Hv']. split; congruence.
Qed.

Lemma store_names_labels (h : header_t) :
  forall (ps : list (lsdj_project_t lsdj_song_t)) (i : Z) (k : nat)
         (p : lsdj_project_t lsdj_song_t),
    0 <= i ->
    nth_error (store_names lsdj_song_t h i ps) k = Some p ->
    name lsdj_song_t p = slice (project_names h) ((i + Z.of_nat k) * 8) 8
    /\ version lsdj_song_t p = nth (Z.to_nat (i + Z.of_nat k)) (versions h) 0.
Proof.
  induction ps as [|q ps IH]; intros i k p Hi H; cbn [store_names] in H.
  - destruct k; discriminate H.
  - destruct k as [|k]; cbn [nth_error] in H.
    + inversion H; subst p. cbn [name version].
      replace (i + Z.of_nat 0) with i by lia. split; reflexivity.
    + apply IH in H; [|lia].
      replace (i + Z.of_nat (S k)) with (i + 1 + Z.of_nat k) by lia. exact H.
Qed.

Lemma length_store_names (h : header_t) :
  forall (ps : list (lsdj_project_t lsdj_song_t)) (i : Z),
    length (store_names lsdj_song_t h i ps) = length ps.
Proof.
  induction ps as [|q ps IH]; intros i; cbn [store_names length]; [reflexivity|].
  rewrite IH. reflexivity.
Qed.

Lemma read_sav_past_init (data : list Z) (sav : lsdj_sav_t lsdj_song_t)
      (error : Error.slot) :
  nth (Z.to_nat (HEADER_START + 318)) data 0 = 106 ->
  nth (Z.to_nat (HEADER_START + 319)) data 0 = 107 ->
  lsdj_read_sav_from_memory lsdj_song_t lsdj_decompress lsdj_read_song_from_memory
                            (Some data) (Some sav) error
  = read_projects_and_song
      lsdj_song_t lsdj_decompress lsdj_read_song_from_memory Mem.t
      lsdj_mread lsdj_mseek
      (Mem.mk data (HEADER_START + sizeof_header))
      (header_of_bytes (slice data HEADER_START sizeof_header))
      sav error.
Proof.
  intros Hj Hk.
  destruct (SavFacts.init_of_memory data) as [Hj' Hk']. cbn zeta in Hj', Hk'.
  unfold lsdj_read_sav_from_memory, lsdj_read_sav, init_ok.
  rewrite (surjective_pairing
             (lsdj_mread (lsdj_mseek HEADER_START SEEK_SET (Mem.mk data 0)) sizeof_header)).
  rewrite Hj', Hk', Hj, Hk. cbn [Z.eqb Pos.eqb andb negb].
  unfold lsdj_mread, lsdj_mseek, Mem.rest, slice.
  cbn [fst snd Mem.data Mem.cur]. reflexivity.
Qed.

End Scan.

End SavScanFacts.

(** X9. When a save that carries the 'jk' marker is read from memory and
    the read returns, every project has the name and the version that the
    header holds for it (the 8 bytes at 0x8000 + 8 i and the byte at
    0x8100 + i) and the active project is the byte at 0x8140, whatever the
    scan of the blocks did to the songs. *)
Theorem read_sav_takes_labels_from_header
        (lsdj_song_t : Type) (lsdj_decompress : list Z -> Z -> Z -> list Z)
        (lsdj_read_song_from_memory : list Z -> Error.slot -> lsdj_song_t * Error.slot)
        (data : list Z) (sav sav' : Sav.lsdj_sav_t lsdj_song_t)
        (error error' : Error.slot) :
  nth (Z.to_nat (Sav.HEADER_START + 318)) data 0 = 106 ->
  nth (Z.to_nat (Sav.HEADER_START + 319)) data 0 = 107 ->
  Sav.lsdj_read_sav_from_memory lsdj_song_t lsdj_decompress lsdj_read_song_from_memory
                                (Some data) (Some sav) error
  = Returned (Some sav', error') ->
  Sav.active_project lsdj_song_t sav' = nth (Z.to_nat 0x8140) data 0
  /\ length (Sav.projects lsdj_song_t sav') = length (Sav.projects lsdj_song_t sav)
  /\ forall (k : nat) (p : Sav.lsdj_project_t lsdj_song_t),
      (k < 32)%nat ->
      nth_error (Sav.projects lsdj_song_t sav') k = Some p ->
      Sav.name lsdj_song_t p = Sav.slice data (0x8000 + 8 * Z.of_nat k) 8
      /\ Sav.version lsdj_song_t p = nth (Z.to_nat (0x8100 + Z.of_nat k)) data 0.
Proof.
  intros Hj Hk H.
  rewrite SavScanFacts.read_sav_past_init in H by assumption.
  unfold Sav.read_projects_and_song, Sav.read_compressed_blocks in H.
  remember (Sav.header_of_bytes (Sav.slice data Sav.HEADER_START Sav.sizeof_header))
    as h eqn:Eh.
  destruct (Mem.lsdj_mread (Mem.mk data (Sav.HEADER_START + Sav.sizeof_header))
                           Sav.BLOCK_COUNT) as [table u1].
  destruct (Mem.lsdj_mread u1 (Sav.BLOCK_COUNT * Sav.BLOCK_SIZE)) as [blocks u2].
  destruct (Sav.blocks_loop _ _ _ _ _ _ _ _ _) as [[ps' e1]|] eqn:Hloop; [|discriminate].
  apply SavScanFacts.blocks_loop_labels in Hloop. destruct Hloop as [Hn Hv].
  assert (Sav.active_project lsdj_song_t sav' = Sav.h_active_project h
          /\ Sav.projects lsdj_song_t sav' = ps') as [Hactive Hps].
  { destruct (Error.given error).
    - injection H as Hs _. rewrite <- Hs. split; reflexivity.
    - destruct (Mem.lsdj_mread _ _) as [song_data u3].
      destruct (lsdj_read_song_from_memory song_data e1) as [s e2].
      injection H as Hs _. rewrite <- Hs. split; reflexivity. }
  rewrite Hactive, Hps. clear H Hactive Hps.
  assert (length ps' = length (Sav.projects lsdj_song_t sav)) as Hlen.
  { rewrite <- (length_map (Sav.name lsdj_song_t) ps'), Hn, length_map.
    apply SavScanFacts.length_store_names. }
  split; [|split; [exact Hlen|]].
  - subst h. unfold Sav.header_of_bytes. cbn [Sav.h_active_project].
    unfold Sav.HEADER_START, Sav.SONG_DECOMPRESSED_SIZE, Sav.sizeof_header,
      Sav.SAV_PROJECT_COUNT.
    rewrite SavFacts.nth_slice by lia. reflexivity.
  - intros k p Hk32 Hp.
    assert (exists q, nth_error (Sav.store_names lsdj_song_t h 0
                                   (Sav.projects lsdj_song_t sav)) k = Some q
                      /\ Sav.name lsdj_song_t q = Sav.name lsdj_song_t p
                      /\ Sav.version lsdj_song_t q = Sav.version lsdj_song_t p)
      as (q & Hq & Hqn & Hqv).
    { destruct (nth_error (Sav.store_names lsdj_song_t h 0 (Sav.projects lsdj_song_t sav)) k)
        as [q|] eqn:Eq.
      - exists q. split; [reflexivity|].
        pose proof (map_nth_error (Sav.name lsdj_song_t) k _ Eq) as A.
        pose proof (map_nth_error (Sav.name lsdj_song_t) k _ Hp) as B.
        pose proof (map_nth_error (Sav.version lsdj_song_t) k _ Eq) as C.
        pose proof (map_nth_error (Sav.version lsdj_song_t) k _ Hp) as D.
        rewrite Hn in B. rewrite Hv in D. split; congruence.
      - exfalso. apply nth_error_None in Eq.
        assert (k < length ps')%nat by (apply nth_error_Some; congruence).
        rewrite SavScanFacts.length_store_names in Eq. lia. }
    apply SavScanFacts.store_names_labels in Hq; [|lia].
    destruct Hq as [Hname Hversion].
    rewrite <- Hqn, <- Hqv, Hname, Hversion. subst h.
    unfold Sav.header_of_bytes. cbn [Sav.project_names Sav.versions].
    unfold Sav.HEADER_START, Sav.SONG_DECOMPRESSED_SIZE, Sav.sizeof_header,
      Sav.SAV_PROJECT_COUNT.
    split.
    + rewrite !SavScanFacts.slice_slice by lia. f_equal. lia.
    + rewrite !SavFacts.nth_slice by lia. f_equal. lia.
Qed.

Lemma read_sav_takes_labels_from_header_witness :
  Sav.active_project unit (Sav.mkSav unit labelled_projects 5 None)
  = nth (Z.to_nat 0x8140) labelled_save 0
  /\ length labelled_projects = length full_projects
  /\ forall (k : nat) (p : Sav.lsdj_project_t unit),
      (k < 32)%nat ->
      nth_error (Sav.projects unit (Sav.mkSav unit labelled_projects 5 None)) k = Some p ->
      Sav.name unit p = Sav.slice labelled_save (0x8000 + 8 * Z.of_nat k) 8
      /\ Sav.version unit p = nth (Z.to_nat (0x8100 + Z.of_nat k)) labelled_save 0.
Proof.
  apply (read_sav_takes_labels_from_header
           unit (fun _ _ _ => []) (fun _ e => (tt, e)) labelled_save
           (Sav.mkSav unit full_projects 0 None) (Sav.mkSav unit labelled_projects 5 None)
           (Some None) (Some None)).
  - vm_compute. reflexivity.
  - vm_compute. reflexivity.
  - vm_compute. reflexivity.
Defined.

(** ** song.c: what a read leaves allocated *)

Module SongReadFacts.

Import Mem Song.

Ltac split_pairs :=
  repeat match goal with
         | |- context [match ?e with pair _ _ => _ end] =>
             let E := fresh "E" in destruct e eqn:E
         end.

Section AnyStream.

Variable P : Type.
Variable U : Type.
Variable rd : U -> Z -> list Z * U.
Variable sk : Z -> whence -> U -> U.
Variable lsdj_read_instrument :
  U -> Z -> lsdj_instrument_t P -> Error.slot -> lsdj_instrument_t P * U * Error.slot.

Lemma read_each_by_present (E : Type) (rdE : E -> U -> E * U) (len : Z) :
  forall (es es' : list (option E)) (u u' : U),
    read_each_by U sk rdE len es u = (es', u') -> map present es' = map present es.
Proof.
  induction es as [|[e|] es IH]; intros es' u u' H; cbn [read_each_by] in H.
  - inversion H. reflexivity.
  - destruct (rdE e u) as [e1 u1].
    destruct (read_each_by U sk rdE len es u1) as [tl u2] eqn:Et.
    inversion H; subst. cbn [map present]. f_equal. exact (IH _ _ _ Et).
  - destruct (read_each_by U sk rdE len es (sk len SEEK_CUR u)) as [tl u2] eqn:Et.
    inversion H; subst. cbn [map present]. f_equal. exact (IH _ _ _ Et).
Qed.

Lemma read_each_present (E : Type) (set : E -> list Z -> E) (len : Z)
      (es es' : list (option E)) (u u' : U) :
  read_each U rd sk set len es u = (es', u') -> map present es' = map present es.
Proof. unfold read_each. apply read_each_by_present. Qed.

Lemma read_instruments_present (v : Z) :
  forall (ins ins' : list (option (lsdj_instrument_t P))) (u u' : U)
         (e e' : Error.slot) (r : bool),
    read_instruments P U lsdj_read_instrument sk v ins u e = (ins', u', e', r) ->
    map present ins' = map present ins.
Proof.
  induction ins as [|o ins IH]; intros ins' u u' e e' r H; cbn [read_instruments] in H.
  - inversion H. reflexivity.
  - destruct o as [i|].
    + destruct (lsdj_read_instrument u v i e) as [[i1 u1] e1].
      destruct (Error.raised e1).
      * inversion H. reflexivity.
      * destruct (read_instruments P U lsdj_read_instrument sk v ins u1 e1)
          as [[[tl u2] e2] r2] eqn:Et.
        inversion H; subst. cbn [map present]. f_equal. exact (IH _ _ _ _ _ _ Et).
    + destruct (Error.raised e).
      * inversion H. reflexivity.
      * destruct (read_instruments P U lsdj_read_instrument sk v ins
                                   (sk 16 SEEK_CUR u) e)
          as [[[tl u2] e2] r2] eqn:Et.
        inversion H; subst. cbn [map present]. f_equal. exact (IH _ _ _ _ _ _ Et).
Qed.

Ltac presence :=
  repeat match goal with
         | E : read_each_by _ _ _ _ _ _ = (_, _) |- _ => apply read_each_by_present in E
         | E : read_each _ _ _ _ _ _ _ = (_, _) |- _ => apply read_each_present in E
         | E : read_instruments _ _ _ _ _ _ _ _ = (_, _, _, _) |- _ =>
             apply read_instruments_present in E
         end.

Variables sizeof_rows WORD_LENGTH : Z.

Lemma read_bank0_allocation (t t' : lsdj_song_t P) (u u' : U) :
  read_bank0 P sizeof_rows WORD_LENGTH U rd sk t u = (t', u') ->
  allocation t' = allocation t.
Proof.
  unfold read_bank0. split_pairs. intros H. injection H as Ht _. subst t'.
  presence. unfold allocation.
  cbn [formatVersion chains phrases instruments tables]. congruence.
Qed.

Lemma read_bank1_allocation (t t' : lsdj_song_t P) (u u' : U) (e e' : Error.slot) :
  read_bank1 P U lsdj_read_instrument rd sk t u e = (t', u', e') ->
  allocation t' = allocation t.
Proof.
  unfold read_bank1. split_pairs.
  match goal with |- context [if ?b then _ else _] => destruct b end; split_pairs;
    intros H; injection H as Ht _ _; subst t';
    presence; unfold allocation;
    cbn [formatVersion chains phrases instruments tables]; congruence.
Qed.

Lemma read_bank2_allocation (t t' : lsdj_song_t P) (u u' : U) :
  read_bank2 P U rd sk t u = (t', u') -> allocation t' = allocation t.
Proof.
  unfold read_bank2. split_pairs. intros H. injection H as Ht _. subst t'.
  presence. unfold allocation.
  cbn [formatVersion chains phrases instruments tables]. congruence.
Qed.

Lemma read_bank3_allocation (t t' : lsdj_song_t P) (u u' : U) :
  read_bank3 P U rd sk t u = (t', u') -> allocation t' = allocation t.
Proof.
  unfold read_bank3. split_pairs. intros H. injection H as Ht _. subst t'.
  presence. unfold allocation.
  cbn [formatVersion chains phrases instruments tables]. congruence.
Qed.

End AnyStream.

Lemma present_alloc_by_bits (E : Type) (fresh : E) (table : list Z) (count : nat) :
  map present (alloc_by_bits fresh table count) = map (alloc_bit table) (seq 0 count).
Proof.
  unfold alloc_by_bits. rewrite map_map. apply map_ext.
  intros i. destruct (alloc_bit table i); reflexivity.
Qed.

Lemma present_alloc_by_bytes (E : Type) (fresh : E) (table : list Z) (count : nat) :
  map present (alloc_by_bytes fresh table count)
  = map (fun i => negb (nth i table 0 =? 0)) (seq 0 count).
Proof.
  unfold alloc_by_bytes. rewrite map_map. apply map_ext.
  intros i. destruct (nth i table 0 =? 0); reflexivity.
Qed.

Lemma read_memory (data : list Z) (pos n : Z) :
  lsdj_mread (Mem.mk data pos) n
  = (bytes_at data pos (Z.to_nat n), Mem.mk data (pos + n)).
Proof. reflexivity. Qed.

Lemma read1_memory (data : list Z) (pos : Z) :
  0 <= pos ->
  read1 Mem.t lsdj_mread (Mem.mk data pos)
  = (nth (Z.to_nat pos) data 0, Mem.mk data (pos + 1)).
Proof.
  intros Hpos. unfold read1. rewrite read_memory. f_equal.
  unfold bytes_at. rewrite <- (Nat.add_0_r (Z.to_nat pos)) at 2.
  rewrite <- nth_skipn.
  destruct (skipn (Z.to_nat pos) data); reflexivity.
Qed.

End SongReadFacts.

(** X10. When [lsdj_read_song] hands back a song, no error is raised,
    the three markers are in place, the format version is the byte at
    0x7FFF, and the song has exactly the tables, instruments, chains and
    phrases that the allocation tables of the image mark: one byte per
    table at 0x2020 and per instrument at 0x2040, one bit per phrase at
    0x3E82 and per chain at 0x3EA2.  Reading the banks allocates and
    frees nothing. *)
Theorem read_song_allocation
        (instrument_params : Type) (PHRASE_COUNT WAVE_COUNT : nat)
        (sizeof_rows WORD_LENGTH : Z) (fresh_params : instrument_params)
        (lsdj_read_instrument :
           Mem.t -> Z -> Song.lsdj_instrument_t instrument_params -> Error.slot ->
           Song.lsdj_instrument_t instrument_params * Mem.t * Error.slot)
        (data : list Z) (error error' : Error.slot)
        (song : Song.lsdj_song_t instrument_params) :
  Song.lsdj_read_song_from_memory instrument_params PHRASE_COUNT WAVE_COUNT sizeof_rows
                                  WORD_LENGTH fresh_params lsdj_read_instrument
                                  (Some data) error
  = (Some song, error') ->
  Error.raised error' = false
  /\ Song.rb_at data 0x1E78 = true
  /\ Song.rb_at data 0x3E80 = true
  /\ Song.rb_at data 0x7FF0 = true
  /\ Song.formatVersion instrument_params song = nth (Z.to_nat 0x7FFF) data 0
  /\ map Song.present (Song.tables instrument_params song)
     = map (fun i => negb (nth i (Song.bytes_at data 0x2020 32) 0 =? 0))
           (seq 0 Song.TABLE_ALLOC_TABLE_SIZE)
  /\ map Song.present (Song.instruments instrument_params song)
     = map (fun i => negb (nth i (Song.bytes_at data 0x2040 64) 0 =? 0))
           (seq 0 Song.INSTRUMENT_COUNT)
  /\ map Song.present (Song.chains instrument_params song)
     = map (Song.alloc_bit (Song.bytes_at data 0x3EA2 16)) (seq 0 Song.CHAIN_COUNT)
  /\ map Song.present (Song.phrases instrument_params song)
     = map (Song.alloc_bit (Song.bytes_at data 0x3E82 32)) (seq 0 PHRASE_COUNT).
Proof.
  intros H.
  unfold Song.lsdj_read_song_from_memory, Song.lsdj_read_song in H.
  cbn [Song.read Song.tell Song.seek Song.user_data] in H.
  unfold Song.read_song_with, Mem.lsdj_mtell in H. cbn [Mem.cur] in H.
  change (0 + 0x1E78) with 0x1E78 in H. change (0 + 0x3E80) with 0x3E80 in H.
  change (0 + 0x7FF0) with 0x7FF0 in H.
  rewrite SongFacts.check_rb_memory in H by lia. cbn [Mem.data] in H.
  destruct (Song.rb_at data 0x1E78); [|discriminate H]. cbn [negb] in H.
  rewrite SongFacts.check_rb_memory in H by lia. cbn [Mem.data] in H.
  destruct (Song.rb_at data 0x3E80); [|discriminate H]. cbn [negb] in H.
  rewrite SongFacts.check_rb_memory in H by lia. cbn [Mem.data] in H.
  destruct (Song.rb_at data 0x7FF0); [|discriminate H]. cbn [negb] in H.
  unfold Song.parse_song in H.
  destruct (Error.raised error); [discriminate H|].
  cbv zeta in H.
  change (0 + 0x7FFF) with 0x7FFF in H. change (0 + 0x2020) with 0x2020 in H.
  change (0 + 0x3E82) with 0x3E82 in H.
  rewrite !SongFacts.seek_set_mk in H. cbn [Mem.data] in H.
  rewrite SongReadFacts.read1_memory in H by lia. cbv beta iota zeta in H.
  rewrite !SongFacts.seek_set_mk in H. cbn [Mem.data] in H.
  rewrite !SongReadFacts.read_memory in H. cbv beta iota zeta in H.
  rewrite !SongFacts.seek_set_mk in H. cbn [Mem.data] in H.
  rewrite !SongReadFacts.read_memory in H. cbv beta iota zeta in H.
  rewrite !SongFacts.seek_set_mk in H. cbn [Mem.data] in H.
  rewrite !Nat2Z.id in H.
  match type of H with
  | context [Song.read_bank0 _ _ _ _ _ _ ?t ?u] =>
      destruct (Song.read_bank0 instrument_params sizeof_rows WORD_LENGTH Mem.t
                                Mem.lsdj_mread Mem.lsdj_mseek t u)
        as [s0 u0] eqn:E0;
      pose proof (eq_refl : Song.allocation t = Song.allocation t) as Hstart
  end.
  destruct (Song.read_bank1 _ _ _ _ _ s0 u0 error) as [[s1 u1] e1] eqn:E1.
  destruct (Error.raised e1) eqn:Hraised; [discriminate H|].
  destruct (Song.read_bank2 _ _ _ _ s1 u1) as [s2 u2] eqn:E2.
  destruct (Song.read_bank3 _ _ _ _ s2 u2) as [s3 u3] eqn:E3.
  injection H as <- <-.
  apply SongReadFacts.read_bank0_allocation in E0.
  apply SongReadFacts.read_bank1_allocation in E1.
  apply SongReadFacts.read_bank2_allocation in E2.
  apply SongReadFacts.read_bank3_allocation in E3.
  pose proof (eq_trans E3 (eq_trans E2 (eq_trans E1 E0))) as Hall.
  clear E0 E1 E2 E3 Hstart.
  unfold Song.allocation in Hall.
  cbn [Song.formatVersion Song.chains Song.phrases Song.instruments Song.tables] in Hall.
  rewrite !SongReadFacts.present_alloc_by_bits, !SongReadFacts.present_alloc_by_bytes
    in Hall.
  pose proof (f_equal (fun x => fst (fst (fst (fst x)))) Hall) as H1.
  pose proof (f_equal (fun x => snd (fst (fst (fst x)))) Hall) as H2.
  pose proof (f_equal (fun x => snd (fst (fst x))) Hall) as H3.
  pose proof (f_equal (fun x => snd (fst x)) Hall) as H4.
  pose proof (f_equal snd Hall) as H5.
  cbn [fst snd] in H1, H2, H3, H4, H5. clear Hall.
  rewrite H1, H2, H3, H4, H5.
  split; [exact Hraised|]. repeat split; reflexivity.
Qed.

Lemma read_song_allocation_witness :
  let data := fst (Song.lsdj_write_song Z demo_write_instrument demo_song None) in
  Song.formatVersion Z demo_song = nth (Z.to_nat 0x7FFF) data 0
  /\ map Song.present (Song.instruments Z demo_song)
     = map (fun i => negb (nth i (Song.bytes_at data 0x2040 64) 0 =? 0))
           (seq 0 Song.INSTRUMENT_COUNT)
  /\ map Song.present (Song.chains Z demo_song)
     = map (Song.alloc_bit (Song.bytes_at data 0x3EA2 16)) (seq 0 Song.CHAIN_COUNT).
Proof.
  intros data.
  destruct (read_song_allocation
              Z 255 256 1024 16 0 demo_read_instrument data None None demo_song)
    as (_ & _ & _ & _ & Hversion & _ & Hinstruments & Hchains & _).
  - vm_compute. reflexivity.
  - split; [exact Hversion|]. split; [exact Hinstruments|exact Hchains].
Defined.

(** ** song.c: an error while bank 1 is written *)

(** X11. [write_bank1] returns as soon as the error slot holds an error
    after an instrument, and [lsdj_write_song] goes on with the banks 2
    and 3 all the same.  For a song whose arrays have their declared
    lengths and an instrument writer that hands over 16 bytes per
    instrument: when no error is left in the slot the image has 0x8000
    bytes; when one is, bank 1 ends after the instrument [k] at which the
    loop stopped (1 to 64), without its tables, second marker, bitmaps,
    synths and settings, and the banks 2 and 3 follow it at once, so that
    the image is 2944 + 16 * (64 - k) bytes short. *)
Theorem write_song_cut_short_by_error
        (instrument_params : Type) (PHRASE_COUNT WAVE_COUNT : nat)
        (sizeof_rows WORD_LENGTH : Z)
        (lsdj_write_instrument :
           Song.lsdj_instrument_t instrument_params -> Z -> Error.slot ->
           list Z * Error.slot)
        (song : Song.lsdj_song_t instrument_params) (error : Error.slot) :
  Z.of_nat PHRASE_COUNT = 255 -> Z.of_nat WAVE_COUNT = 256 ->
  sizeof_rows + 84 * WORD_LENGTH = 2368 ->
  (forall i v e, Z.of_nat (length (fst (lsdj_write_instrument i v e))) = 16) ->
  Song.song_ok instrument_params PHRASE_COUNT WAVE_COUNT sizeof_rows WORD_LENGTH song ->
  let img := fst (Song.lsdj_write_song instrument_params lsdj_write_instrument song error) in
  let error' := snd (Song.lsdj_write_song instrument_params lsdj_write_instrument song error) in
  if Error.raised error'
  then exists k,
      1 <= k <= 64
      /\ Z.of_nat (length img) = 0x8000 - 2944 - 16 * (64 - k)
      /\ firstn (Z.to_nat 0x2000) img = Song.write_bank0 instrument_params song
      /\ skipn (Z.to_nat (0x2000 + 4224 + 16 * k)) img
         = Song.write_bank2 instrument_params song ++ Song.write_bank3 instrument_params song
  else Z.of_nat (length img) = 0x8000.
Proof.
  intros Hpc Hwc Hrw Hcodec Hok img error'. subst img error'.
  pose proof (SongFacts.length_write_bank0 _ _ _ _ _ Hpc Hrw song Hok) as L0.
  pose proof (SongFacts.length_write_bank2 _ _ _ _ _ Hpc song Hok) as L2.
  pose proof (SongFacts.length_write_bank3 _ _ _ _ _ Hpc Hwc song Hok) as L3.
  pose proof (SongFacts.length_write_bank1 _ _ _ _ _ lsdj_write_instrument song error
                                           Hok Hcodec) as L1.
  cbv zeta in L1. unfold Song.lsdj_write_song.
  destruct (Song.write_bank1 instrument_params lsdj_write_instrument song error) as [b1 e1].
  cbn [fst snd] in *.
  destruct (Error.raised e1).
  - destruct L1 as (k & Hk & L1). exists k. split; [exact Hk|]. split; [|split].
    + rewrite !length_app, !Nat2Z.inj_add. lia.
    + rewrite firstn_app.
      replace (Z.to_nat 0x2000 - length (Song.write_bank0 instrument_params song))%nat
        with 0%nat by lia.
      rewrite firstn_O, app_nil_r. apply firstn_all2. lia.
    + rewrite app_assoc, skipn_app.
      rewrite skipn_all2 by (rewrite length_app; lia).
      replace (Z.to_nat (0x2000 + 4224 + 16 * k)
               - length (Song.write_bank0 instrument_params song ++ b1))%nat
        with 0%nat by (rewrite length_app; lia).
      reflexivity.
  - rewrite !length_app, !Nat2Z.inj_add. lia.
Qed.

Lemma write_song_cut_short_by_error_witness :
  exists k,
    1 <= k <= 64
    /\ Z.of_nat (length (fst (Song.lsdj_write_song Z demo_write_instrument demo_song
                                                   (Some (Some "earlier"%string)))))
       = 0x8000 - 2944 - 16 * (64 - k).
Proof.
  pose proof (write_song_cut_short_by_error
                Z 255 256 1024 16 demo_write_instrument demo_song
                (Some (Some "earlier"%string))
                eq_refl eq_refl eq_refl (fun i v e => eq_refl) demo_song_ok) as H.
  cbv zeta in H.
  replace (Error.raised
             (snd (Song.lsdj_write_song Z demo_write_instrument demo_song
                                        (Some (Some "earlier"%string)))))
    with true in H by (vm_compute; reflexivity).
  destruct H as (k & Hk & Hlen & _).
  exists k. split; [exact Hk|exact Hlen].
Defined.

(** ** compression.c: the assertions of the decompressor *)

(** X12. The assertion that [lsdj_decompress] makes after its loop, that
    the input is on a block boundary counted from the first block.  Each
    block leaves the input 512 bytes after the place where it began, and
    a jump that is followed leads to the start of a block.  So when the
    loop ends and the input began on a block boundary, it ends on one:
    the assertion holds.  When jumps are not followed the converse holds
    as well: an input that did not begin on a block boundary does not end
    on one. *)
Theorem decompress_ends_on_block_boundary
        (LSDJ_NO_NEXT_BLOCK_INDEX : Z) (firstBlockPosition : Z) (followBlockJumps : bool)
        (fuel : nat) (st st' : dstate) :
  decompress_loop LSDJ_NO_NEXT_BLOCK_INDEX fuel firstBlockPosition followBlockJumps st
  = Ok st' ->
  (Z.rem (Vio.tell (rvio st) - firstBlockPosition) LSDJ_BLOCK_SIZE = 0 ->
   Z.rem (Vio.tell (rvio st') - firstBlockPosition) LSDJ_BLOCK_SIZE = 0)
  /\ (followBlockJumps = false ->
      Z.rem (Vio.tell (rvio st') - firstBlockPosition) LSDJ_BLOCK_SIZE = 0 ->
      Z.rem (Vio.tell (rvio st) - firstBlockPosition) LSDJ_BLOCK_SIZE = 0).
Proof.
  exact (AlignFacts.loop_boundary LSDJ_NO_NEXT_BLOCK_INDEX firstBlockPosition
                                  followBlockJumps fuel st st').
Qed.

Lemma decompress_ends_on_block_boundary_witness :
  Z.rem (Vio.tell (Vio.mk ([0xE0; 0xFF] ++ zeros 510) 512) - 0) LSDJ_BLOCK_SIZE = 0.
Proof.
  refine (proj1 (decompress_ends_on_block_boundary
                   0 0 true 2 empty_stream
                   (mkD (Vio.mk ([0xE0; 0xFF] ++ zeros 510) 512) 2 (Vio.mk (zeros 8) 0) 0)
                   _) _).
  - vm_compute. reflexivity.
  - reflexivity.
Defined.

(** ** sav.c: what a read with an error slot leaves out *)

Module SavStopFacts.

Import Mem Sav.

Section Scan.

Variable lsdj_song_t : Type.
Variable lsdj_decompress : list Z -> Z -> Z -> list Z.
Variable lsdj_read_song_from_memory : list Z -> Error.slot -> lsdj_song_t * Error.slot.

(** With an error slot the scan returns after the first song it reads. *)
Lemma blocks_loop_given (n : nat) :
  forall (i : Z) (table blocks : list Z) (ps ps' : list (lsdj_project_t lsdj_song_t))
         (error error' : Error.slot),
    Error.given error = true ->
    blocks_loop lsdj_song_t lsdj_decompress lsdj_read_song_from_memory
                n i table blocks ps error = Returned (ps', error') ->
    ps' = ps
    \/ exists (k : nat) (p : lsdj_project_t lsdj_song_t) (s : lsdj_song_t),
        nth_error ps k = Some p
        /\ ps' = set_project lsdj_song_t ps k (set_song lsdj_song_t p s).
Proof.
  induction n as [|n IH]; intros i table blocks ps ps' error error' Hgiven H;
    cbn [blocks_loop] in H.
  - injection H as <- _. left. reflexivity.
  - destruct (nth_error ps (Z.to_nat (nth (Z.to_nat i) table 0))) as [p|] eqn:Hp;
      [|discriminate H].
    destruct (song lsdj_song_t p) as [s|].
    + exact (IH _ _ _ _ _ _ _ Hgiven H).
    + destruct (lsdj_read_song_from_memory (lsdj_decompress blocks i BLOCK_SIZE) error)
        as [s e1].
      rewrite Hgiven in H. injection H as <- _.
      right. exists (Z.to_nat (nth (Z.to_nat i) table 0)), p, s.
      split; [exact Hp|reflexivity].
Qed.

Lemma nth_error_set_project (q : lsdj_project_t lsdj_song_t) :
  forall (ps : list (lsdj_project_t lsdj_song_t)) (i j : nat),
    (i < length ps)%nat -> j <> i ->
    nth_error (set_project lsdj_song_t ps i q) j = nth_error ps j.
Proof.
  unfold set_project.
  induction ps as [|a ps IH]; intros i j Hi Hj; cbn [length] in Hi; [lia|].
  destruct i as [|i].
  - destruct j as [|j]; [contradiction Hj; reflexivity|reflexivity].
  - destruct j as [|j]; [reflexivity|].
    cbn [firstn skipn app nth_error]. apply IH; lia.
Qed.

Lemma store_names_song (h : header_t) :
  forall (ps : list (lsdj_project_t lsdj_song_t)) (i : Z) (k : nat)
         (q : lsdj_project_t lsdj_song_t),
    nth_error (store_names lsdj_song_t h i ps) k = Some q ->
    exists p, nth_error ps k = Some p /\ song lsdj_song_t q = song lsdj_song_t p.
Proof.
  induction ps as [|a ps IH]; intros i k q H; cbn [store_names] in H.
  - destruct k; discriminate H.
  - destruct k as [|k]; cbn [nth_error] in H |- *.
    + injection H as <-. exists a. split; reflexivity.
    + exact (IH _ _ _ H).
Qed.

End Scan.

End SavStopFacts.

(** X13. [lsdj_read_sav] tests the error pointer, not the error, after
    the scan of the blocks, and so does the scan after each song it reads.
    When a save with the 'jk' marker is read with an error slot, the
    working song of the save structure is left as it was and at most one
    project has another song than before.  Read without an error slot,
    the working song is the one read from the first 0x8000 bytes. *)
Theorem read_sav_stops_early_with_error_slot
        (lsdj_song_t : Type) (lsdj_decompress : list Z -> Z -> Z -> list Z)
        (lsdj_read_song_from_memory : list Z -> Error.slot -> lsdj_song_t * Error.slot)
        (data : list Z) (sav sav' : Sav.lsdj_sav_t lsdj_song_t)
        (error error' : Error.slot) :
  nth (Z.to_nat (Sav.HEADER_START + 318)) data 0 = 106 ->
  nth (Z.to_nat (Sav.HEADER_START + 319)) data 0 = 107 ->
  Sav.lsdj_read_sav_from_memory lsdj_song_t lsdj_decompress lsdj_read_song_from_memory
                                (Some data) (Some sav) error
  = Returned (Some sav', error') ->
  (Error.given error = true ->
   Sav.working_song lsdj_song_t sav' = Sav.working_song lsdj_song_t sav
   /\ forall (j k : nat) (pj pj' pk pk' : Sav.lsdj_project_t lsdj_song_t),
       nth_error (Sav.projects lsdj_song_t sav) j = Some pj ->
       nth_error (Sav.projects lsdj_song_t sav') j = Some pj' ->
       Sav.song lsdj_song_t pj' <> Sav.song lsdj_song_t pj ->
       nth_error (Sav.projects lsdj_song_t sav) k = Some pk ->
       nth_error (Sav.projects lsdj_song_t sav') k = Some pk' ->
       Sav.song lsdj_song_t pk' <> Sav.song lsdj_song_t pk ->
       j = k)
  /\ (Error.given error = false ->
      exists e : Error.slot,
        Sav.working_song lsdj_song_t sav'
        = Some (fst (lsdj_read_song_from_memory (Sav.slice data 0 0x8000) e))).
Proof.
  intros Hj Hk H.
  rewrite SavScanFacts.read_sav_past_init in H by assumption.
  unfold Sav.read_projects_and_song, Sav.read_compressed_blocks in H.
  remember (Sav.header_of_bytes (Sav.slice data Sav.HEADER_START Sav.sizeof_header))
    as h eqn:Eh.
  unfold Mem.lsdj_mread in H. cbn [Mem.data Mem.cur] in H.
  destruct (Sav.blocks_loop _ _ _ _ _ _ _ _ _) as [[ps' e1]|] eqn:Hloop; [|discriminate H].
  split; intros Hgiven; rewrite Hgiven in H.
  - injection H as Hs _. rewrite <- Hs. cbn [Sav.working_song Sav.projects].
    split; [reflexivity|].
    apply (SavStopFacts.blocks_loop_given _ _ _ _ _ _ _ _ _ _ _ Hgiven) in Hloop.
    assert (forall (i : nat) (p p' : Sav.lsdj_project_t lsdj_song_t),
               nth_error (Sav.projects lsdj_song_t sav) i = Some p ->
               nth_error (Sav.store_names lsdj_song_t h 0 (Sav.projects lsdj_song_t sav)) i
               = Some p' ->
               Sav.song lsdj_song_t p' = Sav.song lsdj_song_t p) as Hlabel.
    { intros i p p' Hp Hp'.
      destruct (SavStopFacts.store_names_song _ _ _ _ _ _ Hp') as (p0 & Hp0 & ->).
      congruence. }
    destruct Hloop as [->|(i & p & s & Hp & ->)].
    + intros j k pj pj' pk pk' Hpj Hpj' Hne. contradiction Hne.
      exact (Hlabel _ _ _ Hpj Hpj').
    + assert (forall (j : nat) (pj pj' : Sav.lsdj_project_t lsdj_song_t),
                 nth_error (Sav.projects lsdj_song_t sav) j = Some pj ->
                 nth_error (Sav.set_project
                              lsdj_song_t
                              (Sav.store_names lsdj_song_t h 0 (Sav.projects lsdj_song_t sav))
                              i (Sav.set_song lsdj_song_t p s)) j = Some pj' ->
                 Sav.song lsdj_song_t pj' <> Sav.song lsdj_song_t pj ->
                 j = i) as Hone.
      { intros j pj pj' Hpj Hpj' Hne.
        destruct (Nat.eq_dec j i) as [e|Hji]; [exact e|].
        contradiction Hne.
        rewrite SavStopFacts.nth_error_set_project in Hpj'.
        - exact (Hlabel _ _ _ Hpj Hpj').
        - apply nth_error_Some. congruence.
        - exact Hji. }
      intros j k pj pj' pk pk' Hpj Hpj' Hnej Hpk Hpk' Hnek.
      rewrite (Hone _ _ _ Hpj Hpj' Hnej), (Hone _ _ _ Hpk Hpk' Hnek). reflexivity.
  - unfold Mem.lsdj_mseek, Mem.lsdj_mread, Mem.rest in H. cbn [Mem.data Mem.cur] in H.
    destruct (lsdj_read_song_from_memory
                (firstn (Z.to_nat Sav.SONG_DECOMPRESSED_SIZE) (skipn (Z.to_nat 0) data)) e1)
      as [s e2] eqn:Es.
    injection H as Hs _. rewrite <- Hs. cbn [Sav.working_song].
    exists e1. unfold Sav.slice.
    change (Z.to_nat 0x8000) with (Z.to_nat Sav.SONG_DECOMPRESSED_SIZE).
    rewrite Es. reflexivity.
Qed.

Lemma read_sav_stops_early_with_error_slot_witness :
  Sav.working_song unit (Sav.mkSav unit first_project_read 5 None)
  = Sav.working_song unit (Sav.mkSav unit vacant_projects 0 None)
  /\ forall (j k : nat) (pj pj' pk pk' : Sav.lsdj_project_t unit),
      nth_error vacant_projects j = Some pj ->
      nth_error first_project_read j = Some pj' ->
      Sav.song unit pj' <> Sav.song unit pj ->
      nth_error vacant_projects k = Some pk ->
      nth_error first_project_read k = Some pk' ->
      Sav.song unit pk' <> Sav.song unit pk ->
      j = k.
Proof.
  apply (read_sav_stops_early_with_error_slot
           unit (fun _ _ _ => []) (fun _ e => (tt, e)) labelled_save
           (Sav.mkSav unit vacant_projects 0 None)
           (Sav.mkSav unit first_project_read 5 None)
           (Some None) (Some None)).
  - vm_compute. reflexivity.
  - vm_compute. reflexivity.
  - vm_compute. reflexivity.
  - reflexivity.
Defined.

(** ** song.c: the allocation tables of a written song *)

Module AllocTableFacts.

Import Song.

Lemma alloc_bytes_flags (E : Type) (size : nat) (L : list (option E)) :
  length L = size ->
  alloc_bytes size L = map (fun o => if present o then 1 else 0) L.
Proof.
  intros Hlen. unfold alloc_bytes.
  rewrite firstn_app, length_map, Hlen, Nat.sub_diag, firstn_O, app_nil_r.
  apply firstn_all2. rewrite length_map. lia.
Qed.

Lemma alloc_bit_alloc_bits (E : Type) (size : nat) (L : list (option E)) (j : nat) :
  (length L <= 8 * size)%nat -> (j < 8 * size)%nat ->
  alloc_bit (alloc_bits size L) j = present (nth j L None).
Proof.
  intros Hlen Hj. unfold alloc_bit. rewrite SongFacts.land_1_testbit.
  change (Z.testbit (nth (j / 8) (alloc_bits size L) 0) (Z.of_nat (j mod 8)))
    with (get_bit (alloc_bits size L) ((fun i => (i / 8)%nat) j) (j mod 8)).
  unfold alloc_bits.
  rewrite (SongFacts.get_pack_bits (fun i => (i / 8)%nat) (8 * size) j).
  - rewrite SongFacts.get_bit_zeros, orb_false_r. cbn [Nat.leb andb].
    rewrite length_map, Nat.add_0_l, Nat.sub_0_r.
    destruct (Nat.ltb_spec j (length L)) as [Hin|Hout]; cbn [andb].
    + rewrite (nth_indep _ false (@present E None)) by (rewrite length_map; lia).
      apply (map_nth (@present E)).
    + rewrite (nth_overflow L) by lia. reflexivity.
  - intros k Hk Hb Hm.
    rewrite (Nat.div_mod_eq k 8), (Nat.div_mod_eq j 8). congruence.
  - rewrite length_map. lia.
  - intros k Hk. rewrite repeat_length.
    apply Nat.Div0.div_lt_upper_bound. lia.
Qed.

End AllocTableFacts.

(** X14. The allocation tables in the image that [lsdj_write_song] makes
    of a well-formed song lie where [lsdj_read_song] looks for them and
    say which records the song has: the byte 0x2020 + i is 1 when table i
    is present and 0 when it is not, the byte 0x2040 + i likewise for
    instrument i, and the bit j of the bitmaps at 0x3EA2 and at 0x3E82 is
    set exactly when chain j, respectively phrase j, is present; the bit
    255 of the phrase bitmap, which stands for no phrase, is clear. *)
Theorem written_allocation_tables
        (instrument_params : Type) (PHRASE_COUNT WAVE_COUNT : nat)
        (sizeof_rows WORD_LENGTH : Z)
        (lsdj_write_instrument :
           Song.lsdj_instrument_t instrument_params -> Z -> Error.slot ->
           list Z * Error.slot)
        (s : Song.lsdj_song_t instrument_params) (e : Error.slot) :
  Z.of_nat PHRASE_COUNT = 255 ->
  Z.of_nat WAVE_COUNT = 256 ->
  sizeof_rows + 84 * WORD_LENGTH = 2368 ->
  (forall i v e,
      Error.raised e = false -> Song.instrument_ok instrument_params i ->
      snd (lsdj_write_instrument i v e) = e
      /\ Z.of_nat (length (fst (lsdj_write_instrument i v e))) = 16) ->
  Song.song_ok instrument_params PHRASE_COUNT WAVE_COUNT sizeof_rows WORD_LENGTH s ->
  Error.raised e = false ->
  let img := fst (Song.lsdj_write_song instrument_params lsdj_write_instrument s e) in
  Song.bytes_at img 0x2020 32
  = map (fun o => if Song.present o then 1 else 0) (Song.tables instrument_params s)
  /\ Song.bytes_at img 0x2040 64
     = map (fun o => if Song.present o then 1 else 0) (Song.instruments instrument_params s)
  /\ (forall j, (j < 128)%nat ->
                Song.alloc_bit (Song.bytes_at img 0x3EA2 16) j
                = Song.present (nth j (Song.chains instrument_params s) None))
  /\ (forall j, (j < 256)%nat ->
                Song.alloc_bit (Song.bytes_at img 0x3E82 32) j
                = Song.present (nth j (Song.phrases instrument_params s) None)).
Proof.
  intros Hp Hw Hr Hwrite Hok He img.
  destruct (SongFacts.image_layout instrument_params PHRASE_COUNT WAVE_COUNT sizeof_rows
                                   WORD_LENGTH lsdj_write_instrument Hwrite Hp Hw Hr
                                   s e Hok He)
    as (_ & Ftables & Finstruments & _ & Fphrases & Fchains & _).
  fold img in Ftables, Finstruments, Fphrases, Fchains.
  apply SongFacts.bytes_at_found in Ftables, Finstruments, Fphrases, Fchains.
  rewrite SongFacts.length_alloc_bytes in Ftables, Finstruments.
  rewrite SongFacts.length_alloc_bits in Fphrases, Fchains.
  destruct Hok.
  split; [|split; [|split]].
  - rewrite <- (AllocTableFacts.alloc_bytes_flags _ Song.TABLE_ALLOC_TABLE_SIZE)
      by assumption.
    exact Ftables.
  - rewrite <- (AllocTableFacts.alloc_bytes_flags _ Song.INSTR_ALLOC_TABLE_SIZE)
      by assumption.
    exact Finstruments.
  - intros j Hj.
    rewrite <- (AllocTableFacts.alloc_bit_alloc_bits _ Song.CHAIN_ALLOC_TABLE_SIZE)
      by (unfold Song.CHAIN_ALLOC_TABLE_SIZE, Song.CHAIN_COUNT in *; lia).
    f_equal. exact Fchains.
  - intros j Hj.
    rewrite <- (AllocTableFacts.alloc_bit_alloc_bits _ Song.PHRASE_ALLOC_TABLE_SIZE)
      by (unfold Song.PHRASE_ALLOC_TABLE_SIZE in *; lia).
    f_equal. exact Fphrases.
Qed.

Lemma written_allocation_tables_witness :
  let img := fst (Song.lsdj_write_song Z demo_write_instrument demo_song None) in
  Song.bytes_at img 0x2040 64 = 1 :: repeat 0 63
  /\ Song.alloc_bit (Song.bytes_at img 0x3EA2 16) 0 = true
  /\ Song.alloc_bit (Song.bytes_at img 0x3E82 32) 255 = false.
Proof.
  destruct (written_allocation_tables Z 255 256 1024 16 demo_write_instrument
                                      demo_song None eq_refl eq_refl eq_refl
                                      demo_write_ok demo_song_ok eq_refl)
    as (_ & Hinstruments & Hchains & Hphrases).
  intros img. split; [|split].
  - exact Hinstruments.
  - exact (Hchains 0%nat ltac:(lia)).
  - exact (Hphrases 255%nat ltac:(lia)).
Defined.

(** ** table.c on the image that song.c writes *)

Module TableImageFacts.

Lemma load_found (img c : list Z) (offset : Z) (i k : nat) :
  Song.found_at img (offset + 16 * Z.of_nat i) c -> (k < length c)%nat ->
  Table.load (Table.mkSong img) (offset + Table.table_index (Z.of_nat i) (Z.of_nat k))
  = nth k c 0.
Proof.
  intros Hc Hk. unfold Table.load, Table.table_index, Table.LSDJ_TABLE_LENGTH.
  cbn [Table.bytes].
  replace (offset + (Z.of_nat i * 16 + Z.of_nat k))
    with (offset + 16 * Z.of_nat i + Z.of_nat k) by lia.
  apply SongFacts.nth_found; assumption.
Qed.

Lemma getter_found (img c : list Z) (offset : Z) (i k : nat) :
  Song.found_at img (offset + 16 * Z.of_nat i) c ->
  length c = 16%nat -> (i < 32)%nat -> (k < 16)%nat ->
  Table.TABLE_GETTER offset Table.CONTENT_LENGTH (Table.mkSong img)
                     (Z.of_nat i) (Z.of_nat k)
  = Some (nth k c 0).
Proof.
  intros Hc Hlen Hi Hk. unfold Table.TABLE_GETTER.
  destruct (Z.leb_spec (Table.table_index (Z.of_nat i) (Z.of_nat k)) Table.CONTENT_LENGTH)
    as [_|Hbad].
  - rewrite (load_found img c) by (assumption || lia). reflexivity.
  - unfold Table.table_index, Table.LSDJ_TABLE_LENGTH, Table.CONTENT_LENGTH in Hbad. lia.
Qed.

Lemma nth_values (cs : list Song.lsdj_command_t) (k : nat) :
  nth k (Song.values cs) 0 = Song.value (nth k cs (Song.mkCommand 0 0)).
Proof. exact (map_nth Song.value cs (Song.mkCommand 0 0) k). Qed.

Lemma nth_codes (cs : list Song.lsdj_command_t) (k : nat) :
  nth k (Song.codes cs) 0 = Song.command (nth k cs (Song.mkCommand 0 0)).
Proof. exact (map_nth Song.command cs (Song.mkCommand 0 0) k). Qed.

End TableImageFacts.

(** X15. The table accessors of table.c read the image that
    [lsdj_write_song] makes of a well-formed song (1024 bytes of rows and
    words of 16 bytes, so that the envelopes lie at 0x1690) as the song
    has it.  For a table below 32 and a step below 16: the format version
    is that of the song; [lsdj_table_is_allocated] tells whether the song
    has the table; for a table the song has, the envelope, transposition
    and command-value getters return its volume, its transposition and the
    values of its two commands at this step, and in a song older than
    format version 8 the command getters return the two command codes; for
    a table the song lacks, the four getters return 0. *)
Theorem table_getters_read_written_song
        (instrument_params : Type) (LSDJ_COMMAND_B : Z)
        (lsdj_write_instrument :
           Song.lsdj_instrument_t instrument_params -> Z -> Error.slot ->
           list Z * Error.slot)
        (s : Song.lsdj_song_t instrument_params) (e : Error.slot) (i k : nat) :
  (forall i v e,
      Error.raised e = false -> Song.instrument_ok instrument_params i ->
      snd (lsdj_write_instrument i v e) = e
      /\ Z.of_nat (length (fst (lsdj_write_instrument i v e))) = 16) ->
  Song.song_ok instrument_params 255 256 1024 16 s ->
  Error.raised e = false ->
  (i < 32)%nat -> (k < 16)%nat ->
  let image :=
    Table.mkSong (fst (Song.lsdj_write_song instrument_params lsdj_write_instrument s e)) in
  let table := Z.of_nat i in
  let step := Z.of_nat k in
  let none := Song.mkCommand 0 0 in
  Table.lsdj_song_get_format_version image = Song.formatVersion instrument_params s
  /\ Table.lsdj_table_is_allocated image table
     = Some (Song.present (nth i (Song.tables instrument_params s) None))
  /\ match nth i (Song.tables instrument_params s) None with
     | Some t =>
         Table.lsdj_table_get_envelope image table step = Some (nth k (Song.volumes t) 0)
         /\ Table.lsdj_table_get_transposition image table step
            = Some (nth k (Song.table_transpositions t) 0)
         /\ Table.lsdj_table_get_command1_value image table step
            = Some (Song.value (nth k (Song.commands1 t) none))
         /\ Table.lsdj_table_get_command2_value image table step
            = Some (Song.value (nth k (Song.commands2 t) none))
         /\ (Song.formatVersion instrument_params s < 8 ->
             Table.lsdj_table_get_command1 LSDJ_COMMAND_B image table step
             = Song.command (nth k (Song.commands1 t) none)
             /\ Table.lsdj_table_get_command2 LSDJ_COMMAND_B image table step
                = Song.command (nth k (Song.commands2 t) none))
     | None =>
         Table.lsdj_table_get_envelope image table step = Some 0
         /\ Table.lsdj_table_get_transposition image table step = Some 0
         /\ Table.lsdj_table_get_command1_value image table step = Some 0
         /\ Table.lsdj_table_get_command2_value image table step = Some 0
     end.
Proof.
  intros Hwrite Hok He Hi Hk image table step none.
  pose proof (SongFacts.image_layout instrument_params 255 256 1024 16
                                     lsdj_write_instrument Hwrite eq_refl eq_refl eq_refl
                                     s e Hok He)
    as (_ & Ftables & _ & _ & _ & _ & _ & Fversion).
  pose proof (SongFacts.table_written instrument_params 255 256 1024 16
                                      lsdj_write_instrument Hwrite eq_refl eq_refl
                                      s e Hok He) as Fpresent.
  pose proof (SongFacts.absent_filled instrument_params 255 256 1024 16
                                      lsdj_write_instrument Hwrite eq_refl eq_refl eq_refl
                                      s e Hok He) as (_ & _ & _ & Fabsent).
  cbv zeta in Ftables, Fversion, Fpresent, Fabsent.
  remember (fst (Song.lsdj_write_song instrument_params lsdj_write_instrument s e))
    as img eqn:Eimg.
  subst image. clear Eimg.
  pose proof (Song.ok_table_count _ _ _ _ _ _ Hok) as Hcount.
  pose proof (Song.ok_tables _ _ _ _ _ _ Hok) as Hgood.
  unfold Song.TABLE_COUNT in Hcount.
  assert (Version : Table.lsdj_song_get_format_version (Table.mkSong img)
                    = Song.formatVersion instrument_params s).
  { unfold Table.lsdj_song_get_format_version, Table.load. cbn [Table.bytes].
    exact (SongFacts.nth_found _ _ 0x7FFF 0 Fversion ltac:(cbn; lia)). }
  split; [exact Version|]. split.
  - unfold Table.lsdj_table_is_allocated.
    destruct (Z.leb_spec (Table.ALLOCATION_TABLE_OFFSET + table)
                         (Table.ALLOCATION_TABLE_OFFSET + Table.ALLOCATION_TABLE_LENGTH))
      as [_|Hbad]; [|unfold Table.ALLOCATION_TABLE_LENGTH in Hbad; lia].
    unfold Table.load, Table.ALLOCATION_TABLE_OFFSET. cbn [Table.bytes]. subst table.
    rewrite (SongFacts.nth_found _ _ 0x2020 i Ftables)
      by (rewrite SongFacts.length_alloc_bytes; exact Hi).
    rewrite (AllocTableFacts.alloc_bytes_flags _ Song.TABLE_ALLOC_TABLE_SIZE)
      by exact Hcount.
    rewrite (nth_indep _ 0 ((fun o : option Song.lsdj_table_t =>
                               if Song.present o then 1 else 0) None))
      by (rewrite length_map; lia).
    rewrite (map_nth (fun o : option Song.lsdj_table_t => if Song.present o then 1 else 0)).
    destruct (nth i (Song.tables instrument_params s) None); reflexivity.
  - assert (nth_error (Song.tables instrument_params s) i
            = Some (nth i (Song.tables instrument_params s) None)) as Hnth
        by (apply nth_error_nth'; lia).
    destruct (nth i (Song.tables instrument_params s) None) as [t|].
    + destruct (Fpresent i t Hnth) as (F1 & F2 & F3 & F4 & F5 & F6).
      assert (Song.table_ok t) as (L1 & L2 & L3 & L4).
      { apply nth_error_In in Hnth.
        exact (proj1 (Forall_forall _ _) Hgood _ Hnth). }
      unfold Song.TABLE_LENGTH in L1, L2.
      unfold Table.lsdj_table_get_envelope, Table.lsdj_table_get_transposition,
        Table.lsdj_table_get_command1_value, Table.lsdj_table_get_command2_value,
        Table.ENVELOPES_OFFSET, Table.TRANSPOSITION_OFFSET, Table.COMMAND1_VALUE_OFFSET,
        Table.COMMAND2_VALUE_OFFSET.
      subst table step.
      change (0x1290 + 1024 + 16 * Z.of_nat i) with (0x1690 + 16 * Z.of_nat i) in F1.
      rewrite (TableImageFacts.getter_found _ _ _ _ _ F1) by lia.
      rewrite (TableImageFacts.getter_found _ _ _ _ _ F2) by lia.
      rewrite (TableImageFacts.getter_found _ _ _ _ _ F4)
        by (unfold Song.values; rewrite ?length_map; lia).
      rewrite (TableImageFacts.getter_found _ _ _ _ _ F6)
        by (unfold Song.values; rewrite ?length_map; lia).
      rewrite !TableImageFacts.nth_values.
      repeat (split; [reflexivity|]).
      intros Hold.
      unfold Table.lsdj_table_get_command1, Table.lsdj_table_get_command2.
      rewrite Version.
      destruct (Z.leb_spec 8 (Song.formatVersion instrument_params s)) as [|_]; [lia|].
      unfold Table.COMMAND1_OFFSET, Table.COMMAND2_OFFSET.
      rewrite (TableImageFacts.load_found _ _ _ _ _ F3)
        by (unfold Song.codes; rewrite length_map; lia).
      rewrite (TableImageFacts.load_found _ _ _ _ _ F5)
        by (unfold Song.codes; rewrite length_map; lia).
      rewrite !TableImageFacts.nth_codes. split; reflexivity.
    + destruct (Fabsent i Hnth) as (F1 & F2 & _ & F4 & _ & F6).
      unfold Table.lsdj_table_get_envelope, Table.lsdj_table_get_transposition,
        Table.lsdj_table_get_command1_value, Table.lsdj_table_get_command2_value,
        Table.ENVELOPES_OFFSET, Table.TRANSPOSITION_OFFSET, Table.COMMAND1_VALUE_OFFSET,
        Table.COMMAND2_VALUE_OFFSET.
      subst table step.
      change (0x1290 + 1024 + 16 * Z.of_nat i) with (0x1690 + 16 * Z.of_nat i) in F1.
      rewrite (TableImageFacts.getter_found _ _ _ _ _ F1) by (rewrite ?repeat_length; lia).
      rewrite (TableImageFacts.getter_found _ _ _ _ _ F2) by (rewrite ?repeat_length; lia).
      rewrite (TableImageFacts.getter_found _ _ _ _ _ F4) by (rewrite ?repeat_length; lia).
      rewrite (TableImageFacts.getter_found _ _ _ _ _ F6) by (rewrite ?repeat_length; lia).
      rewrite nth_repeat_lt by exact Hk.
      repeat split; reflexivity.
Qed.

Lemma table_song_ok : Song.song_ok Z 255 256 1024 16 table_song.
Proof.
  split; try reflexivity; unfold table_song;
    cbn [Song.chains Song.phrases Song.instruments Song.synths Song.waves Song.tables
         Song.words repeat];
    repeat (apply Forall_cons || apply Forall_nil); repeat split.
Qed.

Lemma table_getters_read_written_song_witness :
  let image :=
    Table.mkSong (fst (Song.lsdj_write_song Z demo_write_instrument table_song None)) in
  Table.lsdj_table_is_allocated image 2 = Some true
  /\ Table.lsdj_table_get_envelope image 2 5 = Some 9
  /\ Table.lsdj_table_get_command2_value image 2 5 = Some 8
  /\ Table.lsdj_table_get_command1 21 image 2 5 = 5.
Proof.
  destruct (table_getters_read_written_song
              Z 21 demo_write_instrument table_song None 2 5
              demo_write_ok table_song_ok eq_refl)
    as (_ & Hallocated & Hcells); [lia|lia|].
  cbv zeta in Hcells.
  change (nth 2 (Song.tables Z table_song) None) with (Some demo_table) in Hcells.
  cbv beta iota in Hcells.
  destruct Hcells as (Henvelope & _ & _ & Hvalue2 & Hold).
  destruct Hold as [Hcommand1 _]; [vm_compute; reflexivity|].
  intros image. split; [|split; [|split]].
  - exact Hallocated.
  - exact Henvelope.
  - exact Hvalue2.
  - exact Hcommand1.
Defined.
